(** * TSM Group Maker: the item-identifier engine of [script.js]

    A shallow embedding of [extractItemIds], [extractItemNames],
    [searchWowheadForItemName] and [convertToTSM], with the regular
    expressions of the script run by a backtracking matcher in the style of
    the ECMAScript specification.

    A JavaScript string is the list of its UTF-16 code units.  Browser
    services ([DOMParser], [fetch], [JSON.parse]) are parameters of the
    sections that use them.  Writes to the console and the timer that hides
    a message are left out. *)

From Stdlib Require Import String Ascii NArith ZArith QArith Bool Arith Lia List.
From Stdlib Require Import DecimalString Permutation Sorted.
Import ListNotations.
Open Scope nat_scope.

Set Implicit Arguments.

(** ** Strings *)

Definition jsstring := list N.

Definition jsstring_eq_dec : forall a b : jsstring, {a = b} + {a <> b} :=
  list_eq_dec N.eq_dec.

(** The code units of an ASCII literal of the script. *)
Definition js (s : string) : jsstring :=
  map N_of_ascii (list_ascii_of_string s).

(** ** Completions: a call returns normally or throws *)

Record error := Error { error_name : jsstring; error_message : jsstring }.

Inductive completion (A : Type) : Type :=
| Normal (a : A)
| Throw (e : error).
Arguments Throw {A} e.

(** ** Regular expressions *)

Module RegExp.

Definition cls := N -> bool.

Open Scope N_scope.

Definition only (c0 : N) : cls := fun c => c =? c0.
Definition except (c0 : N) : cls := fun c => negb (c =? c0).
Definition any : cls := fun _ => true.
Definition digit : cls := fun c => (48 <=? c) && (c <=? 57).
Definition lower : cls := fun c => (97 <=? c) && (c <=? 122).
Definition upper : cls := fun c => (65 <=? c) && (c <=? 90).
Definition word : cls := fun c => digit c || lower c || upper c || (c =? 95).

(** White space and line terminators: the class [\s], also what
    [String.prototype.trim] strips. *)
Definition space : cls := fun c =>
  ((9 <=? c) && (c <=? 13)) || (c =? 32) || (c =? 160) || (c =? 5760)
  || ((8192 <=? c) && (c <=? 8202)) || (c =? 8232) || (c =? 8233)
  || (c =? 8239) || (c =? 8287) || (c =? 12288) || (c =? 65279).

(** [Canonicalize] under the [i] flag without [u].  Every character written
    in the patterns of the script is ASCII, and a code unit from 128 up
    never canonicalizes to an ASCII one, so only the ASCII letters fold. *)
Definition canonicalize (c : N) : N := if lower c then c - 32 else c.
Definition only_i (c0 : N) : cls := fun c => canonicalize c =? canonicalize c0.
Definition letter : cls := fun c => lower c || upper c.

Close Scope N_scope.

(** Every quantifier of the script applies to a single character class,
    and every pattern has at most one capturing group. *)
Inductive regex : Type :=
| Eps
| Chr (c : cls)
| Star (c : cls)
| LazyStar (c : cls)
| Opt (c : cls)
| Cat (r1 r2 : regex)
| Group (r : regex)
| WordBoundary.

Definition Plus (c : cls) : regex := Cat (Chr c) (Star c).

Fixpoint Lit (f : N -> cls) (s : jsstring) : regex :=
  match s with
  | [] => Eps
  | c :: s' => Cat (Chr (f c)) (Lit f s')
  end.

(** A position in the text: the code units before it (nearest first), the
    code units after it, and the capture of group 1. *)
Record state := State {
  before : jsstring;
  after : jsstring;
  group1 : option jsstring
}.

Definition between (x y : state) : jsstring :=
  firstn (length (after x) - length (after y)) (after x).

Definition isWordChar (s : jsstring) : bool :=
  match s with
  | [] => false
  | c :: _ => word c
  end.

Definition atBoundary (x : state) : bool :=
  xorb (isWordChar (before x)) (isWordChar (after x)).

Definition orElse (a : option state) (b : option state) : option state :=
  match a with
  | Some z => Some z
  | None => b
  end.

Fixpoint star (c : cls) (bef aft : jsstring)
    (k : jsstring -> jsstring -> option state) {struct aft} : option state :=
  match aft with
  | a :: aft' =>
      if c a then orElse (star c (a :: bef) aft' k) (k bef aft) else k bef aft
  | [] => k bef aft
  end.

Fixpoint lazyStar (c : cls) (bef aft : jsstring)
    (k : jsstring -> jsstring -> option state) {struct aft} : option state :=
  orElse (k bef aft)
    match aft with
    | a :: aft' => if c a then lazyStar c (a :: bef) aft' k else None
    | [] => None
    end.

(** The matcher of a pattern, with its continuation. *)
Fixpoint m (r : regex) (x : state) (k : state -> option state) : option state :=
  match r with
  | Eps => k x
  | Chr c =>
      match after x with
      | a :: aft => if c a then k (State (a :: before x) aft (group1 x)) else None
      | [] => None
      end
  | Star c => star c (before x) (after x) (fun b a => k (State b a (group1 x)))
  | LazyStar c => lazyStar c (before x) (after x) (fun b a => k (State b a (group1 x)))
  | Opt c =>
      match after x with
      | a :: aft =>
          if c a then orElse (k (State (a :: before x) aft (group1 x))) (k x) else k x
      | [] => k x
      end
  | Cat r1 r2 => m r1 x (fun y => m r2 y k)
  | Group r' => m r' x (fun y => k (State (before y) (after y) (Some (between x y))))
  | WordBoundary => if atBoundary x then k x else None
  end.

Definition matchAt (r : regex) (bef aft : jsstring) : option state :=
  m r (State bef aft None) Some.

(** The search of [exec]: the first position from the current one at which
    the pattern matches. *)
Fixpoint search (r : regex) (bef aft : jsstring) {struct aft} : option state :=
  match matchAt r bef aft with
  | Some y => Some y
  | None =>
      match aft with
      | a :: aft' => search r (a :: bef) aft'
      | [] => None
      end
  end.

(** [re.test(text)] and [text.match(re)] for a pattern without [g]. *)
Definition exec (r : regex) (text : jsstring) : option state := search r [] text.

Definition test (r : regex) (text : jsstring) : bool :=
  match exec r text with
  | Some _ => true
  | None => false
  end.

(** [match[1]]; group 1 takes part in every match of the patterns it is
    read from ([CapturesPlus_Matches] below), so the default is never used. *)
Definition capture1 (y : state) : jsstring :=
  match group1 y with
  | Some s => s
  | None => []
  end.

(** [while ((match = re.exec(text)) !== null) body(match[1])] for a pattern
    with [g]: [lastIndex] is the position the last match ended at.  The
    result is [None] when the fuel runs out. *)
Fixpoint whileExec (A : Type) (fuel : nat) (r : regex) (bef aft : jsstring)
    (body : jsstring -> A -> A) (acc : A) : option A :=
  match fuel with
  | O => None
  | S fuel' =>
      match search r bef aft with
      | None => Some acc
      | Some y => whileExec fuel' r (before y) (after y) body (body (capture1 y) acc)
      end
  end.

End RegExp.
Import RegExp.

(** ** [Set] of strings, in insertion order *)

Definition JSSet := list jsstring.

Definition Set_has (x : jsstring) (s : JSSet) : bool :=
  existsb (fun y => if jsstring_eq_dec x y then true else false) s.

Definition Set_add (x : jsstring) (s : JSSet) : JSSet :=
  if Set_has x s then s else s ++ [x].

(** ** The patterns of [extractItemIds] and [extractItemNames] *)

Definition ch (s : string) : N :=
  match js s with
  | c :: _ => c
  | [] => 0%N
  end.

Declare Scope regex_scope.
Delimit Scope regex_scope with re.
Infix ";;" := Cat (at level 61, right associativity) : regex_scope.
Open Scope regex_scope.

(** [/<[a-z][\s\S]*>/i] *)
Definition isHTMLPattern : regex :=
  Chr (only (ch "<")) ;; Chr letter ;; Star any ;; Chr (only (ch ">")).

(** [/item[/=](\d+)/i] *)
Definition hrefPattern : regex :=
  Lit only_i (js "item") ;; Chr (fun c => only (ch "/") c || only (ch "=") c) ;;
  Group (Plus digit).

(** [/wowhead\.com\/[a-z]*\/?item[=/](\d+)/gi] *)
Definition wowheadUrlPattern : regex :=
  Lit only_i (js "wowhead.com/") ;; Star letter ;; Opt (only (ch "/")) ;;
  Lit only_i (js "item") ;; Chr (fun c => only (ch "=") c || only (ch "/") c) ;;
  Group (Plus digit).

(** [/\b(\d+)\b/g] *)
Definition numberPattern : regex :=
  WordBoundary ;; Group (Plus digit) ;; WordBoundary.

(** [/item:(\d+)/gi] *)
Definition itemFormatPattern : regex :=
  Lit only_i (js "item:") ;; Group (Plus digit).

(** [/i:(\d+)/gi] *)
Definition tsmFormatPattern : regex :=
  Lit only_i (js "i:") ;; Group (Plus digit).

(** [/\[([^\]]+)\]/g] *)
Definition itemNamePattern : regex :=
  Chr (only (ch "[")) ;; Group (Plus (except (ch "]"))) ;; Chr (only (ch "]")).

(** ** [extractItemIds] *)

Section Extractor.

(** [new DOMParser().parseFromString(text, 'text/html')] followed by
    [querySelectorAll('a[href]')] and [getAttribute('href')]: the href
    values of the links of the parsed document, in document order, or the
    exception the parsing step throws. *)
Variable parseAnchors : jsstring -> completion (list jsstring).

Definition addHref (itemIds : JSSet) (href : jsstring) : JSSet :=
  match href with
  | [] => itemIds
  | _ =>
      match exec hrefPattern href with
      | Some itemMatch => Set_add (capture1 itemMatch) itemIds
      | None => itemIds
      end
  end.

Definition scan (r : regex) (text : jsstring) (itemIds : JSSet) : option JSSet :=
  whileExec (S (length text)) r [] text Set_add itemIds.

Definition bind (A B : Type) (a : option A) (f : A -> option B) : option B :=
  match a with
  | Some x => f x
  | None => None
  end.

Definition extractItemIds (text : jsstring) : option JSSet :=
  let itemIds : JSSet := [] in
  let isHTML := test isHTMLPattern text in
  let itemIds :=
    if isHTML then
      match parseAnchors text with
      | Normal hrefs => fold_left addHref hrefs itemIds
      | Throw _ => itemIds
      end
    else itemIds in
  bind (scan wowheadUrlPattern text itemIds) (fun itemIds =>
  bind (if isHTML then Some itemIds else scan numberPattern text itemIds) (fun itemIds =>
  bind (scan itemFormatPattern text itemIds) (fun itemIds =>
  scan tsmFormatPattern text itemIds))).

End Extractor.

(** ** [extractItemNames] *)

Definition extractItemNames (text : jsstring) : option (list jsstring) :=
  whileExec (S (length text)) itemNamePattern [] text
    (fun name itemNames => itemNames ++ [name]) [].

(** ** Numbers *)

(** The values of [Number(id)] and of their differences: a double is a
    rational, an infinity or NaN (the sign of zero plays no part here). *)
Inductive number : Type :=
| NaN
| Infinity (negative : bool)
| Finite (q : Q).

(** The double nearest to a natural number, ties to even, as the engines
    compute [Number] on a run of digits; from 2 ^ 1024 - 2 ^ 970 on it is
    [Infinity]. *)
Definition roundToDouble (n : Z) : number :=
  if (n <? 2 ^ 53)%Z then Finite (inject_Z n)
  else
    let e := (Z.log2 n - 52)%Z in
    let q := Z.shiftr n e in
    let r := (n mod 2 ^ e)%Z in
    let half := (2 ^ (e - 1))%Z in
    let q' := if (half <? r)%Z || ((r =? half)%Z && Z.odd q) then (q + 1)%Z else q in
    let v := (q' * 2 ^ e)%Z in
    if (2 ^ 1024 <=? v)%Z then Infinity false else Finite (inject_Z v).

Definition isDigits (s : jsstring) : bool :=
  match s with
  | [] => false
  | _ => forallb digit s
  end.

Definition decimalValue (s : jsstring) : Z :=
  fold_left (fun v c => (10 * v + (Z.of_N c - 48))%Z) s 0%Z.

(** [a - b] on numbers.  The difference of two doubles is rounded, which
    keeps its sign; only the sign is read by the sort. *)
Definition minus (a b : number) : number :=
  match a, b with
  | NaN, _ | _, NaN => NaN
  | Infinity s, Infinity t => if Bool.eqb s t then NaN else Infinity s
  | Infinity s, Finite _ => Infinity s
  | Finite _, Infinity t => Infinity (negb t)
  | Finite p, Finite q => Finite (p - q)%Q
  end.

Definition negative (v : number) : bool :=
  match v with
  | NaN => false
  | Infinity s => s
  | Finite q => match (q ?= 0)%Q with Lt => true | _ => false end
  end.

(** ** Values read from parsed JSON *)

#[warnings="-register-all"]
Inductive value : Type :=
| VUndefined
| VNull
| VBool (b : bool)
| VNumber (x : number)
| VString (s : jsstring)
| VArray (items : list value)
| VObject (props : list (jsstring * value)).  (* own properties, one per key *)

Definition truthy (v : value) : bool :=
  match v with
  | VUndefined | VNull => false
  | VBool b => b
  | VNumber NaN => false
  | VNumber (Infinity _) => true
  | VNumber (Finite q) => negb (Qeq_bool q 0%Q)
  | VString s => match s with [] => false | _ => true end
  | VArray _ | VObject _ => true
  end.

Definition TypeError (msg : string) : error := Error (js "TypeError") (js msg).

(** [v.key] for the keys [id], [name_enus] and [name], which no prototype
    defines: an own property of an object, [undefined] on other values, a
    TypeError on [null] and [undefined]. *)
Definition getProperty (v : value) (key : jsstring) : completion value :=
  match v with
  | VUndefined | VNull => Throw (TypeError "Cannot read properties")
  | VObject props =>
      match find (fun p => if jsstring_eq_dec (fst p) key then true else false) props with
      | Some p => Normal (snd p)
      | None => Normal VUndefined
      end
  | _ => Normal VUndefined
  end.

(** [a || b] *)
Definition orValue (a b : value) : value := if truthy a then a else b.

(** ** [encodeURIComponent] *)

Open Scope N_scope.

Definition URIError : error := Error (js "URIError") (js "URI malformed").

Definition uriUnescaped (c : N) : bool :=
  digit c || lower c || upper c || existsb (N.eqb c) (js "-_.!~*'()").

Definition hexDigit (n : N) : N := if n <? 10 then 48 + n else 55 + n.

Definition percent (octet : N) : jsstring :=
  [37; hexDigit (octet / 16); hexDigit (octet mod 16)].

Definition utf8 (cp : N) : list N :=
  if cp <? 128 then [cp]
  else if cp <? 2048 then [192 + cp / 64; 128 + cp mod 64]
  else if cp <? 65536 then
    [224 + cp / 4096; 128 + (cp / 64) mod 64; 128 + cp mod 64]
  else
    [240 + cp / 262144; 128 + (cp / 4096) mod 64; 128 + (cp / 64) mod 64;
     128 + cp mod 64].

Definition isLeadSurrogate (c : N) : bool := (55296 <=? c) && (c <=? 56319).
Definition isTrailSurrogate (c : N) : bool := (56320 <=? c) && (c <=? 57343).

Definition prepend (p : jsstring) (r : completion jsstring) : completion jsstring :=
  match r with
  | Normal s => Normal (p ++ s)
  | Throw e => Throw e
  end.

Fixpoint encodeURIComponent (s : jsstring) : completion jsstring :=
  match s with
  | [] => Normal []
  | c :: s' =>
      if uriUnescaped c then prepend [c] (encodeURIComponent s')
      else if isTrailSurrogate c then Throw URIError
      else if isLeadSurrogate c then
        match s' with
        | d :: s'' =>
            if isTrailSurrogate d then
              let cp := (c - 55296) * 1024 + (d - 56320) + 65536 in
              prepend (flat_map percent (utf8 cp)) (encodeURIComponent s'')
            else Throw URIError
        | [] => Throw URIError
        end
      else prepend (flat_map percent (utf8 c)) (encodeURIComponent s')
  end.

Close Scope N_scope.

(** ** [searchWowheadForItemName] *)

(** [/new Listview\(\{[^}]*template:\s*'item'[^}]*data:\s*(\[[\s\S]*?\])\}/] *)
Definition listviewPattern : regex :=
  Lit only (js "new Listview({") ;; Star (except (ch "}")) ;;
  Lit only (js "template:") ;; Star space ;; Lit only (js "'item'") ;;
  Star (except (ch "}")) ;; Lit only (js "data:") ;; Star space ;;
  Group (Chr (only (ch "[")) ;; LazyStar any ;; Chr (only (ch "]"))) ;;
  Chr (only (ch "}")).

(** [/\/item[=/](\d+)/] *)
Definition itemIdPattern : regex :=
  Lit only (js "/item") ;; Chr (fun c => only (ch "=") c || only (ch "/") c) ;;
  Group (Plus digit).

Record response := Response { ok : bool; text : completion jsstring }.

Inductive searchResult : Type :=
| Found (id : jsstring) (searchedName : jsstring) (foundName : value)
| NotFound (name : jsstring) (error : jsstring) (searchUrl : jsstring).

(** [result.success] *)
Definition success (r : searchResult) : bool :=
  match r with
  | Found _ _ _ => true
  | NotFound _ _ _ => false
  end.

Definition andThen (A B : Type) (a : completion A) (f : A -> completion B) : completion B :=
  match a with
  | Normal x => f x
  | Throw e => Throw e
  end.

Notation "'do' x <- a ; b" := (andThen a (fun x => b))
  (at level 10, x name, a at level 100, b at level 200).

Section Resolver.

(** [JSON.parse] on the text captured by [listviewPattern].  The capture
    starts with an opening square bracket, so a parse that does not throw
    returns an array: the list of its elements. *)
Variable JSON_parse : jsstring -> completion (list value).

(** [ToString] of a value that is not a string (a number, an array, an
    object); it throws on an object whose [toString] is not callable. *)
Variable ToString_other : value -> completion jsstring.

Definition toString (v : value) : completion jsstring :=
  match v with
  | VString s => Normal s
  | _ => ToString_other v
  end.

(** The block guarded by [listviewMatch && listviewMatch[1]], with its own
    try/catch: [Some] is its [return], [None] falls through to the scan
    for an item link. *)
Definition fromListview (html itemName : jsstring) : option searchResult :=
  match exec listviewPattern html with
  | None => None
  | Some listviewMatch =>
      match capture1 listviewMatch with
      | [] => None
      | _ =>
          let attempt : completion (option searchResult) :=
            do data <- JSON_parse (capture1 listviewMatch);
            match data with
            | [] => Normal None
            | data0 :: _ =>
                do id <- getProperty data0 (js "id");
                if truthy id then
                  do name_enus <- getProperty data0 (js "name_enus");
                  do name' <- getProperty data0 (js "name");
                  let foundName := orValue (orValue name_enus name') (VString itemName) in
                  do idString <- toString id;
                  Normal (Some (Found idString itemName foundName))
                else Normal None
            end in
          match attempt with
          | Normal r => r
          | Throw _ => None
          end
      end
  end.

(** The body of the try block, given what [fetch] does with the request of
    this call: the promise resolves with a response or rejects (network
    error, or the TimeoutError of [AbortSignal.timeout(8000)]). *)
Definition trySearch (fetch : jsstring -> completion response)
    (itemName searchUrl : jsstring) : completion searchResult :=
  let proxy := js "https://api.allorigins.win/raw?url=" in
  do encodedUrl <- encodeURIComponent searchUrl;
  let proxyUrl := proxy ++ encodedUrl in
  do response <- fetch proxyUrl;
  if negb (ok response) then Throw (Error (js "Error") (js "Response not OK"))
  else
    do html <- text response;
    match fromListview html itemName with
    | Some r => Normal r
    | None =>
        match exec itemIdPattern html with
        | Some itemIdMatch =>
            Normal (Found (capture1 itemIdMatch) itemName (VString itemName))
        | None => Normal (NotFound itemName (js "No item found") searchUrl)
        end
    end.

(** The search URL is built before the try block; the catch turns whatever
    the block throws into a value. *)
Definition searchWowheadForItemName (fetch : jsstring -> completion response)
    (itemName : jsstring) : completion searchResult :=
  do encodedName <- encodeURIComponent itemName;
  let searchUrl := js "https://www.wowhead.com/items?filter=na=" ++ encodedName in
  match trySearch fetch itemName searchUrl with
  | Normal r => Normal r
  | Throw error => Normal (NotFound itemName (error_message error) searchUrl)
  end.

End Resolver.

(** ** The page *)

Record messageBox := MessageBox {
  content : jsstring;
  asHTML : bool;
  className : jsstring
}.

(** The elements [convertToTSM] reads and writes: the values of [#input] and
    [#output], the text of [#itemCount] and [#uniqueCount], and [#message]. *)
Record page := Page {
  input : jsstring;
  output : jsstring;
  itemCount : jsstring;
  uniqueCount : jsstring;
  messageEl : messageBox
}.

(** [showMessage(text, type, isHTML)]; the timer that hides the message later
    is left out. *)
Definition showMessage (text type : jsstring) (isHTML : bool) (p : page) : page :=
  Page (input p) (output p) (itemCount p) (uniqueCount p)
    (MessageBox text isHTML (js "message " ++ type ++ js " show")).

Definition setOutput (v : jsstring) (p : page) : page :=
  Page (input p) v (itemCount p) (uniqueCount p) (messageEl p).

Definition setCounts (v : jsstring) (p : page) : page :=
  Page (input p) (output p) v v (messageEl p).

(** ** Helpers of [convertToTSM] *)

Fixpoint dropWhile (c : cls) (s : jsstring) : jsstring :=
  match s with
  | [] => []
  | a :: s' => if c a then dropWhile c s' else s
  end.

(** [String.prototype.trim] *)
Definition trim (s : jsstring) : jsstring :=
  rev (dropWhile space (rev (dropWhile space s))).

(** [Array.prototype.join] *)
Fixpoint join (sep : jsstring) (l : list jsstring) : jsstring :=
  match l with
  | [] => []
  | [x] => x
  | x :: l' => x ++ sep ++ join sep l'
  end.

(** The decimal digits of a count. *)
Definition decimal (n : nat) : jsstring :=
  js (NilZero.string_of_uint (Nat.to_uint n)).

Definition dq : jsstring := [34%N].

(** The serialization of a text node, as [innerHTML] returns it. *)
Definition escapeText (s : jsstring) : jsstring :=
  flat_map (fun c =>
    if (c =? 38)%N then js "&amp;"
    else if (c =? 160)%N then js "&nbsp;"
    else if (c =? 60)%N then js "&lt;"
    else if (c =? 62)%N then js "&gt;"
    else [c]) s.

(** [escapeHtml(text)] on a string. *)
Definition escapeHtml (text : jsstring) : jsstring := escapeText text.

Record failedSearch := FailedSearch { failedName : jsstring; failedUrl : jsstring }.

Record foundItem := FoundItem {
  itemSearchedName : jsstring;
  itemFoundName : value;
  itemId : jsstring
}.

Definition searchLink (item : failedSearch) : jsstring :=
  js "<a href=" ++ dq ++ failedUrl item ++ dq ++ js " target=" ++ dq ++ js "_blank"
  ++ dq ++ js " style=" ++ dq ++ js "color: #58a6ff;" ++ dq ++ js ">"
  ++ escapeHtml (failedName item) ++ js "</a>".

Definition formatSearchLinks (failedSearches : list failedSearch) : jsstring :=
  join (js ", ") (map searchLink failedSearches).

(** ** [convertToTSM] *)

Inductive run : Type :=
| Done (p : page)
| Rejected (p : page) (e : error).

Section Orchestration.

Variable parseAnchors : jsstring -> completion (list jsstring).
Variable JSON_parse : jsstring -> completion (list value).
Variable ToString_other : value -> completion jsstring.

(** [Number(s)] on a string that is not a run of decimal digits. *)
Variable StringToNumber_other : jsstring -> number.

(** What [fetch] does with the n-th request of the run. *)
Variable fetch : nat -> jsstring -> completion response.

Definition Number (s : jsstring) : number :=
  if isDigits s then roundToDouble (decimalValue s) else StringToNumber_other s.

(** [(a, b) => Number(a) - Number(b)] *)
Definition compareIds (a b : jsstring) : number := minus (Number a) (Number b).

(** [Array.prototype.sort] is stable; with a consistent comparator every
    stable sort returns the same array.  Insertion, left to right.  The
    comparator is consistent on runs of digits; on an ID that is not one it
    returns NaN, and the order the engine leaves is then its own. *)
Fixpoint insert (x : jsstring) (l : list jsstring) : list jsstring :=
  match l with
  | [] => [x]
  | y :: l' => if negative (compareIds x y) then x :: l else y :: insert x l'
  end.

Definition sort (l : list jsstring) : list jsstring :=
  fold_left (fun sorted x => insert x sorted) l [].

Definition tsmFormat (sortedIds : list jsstring) : jsstring :=
  join (js ",") (map (fun id => js "i:" ++ id) sortedIds).

(** [escapeHtml(text)] on a value: [textContent] takes its string. *)
Definition escapeHtmlValue (text : value) : completion jsstring :=
  match text with
  | VUndefined | VNull => Normal []
  | _ => do s <- toString ToString_other text; Normal (escapeText s)
  end.

(** The loop [for (const itemName of itemNames)], at request number [n]. *)
Fixpoint resolveAll (n : nat) (itemNames : list jsstring) (itemIds : JSSet)
    (failedSearches : list failedSearch) (foundItems : list foundItem)
    : completion (JSSet * list failedSearch * list foundItem) :=
  match itemNames with
  | [] => Normal (itemIds, failedSearches, foundItems)
  | itemName :: rest =>
      do result <- searchWowheadForItemName JSON_parse ToString_other (fetch n) itemName;
      match result with
      | Found id searchedName foundName =>
          resolveAll (S n) rest (Set_add id itemIds) failedSearches
            (foundItems ++ [FoundItem searchedName foundName id])
      | NotFound _ _ searchUrl =>
          resolveAll (S n) rest itemIds
            (failedSearches ++ [FailedSearch itemName searchUrl]) foundItems
      end
  end.

Fixpoint foundItemsList (foundItems : list foundItem) : completion jsstring :=
  match foundItems with
  | [] => Normal []
  | item :: rest =>
      do foundName <- escapeHtmlValue (itemFoundName item);
      do tail <- foundItemsList rest;
      Normal (js "<br>" ++ [10003%N] ++ js " Found: <strong>" ++ foundName
              ++ js "</strong> (ID: " ++ escapeHtml (itemId item) ++ js ")" ++ tail)
  end.

(** Lines 172 to 219: sorting, the two empty-result exits, rendering. *)
Definition render (itemIds : JSSet) (failedSearches : list failedSearch)
    (foundItems : list foundItem) (p : page) : run :=
  let sortedIds := sort itemIds in
  let uniqueCount := length sortedIds in
  if (uniqueCount =? 0) && (0 <? length failedSearches) then
    let searchLinks := formatSearchLinks failedSearches in
    Done (setCounts (js "0") (setOutput []
      (showMessage
        (js "Could not automatically find items. Try searching manually: "
         ++ searchLinks
         ++ js ". Note: Automatic search may be blocked by ad blockers or browser extensions.")
        (js "error") true p)))
  else if uniqueCount =? 0 then
    Done (setCounts (js "0") (setOutput []
      (showMessage (js "No valid item IDs found in the input") (js "error") false p)))
  else
    let p := setOutput (tsmFormat sortedIds) p in
    let p := setCounts (decimal uniqueCount) p in
    let message :=
      js "Successfully converted " ++ decimal uniqueCount ++ js " item(s) to TSM format!" in
    match (if 0 <? length foundItems then foundItemsList foundItems else Normal []) with
    | Throw e => Rejected p e
    | Normal found =>
        let message := message ++ found in
        if 0 <? length failedSearches then
          let searchLinks := formatSearchLinks failedSearches in
          Done (showMessage
            (message ++ js "<br>" ++ [10060%N] ++ js " Could not find: " ++ searchLinks
             ++ js ". (May be blocked by ad blocker)") (js "info") true p)
        else if 0 <? length foundItems then Done (showMessage message (js "success") true p)
        else Done (showMessage message (js "success") false p)
    end.

(** The result is [None] when an extraction loop runs out of fuel. *)
Definition convertToTSM (p : page) : option run :=
  match trim (input p) with
  | [] =>
      Some (Done (showMessage (js "Please enter some Wowhead URLs or item IDs")
                    (js "error") false p))
  | _ =>
      bind (extractItemIds parseAnchors (input p)) (fun itemIds =>
      bind (extractItemNames (input p)) (fun itemNames =>
      let p :=
        if 0 <? length itemNames then
          showMessage
            (js "Searching Wowhead for " ++ decimal (length itemNames)
             ++ js " item name(s)... This may take a moment.") (js "info") false p
        else p in
      match resolveAll 0 itemNames itemIds [] [] with
      | Throw e => Some (Rejected p e)
      | Normal (itemIds, failedSearches, foundItems) =>
          Some (render itemIds failedSearches foundItems p)
      end))
  end.

End Orchestration.


(** ** [hideMessage] and [clearAll] *)

(** ASCII whitespace of the DOM standard: tab, line feed, form feed,
    carriage return, space. *)
Definition asciiWhitespace (c : N) : bool :=
  ((c =? 9) || (c =? 10) || (c =? 12) || (c =? 13) || (c =? 32))%N.

(** Splitting on ASCII whitespace; [current] is the token being read, last
    code unit first. *)
Fixpoint splitOnWhitespace (current s : jsstring) : list jsstring :=
  match s with
  | [] =>
      match current with
      | [] => []
      | _ => [rev current]
      end
  | c :: s' =>
      if asciiWhitespace c then
        match current with
        | [] => splitOnWhitespace [] s'
        | _ => rev current :: splitOnWhitespace [] s'
        end
      else splitOnWhitespace (c :: current) s'
  end.

(** The token set of a [class] attribute: the ordered set parser. *)
Definition tokenSet (className : jsstring) : JSSet :=
  fold_left (fun tokens token => Set_add token tokens) (splitOnWhitespace [] className) [].

(** [classList.remove(token)] with the update steps, which write the
    remaining tokens back joined by single spaces. *)
Definition classList_remove (token className : jsstring) : jsstring :=
  join (js " ")
    (filter (fun t => if jsstring_eq_dec t token then false else true) (tokenSet className)).

Definition hideMessage (p : page) : page :=
  Page (input p) (output p) (itemCount p) (uniqueCount p)
    (MessageBox (content (messageEl p)) (asHTML (messageEl p))
       (classList_remove (js "show") (className (messageEl p)))).

Definition clearAll (p : page) : page :=
  hideMessage (Page [] [] (js "0") (js "0") (messageEl p)).

(** ** [copyToClipboard] and [fallbackCopy] *)

Section Clipboard.

(** [navigator.clipboard.writeText], [None] where the Clipboard API is
    missing: whether the promise of the call is fulfilled, the text then
    being on the clipboard, or rejected. *)
Variable writeText : option (jsstring -> bool).

(** [document.execCommand('copy')]: it returns whether the selection was
    copied, or throws. *)
Variable execCommand : completion bool.

(** The end of the range in [output.setSelectionRange(0, 99999)]. *)
#[warnings="-abstract-large-number"]
Definition rangeEnd : nat := 99999.

(** The page and the text on the system clipboard.  [output.select()] and
    [setSelectionRange(0, 99999)] leave the first 99999 code units of the
    output selected. *)
Definition fallbackCopy (st : page * jsstring) : page * jsstring :=
  let (p, clipboard) := st in
  let selection := firstn rangeEnd (output p) in
  match execCommand with
  | Normal copied =>
      (showMessage (js "Copied to clipboard! Ready to import in TSM.") (js "success") false p,
       if copied then selection else clipboard)
  | Throw _ =>
      (showMessage (js "Failed to copy. Please copy manually.") (js "error") false p,
       clipboard)
  end.

Definition copyToClipboard (st : page * jsstring) : page * jsstring :=
  let (p, clipboard) := st in
  match output p with
  | [] =>
      (showMessage (js "Nothing to copy! Please convert some items first.") (js "error")
         false p, clipboard)
  | _ =>
      match writeText with
      | Some write =>
          if write (output p) then
            (showMessage (js "Copied to clipboard! Ready to import in TSM.") (js "success")
               false p, output p)
          else fallbackCopy st
      | None => fallbackCopy st
      end
  end.

End Clipboard.

(** ** The paste listener of [#input] *)

Record textarea := Textarea {
  fieldValue : jsstring;
  selectionStart : nat;
  selectionEnd : nat
}.

(** The value of a textarea as the [value] getter returns it: what was
    assigned with every CR LF pair and every other CR turned into LF. *)
Fixpoint normalizeNewlines (s : jsstring) : jsstring :=
  match s with
  | [] => []
  | c :: s' =>
      if (c =? 13)%N then
        10%N :: match s' with
                | d :: s'' =>
                    if (d =? 10)%N then normalizeNewlines s'' else normalizeNewlines s'
                | [] => []
                end
      else c :: normalizeNewlines s'
  end.

(** [clipboardHtml] is [e.clipboardData.getData('text/html')], [None]
    without clipboard data.  The result says whether the default paste was
    prevented.  The field holds the assigned string with its newlines
    normalized, and the selection set, [start + html.length], is clamped to
    that value, as the setters do.  The input event dispatched at the end
    has no listener in the script. *)
Definition onPaste (clipboardHtml : option jsstring) (t : textarea) : textarea * bool :=
  match clipboardHtml with
  | None => (t, false)
  | Some html =>
      match html, trim html with
      | _ :: _, _ :: _ =>
          let start := selectionStart t in
          let stop := selectionEnd t in
          let current := fieldValue t in
          let v := normalizeNewlines (firstn start current ++ html ++ skipn stop current) in
          let caret := Nat.min (start + length html) (length v) in
          (Textarea v caret caret, true)
      | _, _ => (t, false)
      end
  end.

(** ** The timers of [showMessage] *)




(** * Vocabulary of the statements *)

Unset Implicit Arguments.

Module RegExpSpec.

(** What a pattern can match between two positions, whatever the order the
    backtracking tries it in. *)
Inductive Matches : regex -> state -> state -> Prop :=
| MEps x : Matches Eps x x
| MChr c a bef aft g :
    c a = true -> Matches (Chr c) (State bef (a :: aft) g) (State (a :: bef) aft g)
| MStar c ds bef aft g :
    forallb c ds = true ->
    Matches (Star c) (State bef (ds ++ aft) g) (State (rev ds ++ bef) aft g)
| MLazyStar c ds bef aft g :
    forallb c ds = true ->
    Matches (LazyStar c) (State bef (ds ++ aft) g) (State (rev ds ++ bef) aft g)
| MOptSkip c x : Matches (Opt c) x x
| MOptTake c a bef aft g :
    c a = true -> Matches (Opt c) (State bef (a :: aft) g) (State (a :: bef) aft g)
| MCat r1 r2 x y z : Matches r1 x y -> Matches r2 y z -> Matches (Cat r1 r2) x z
| MGroup r x y :
    Matches r x y ->
    Matches (Group r) x (State (before y) (after y) (Some (between x y)))
| MBoundary x : atBoundary x = true -> Matches WordBoundary x x.

(** The code units a match runs over. *)
Definition Consumes (x : state) (s : jsstring) (y : state) : Prop :=
  after x = s ++ after y /\ before y = rev s ++ before x.

(** The least number of code units a match runs over. *)
Fixpoint minLen (r : regex) : nat :=
  match r with
  | Chr _ => 1
  | Cat r1 r2 => minLen r1 + minLen r2
  | Group r' => minLen r'
  | _ => 0
  end.

Fixpoint keepsGroup (r : regex) : bool :=
  match r with
  | Group _ => false
  | Cat r1 r2 => keepsGroup r1 && keepsGroup r2
  | _ => true
  end.

(** Patterns whose group 1 is [(c+)] and takes part in every match. *)
Inductive CapturesPlus (c : cls) : regex -> Prop :=
| CP_here : CapturesPlus c (Group (Plus c))
| CP_right r1 r2 : CapturesPlus c r2 -> CapturesPlus c (Cat r1 r2)
| CP_left r1 r2 :
    CapturesPlus c r1 -> keepsGroup r2 = true -> CapturesPlus c (Cat r1 r2).

Definition push (c : jsstring) (l : list jsstring) : list jsstring := l ++ [c].

(** Patterns that run over a fixed number of code units, and the classes of
    the code units every match of a pattern starts with. *)
Fixpoint fixed (r : regex) : bool :=
  match r with
  | Eps | Chr _ | WordBoundary => true
  | Cat r1 r2 => fixed r1 && fixed r2
  | Group r' => fixed r'
  | _ => false
  end.

Fixpoint prefixOf (r : regex) : list cls :=
  match r with
  | Chr c => [c]
  | Cat r1 r2 => prefixOf r1 ++ (if fixed r1 then prefixOf r2 else [])
  | Group r' => prefixOf r'
  | _ => []
  end.

End RegExpSpec.
Import RegExpSpec.

(** The captures of the successive matches of a pattern over a text. *)
Definition captures (r : regex) (text : jsstring) : list jsstring :=
  match whileExec (S (length text)) r [] text push [] with
  | Some caps => caps
  | None => []
  end.

Definition addAll (caps : list jsstring) (s : JSSet) : JSSet :=
  fold_left (fun a c => Set_add c a) caps s.

(** What the links of the parsed markup contribute. *)
Definition hrefIds (parseAnchors : jsstring -> completion (list jsstring))
    (text : jsstring) : JSSet :=
  if test isHTMLPattern text then
    match parseAnchors text with
    | Normal hrefs => fold_left addHref hrefs []
    | Throw _ => []
    end
  else [].

(** An item ID as the specification has it: [^\d+$]. *)
Definition isItemId (s : jsstring) : Prop := isDigits s = true.

(** ** Bracketed names, in the words of the specification *)

(** Outside a bracket pair the scan looks for the next opening bracket;
    inside, it collects the text up to the next closing bracket and returns
    it.  Pairs do not nest, and every pair found gives its inner text. *)
Fixpoint bracketScan (inner : option jsstring) (text : jsstring) : list jsstring :=
  match text with
  | [] => []
  | c :: rest =>
      match inner with
      | None =>
          if (c =? 91)%N then bracketScan (Some []) rest else bracketScan None rest
      | Some s =>
          if (c =? 93)%N then s :: bracketScan None rest
          else bracketScan (Some (s ++ [c])) rest
      end
  end.

Definition bracketTexts (text : jsstring) : list jsstring := bracketScan None text.

Definition nonEmpty (s : jsstring) : bool :=
  match s with
  | [] => false
  | _ => true
  end.

(** ** The rendered list *)

(** What follows a token of the rendered list: a comma and the next token,
    as often as there are IDs left. *)
Fixpoint tokensAfter (ids : list jsstring) : jsstring :=
  match ids with
  | [] => []
  | id :: ids' => 44%N :: 105%N :: 58%N :: id ++ tokensAfter ids'
  end.

(** The code units [tsmFormat] writes: digits, [i], the colon, the comma. *)
Definition rendered (c : N) : bool :=
  digit c || (c =? 105)%N || (c =? 58)%N || (c =? 44)%N.

(** ** Numeric order *)

(** [a <= b] on numbers. *)
Definition numberLe (a b : number) : Prop :=
  match a, b with
  | NaN, _ | _, NaN => False
  | Infinity true, _ => True
  | Infinity false, Infinity t => t = false
  | Infinity false, Finite _ => False
  | Finite _, Infinity t => t = false
  | Finite p, Finite q => (p <= q)%Q
  end.

(** The double of a run of digits as an integer, with 2 ^ 1024 standing for
    [Infinity]. *)
Definition doubleOf (n : Z) : Z :=
  match roundToDouble n with
  | Finite q => Qnum q
  | _ => (2 ^ 1024)%Z
  end.

Definition rank (s : jsstring) : Z := doubleOf (decimalValue s).

(** The IDs of a list whose double is [k], in the order of the list. *)
Definition withDouble (k : Z) (ids : list jsstring) : list jsstring :=
  filter (fun id => (rank id =? k)%Z) ids.

(** ** Collaborators for the examples *)

Definition noAnchors : jsstring -> completion (list jsstring) := fun _ => Normal [].

Definition offline : nat -> jsstring -> completion response :=
  fun _ _ => Throw (TypeError "Failed to fetch").

Definition noJSON : jsstring -> completion (list value) :=
  fun _ => Throw (Error (js "SyntaxError") (js "Unexpected token")).

Definition plainToString : value -> completion jsstring :=
  fun _ => Normal (js "[object Object]").

Definition notANumber : jsstring -> number := fun _ => NaN.

(** The string [\uD800]: one lead surrogate with no trail surrogate. *)
Definition loneSurrogate : jsstring := [55296%N].

(** The lookup URL the resolver hands back for a name. *)
Definition lookupUrl (encodedName : jsstring) : jsstring :=
  js "https://www.wowhead.com/items?filter=na=" ++ encodedName.

(** A search page whose first listed item has an ID that is not a run of
    digits, and the [JSON.parse] of its data block. *)
Definition oddData : jsstring :=
  js "[{" ++ dq ++ js "id" ++ dq ++ js ":" ++ dq ++ js "19019-2" ++ dq ++ js "}]".

Definition oddPage : jsstring :=
  js "new Listview({template: 'item', id: 'items', data: " ++ oddData ++ js "});".

Definition oddFetch : nat -> jsstring -> completion response :=
  fun _ _ => Normal (Response true (Normal oddPage)).

Definition oddJSON : jsstring -> completion (list value) :=
  fun s =>
    if jsstring_eq_dec s oddData then Normal [VObject [(js "id", VString (js "19019-2"))]]
    else Throw (Error (js "SyntaxError") (js "Unexpected token")).

(** * Vocabulary of the further properties *)

(** [s] stands in [text] between [pre] and [post]. *)
Definition standsIn (text pre s post : jsstring) : Prop := text = pre ++ s ++ post.

(** Two strings that differ at most in the case of their ASCII letters. *)
Definition sameUpToCase (s t : jsstring) : Prop :=
  map canonicalize s = map canonicalize t.

(** A position with its letters upper-cased. *)
Definition upState (x : state) : state :=
  State (map canonicalize (before x)) (map canonicalize (after x))
    (option_map (map canonicalize) (group1 x)).

(** Patterns all of whose classes disregard the case of ASCII letters. *)
Fixpoint caseless (r : regex) : Prop :=
  match r with
  | Eps | WordBoundary => True
  | Chr c | Star c | LazyStar c | Opt c => forall a, c (canonicalize a) = c a
  | Cat r1 r2 => caseless r1 /\ caseless r2
  | Group r' => caseless r'
  end.

(** [String.prototype.isWellFormed]: no surrogate stands alone. *)
Fixpoint isWellFormed (s : jsstring) : bool :=
  match s with
  | [] => true
  | c :: s' =>
      if isLeadSurrogate c then
        match s' with
        | d :: s'' => isTrailSurrogate d && isWellFormed s''
        | [] => false
        end
      else if isTrailSurrogate c then false
      else isWellFormed s'
  end.

(** A string as the engine holds it: every code unit below 2 ^ 16. *)
Definition codeUnits (s : jsstring) : Prop := Forall (fun c => (c < 65536)%N) s.

(** The address the one request of a lookup goes to. *)
Definition relayUrl (encodedUrl : jsstring) : jsstring :=
  js "https://api.allorigins.win/raw?url=" ++ encodedUrl.


(** The search URL, encoded once more, up to the encoded name. *)
Definition encodedLookupPrefix : jsstring :=
  js "https%3A%2F%2Fwww.wowhead.com%2Fitems%3Ffilter%3Dna%3D".


(** [s] starts with [t]. *)
Fixpoint startsWith (t s : jsstring) : bool :=
  match t, s with
  | [], _ => true
  | a :: t', b :: s' => (a =? b)%N && startsWith t' s'
  | _ :: _, [] => false
  end.

(** Every [c] in [s] is followed by one of the strings [allowed]. *)
Fixpoint opensOnly (c : N) (allowed : list jsstring) (s : jsstring) : bool :=
  match s with
  | [] => true
  | a :: s' =>
      (if (a =? c)%N then existsb (fun t => startsWith t s') allowed else true)
      && opensOnly c allowed s'
  end.

(** What follows the ampersand of the four character references of a
    serialized text node. *)
Definition textEntities : list jsstring := [js "amp;"; js "nbsp;"; js "lt;"; js "gt;"].

(** What follows the opening angle bracket of the tags [convertToTSM] and
    [formatSearchLinks] write. *)
Definition messageTags : list jsstring :=
  [js "a href=" ++ dq; js "/a>"; js "br>"; js "strong>"; js "/strong>"].

Definition pageOf (r : run) : page :=
  match r with
  | Done p => p
  | Rejected p _ => p
  end.

(** What [formatSearchLinks] writes between the URL of a link and its text. *)
Definition linkAttributes : jsstring :=
  dq ++ js " target=" ++ dq ++ js "_blank" ++ dq ++ js " style=" ++ dq
  ++ js "color: #58a6ff;" ++ dq ++ js ">".

(** The page as the lookups begin: with names to look up, the message that
    the search is running. *)
Definition announced (itemNames : list jsstring) (p : page) : page :=
  if 0 <? length itemNames then
    showMessage
      (js "Searching Wowhead for " ++ decimal (length itemNames)
       ++ js " item name(s)... This may take a moment.") (js "info") false p
  else p.

(** A failed search as the resolver reports it: the lookup URL of its name. *)
Definition reported (item : failedSearch) : Prop :=
  exists encodedName,
    encodeURIComponent (failedName item) = Normal encodedName
    /\ failedUrl item = lookupUrl encodedName.

(** A class token: not empty, no ASCII whitespace in it. *)
Definition classToken (t : jsstring) : Prop :=
  t <> [] /\ forall c, In c t -> asciiWhitespace c = false.

(** The test [classList.remove] applies to each token of the set. *)
Definition otherThan (token : jsstring) : jsstring -> bool :=
  fun t => if jsstring_eq_dec t token then false else true.

(** Patterns that end with the group [(c+)]. *)
Inductive EndsWithRun (c : cls) : regex -> Prop :=
| EWR_here : EndsWithRun c (Group (Plus c))
| EWR_right r1 r2 : EndsWithRun c r2 -> EndsWithRun c (Cat r1 r2).

(** What follows a whole run of [c]: the end of the text, or a code unit
    that is not in [c]. *)
Definition runEnds (c : cls) (post : jsstring) : Prop :=
  match post with
  | [] => True
  | a :: _ => c a = false
  end.

(** [id] is the item ID of the link target [href]: the whole run of digits
    after the first item= or item/ of the target that a digit follows. *)
Definition firstItemOf (href id : jsstring) : Prop :=
  exists pre t sep post,
    href = pre ++ t ++ sep :: id ++ post
    /\ sameUpToCase t (js "item") /\ (sep = ch "/" \/ sep = ch "=")
    /\ isItemId id /\ runEnds digit post
    /\ forall pre' t' sep' d post',
         href = pre' ++ t' ++ sep' :: d :: post' ->
         sameUpToCase t' (js "item") -> (sep' = ch "/" \/ sep' = ch "=") ->
         digit d = true ->
         length pre <= length pre'.


(** [id] is the ID of the first item link of a page: the whole run of
    digits after the first /item= or /item/ of the page that a digit
    follows. *)
Definition firstItemLinkOf (html id : jsstring) : Prop :=
  exists pre sep post,
    html = pre ++ js "/item" ++ sep :: id ++ post
    /\ (sep = ch "=" \/ sep = ch "/")
    /\ isItemId id /\ runEnds digit post
    /\ forall pre' sep' d post',
         html = pre' ++ js "/item" ++ sep' :: d :: post' ->
         (sep' = ch "=" \/ sep' = ch "/") -> digit d = true ->
         length pre <= length pre'.

(** A [fetch] that answers the request for one address with a page and
    rejects every other request. *)
Definition pageAt (url page : jsstring) : jsstring -> completion response :=
  fun requested =>
    if jsstring_eq_dec requested url then Normal (Response true (Normal page))
    else Throw (TypeError "Failed to fetch").

(** A [JSON.parse] that knows the texts listed and throws on every other. *)
Definition knownJSON (known : list (jsstring * list value))
    : jsstring -> completion (list value) :=
  fun s =>
    match find (fun kv => if jsstring_eq_dec (fst kv) s then true else false) known with
    | Some kv => Normal (snd kv)
    | None => Throw (Error (js "SyntaxError") (js "Unexpected end of JSON input"))
    end.

(** A search page whose data holds a nested array, so that the data block
    ends inside the data, and an item link. *)
Definition nestedData : jsstring :=
  js "[{" ++ dq ++ js "id" ++ dq ++ js ":19019," ++ dq ++ js "tags" ++ dq ++ js ":[1]}]".

Definition nestedPage : jsstring :=
  js "new Listview({template: 'item', id: 'items', data: " ++ nestedData
  ++ js "}); <a href=/item=19019/thunderfury>Thunderfury</a>".





(** The relay address of the lookup of Thunderfury. *)
Definition thunderfuryUrl : jsstring := relayUrl (encodedLookupPrefix ++ js "Thunderfury").
(** * Properties of the matcher *)

Module RegExpFacts.

Lemma orElse_Some a b z :
  orElse a b = Some z -> a = Some z \/ (a = None /\ b = Some z).
Proof. destruct a; simpl; intros H; [left | right]; auto. Qed.

Lemma orElse_None a b : orElse a b = None -> a = None /\ b = None.
Proof. destruct a; simpl; intros H; [discriminate | auto]. Qed.

Lemma star_Some c aft : forall bef k z,
  star c bef aft k = Some z ->
  exists ds aft', aft = ds ++ aft' /\ forallb c ds = true
                  /\ k (rev ds ++ bef) aft' = Some z.
Proof.
  induction aft as [|a aft IH]; intros bef k z H; simpl in H.
  - exists [], []. auto.
  - destruct (c a) eqn:Ha.
    + apply orElse_Some in H. destruct H as [H | [_ H]].
      * apply IH in H. destruct H as (ds & aft' & -> & Hds & Hk).
        exists (a :: ds), aft'. simpl. rewrite Ha, Hds.
        rewrite <- app_assoc. simpl. auto.
      * exists [], (a :: aft). auto.
    + exists [], (a :: aft). auto.
Qed.

Lemma star_None c aft : forall bef k,
  star c bef aft k = None ->
  forall ds aft', aft = ds ++ aft' -> forallb c ds = true ->
                  k (rev ds ++ bef) aft' = None.
Proof.
  induction aft as [|a aft IH]; intros bef k H ds aft' E Hds; simpl in H.
  - symmetry in E. apply app_eq_nil in E. destruct E as [-> ->]. exact H.
  - destruct ds as [|d ds]; simpl in E.
    + subst aft'. simpl. destruct (c a); [apply orElse_None in H; tauto | exact H].
    + injection E as -> ->. simpl in Hds. apply andb_true_iff in Hds.
      destruct Hds as [Hd Hds]. rewrite Hd in H. apply orElse_None in H.
      destruct H as [H _]. simpl. rewrite <- app_assoc. simpl.
      exact (IH _ _ H ds aft' eq_refl Hds).
Qed.

Lemma lazyStar_Some c aft : forall bef k z,
  lazyStar c bef aft k = Some z ->
  exists ds aft', aft = ds ++ aft' /\ forallb c ds = true
                  /\ k (rev ds ++ bef) aft' = Some z.
Proof.
  induction aft as [|a aft IH]; intros bef k z H; simpl in H;
    apply orElse_Some in H; destruct H as [H | [_ H]];
    try (exists [], []; auto; fail); try discriminate.
  - exists [], (a :: aft). auto.
  - destruct (c a) eqn:Ha; [|discriminate].
    apply IH in H. destruct H as (ds & aft' & -> & Hds & Hk).
    exists (a :: ds), aft'. simpl. rewrite Ha, Hds.
    rewrite <- app_assoc. simpl. auto.
Qed.

Lemma lazyStar_None c aft : forall bef k,
  lazyStar c bef aft k = None ->
  forall ds aft', aft = ds ++ aft' -> forallb c ds = true ->
                  k (rev ds ++ bef) aft' = None.
Proof.
  induction aft as [|a aft IH]; intros bef k H ds aft' E Hds; simpl in H;
    apply orElse_None in H; destruct H as [H0 H].
  - symmetry in E. apply app_eq_nil in E. destruct E as [-> ->]. exact H0.
  - destruct ds as [|d ds]; simpl in E.
    + subst aft'. exact H0.
    + injection E as -> ->. simpl in Hds. apply andb_true_iff in Hds.
      destruct Hds as [Hd Hds]. rewrite Hd in H.
      simpl. rewrite <- app_assoc. simpl.
      exact (IH _ _ H ds aft' eq_refl Hds).
Qed.

(** A successful run of the matcher went through a match of the pattern. *)
Theorem m_Some r : forall x k z,
  m r x k = Some z -> exists y, Matches r x y /\ k y = Some z.
Proof.
  induction r; intros x k z H; simpl in H.
  - exists x. split; [constructor | exact H].
  - destruct x as [bef aft g]. simpl in H. destruct aft as [|a aft]; [discriminate|].
    destruct (c a) eqn:Ha; [|discriminate].
    eexists. split; [constructor; exact Ha | exact H].
  - destruct x as [bef aft g]. simpl in H. apply star_Some in H.
    destruct H as (ds & aft' & -> & Hds & Hk).
    eexists. split; [constructor; exact Hds | exact Hk].
  - destruct x as [bef aft g]. simpl in H. apply lazyStar_Some in H.
    destruct H as (ds & aft' & -> & Hds & Hk).
    eexists. split; [constructor; exact Hds | exact Hk].
  - destruct x as [bef aft g]. simpl in H. destruct aft as [|a aft].
    + eexists. split; [apply MOptSkip | exact H].
    + destruct (c a) eqn:Ha.
      * apply orElse_Some in H. destruct H as [H | [_ H]].
        -- eexists. split; [apply MOptTake; exact Ha | exact H].
        -- eexists. split; [apply MOptSkip | exact H].
      * eexists. split; [apply MOptSkip | exact H].
  - apply IHr1 in H. destruct H as (y & Hy & H).
    apply IHr2 in H. destruct H as (y' & Hy' & H).
    exists y'. split; [econstructor; eassumption | exact H].
  - apply IHr in H. destruct H as (y & Hy & H).
    eexists. split; [constructor; exact Hy | exact H].
  - destruct (atBoundary x) eqn:Hb; [|discriminate].
    exists x. split; [constructor; exact Hb | exact H].
Qed.

(** A failed run of the matcher tried every match of the pattern. *)
Theorem m_None r : forall x k,
  m r x k = None -> forall y, Matches r x y -> k y = None.
Proof.
  induction r; intros x k H y My; inversion My; subst; simpl in H.
  - exact H.
  - match goal with E : c _ = true |- _ => rewrite E in H end. exact H.
  - match goal with E : forallb c ?ds = true |- k (State _ ?aft ?g) = _ =>
      exact (@star_None c (ds ++ aft) _ (fun b a => k (State b a g)) H ds aft eq_refl E)
    end.
  - match goal with E : forallb c ?ds = true |- k (State _ ?aft ?g) = _ =>
      exact (@lazyStar_None c (ds ++ aft) _ (fun b a => k (State b a g)) H ds aft eq_refl E)
    end.
  - destruct y as [bef aft g]. simpl in H. destruct aft as [|a aft]; [exact H|].
    destruct (c a); [apply orElse_None in H; tauto | exact H].
  - match goal with E : c _ = true |- _ => rewrite E in H end.
    apply orElse_None in H. tauto.
  - match goal with
    | M1 : Matches r1 _ ?y0, M2 : Matches r2 ?y0 _ |- _ =>
        exact (IHr2 _ _ (IHr1 _ _ H _ M1) _ M2)
    end.
  - match goal with M1 : Matches r _ _ |- _ => exact (IHr _ _ H _ M1) end.
  - match goal with E : atBoundary _ = true |- _ => rewrite E in H end. exact H.
Qed.

Corollary m_no_match r x k :
  (forall y, Matches r x y -> k y = None) -> m r x k = None.
Proof.
  intros H. destruct (m r x k) eqn:E; [|reflexivity].
  apply m_Some in E. destruct E as (y & My & Hk). rewrite (H y My) in Hk. discriminate.
Qed.

Lemma Matches_consumes r x y : Matches r x y -> exists s, Consumes x s y.
Proof.
  unfold Consumes. induction 1; simpl.
  - exists []. auto.
  - exists [a]. auto.
  - exists ds. auto.
  - exists ds. auto.
  - exists []. auto.
  - exists [a]. auto.
  - destruct IHMatches1 as (s1 & E1 & B1). destruct IHMatches2 as (s2 & E2 & B2).
    exists (s1 ++ s2). rewrite E1, E2, B2, B1, rev_app_distr, !app_assoc. auto.
  - exact IHMatches.
  - exists []. auto.
Qed.

Lemma firstn_consumed (s a : jsstring) :
  firstn (length (s ++ a) - length a) (s ++ a) = s.
Proof.
  rewrite length_app. replace (length s + length a - length a) with (length s) by lia.
  rewrite firstn_app, Nat.sub_diag, firstn_all. simpl. apply app_nil_r.
Qed.

Lemma between_app bef1 bef2 s a g1 g2 :
  between (State bef1 (s ++ a) g1) (State bef2 a g2) = s.
Proof. apply firstn_consumed. Qed.

Lemma between_consumed x s y : Consumes x s y -> between x y = s.
Proof. intros [E _]. unfold between. rewrite E. apply firstn_consumed. Qed.

Lemma Matches_Plus c x y :
  Matches (Plus c) x y ->
  exists s, Consumes x s y /\ s <> [] /\ forallb c s = true.
Proof.
  unfold Plus. intros H. inversion H; subst.
  match goal with M1 : Matches (Chr c) _ _, M2 : Matches (Star c) _ _ |- _ =>
    inversion M1; subst; inversion M2; subst end.
  exists (a :: ds). unfold Consumes. simpl. repeat split.
  - rewrite <- app_assoc. reflexivity.
  - discriminate.
  - apply andb_true_iff. auto.
Qed.

Lemma Matches_length r x y :
  Matches r x y -> length (after y) + minLen r <= length (after x).
Proof.
  induction 1; simpl in *; try lia.
  - rewrite length_app. lia.
  - rewrite length_app. lia.
Qed.

Lemma keepsGroup_Matches r x y :
  keepsGroup r = true -> Matches r x y -> group1 y = group1 x.
Proof.
  intros K M. induction M; simpl in *; try reflexivity; try discriminate.
  apply andb_true_iff in K. destruct K as [K1 K2].
  rewrite IHM2, IHM1; auto.
Qed.

Lemma CapturesPlus_Matches c r :
  CapturesPlus c r ->
  forall x y, Matches r x y ->
  exists s, group1 y = Some s /\ s <> [] /\ forallb c s = true.
Proof.
  induction 1; intros x y M; inversion M; subst.
  - match goal with M1 : Matches (Plus c) _ _ |- _ =>
      apply Matches_Plus in M1; destruct M1 as (s & Cs & Hs) end.
    exists s. simpl. rewrite (between_consumed _ _ _ Cs). tauto.
  - eauto.
  - match goal with M1 : Matches r1 _ _, M2 : Matches r2 _ _ |- _ =>
      destruct (IHCapturesPlus _ _ M1) as (s & G & Hs);
      rewrite <- (keepsGroup_Matches _ _ _ H0 M2) in G end.
    eauto.
Qed.

Ltac captures :=
  cbn;
  repeat first [ apply CP_here
               | apply CP_left; [apply CP_here | reflexivity]
               | apply CP_right ].

(** ** The search *)

Lemma search_Some r aft : forall bef y,
  search r bef aft = Some y ->
  exists bef' aft', Matches r (State bef' aft' None) y /\ length aft' <= length aft.
Proof.
  induction aft as [|a aft IH]; intros bef y H; simpl in H.
  - destruct (matchAt r bef []) eqn:E; [|discriminate]. injection H as ->.
    apply m_Some in E. destruct E as (y' & My & Hy). injection Hy as ->.
    exists bef, []. auto.
  - destruct (matchAt r bef (a :: aft)) eqn:E.
    + injection H as ->. apply m_Some in E. destruct E as (y' & My & Hy).
      injection Hy as ->. exists bef, (a :: aft). auto.
    + apply IH in H. destruct H as (bef' & aft' & My & L).
      exists bef', aft'. simpl. split; [exact My | lia].
Qed.

Lemma search_Some_at r aft : forall bef y,
  search r bef aft = Some y ->
  exists p aft', aft = p ++ aft' /\ Matches r (State (rev p ++ bef) aft' None) y.
Proof.
  induction aft as [|a aft IH]; intros bef y H; simpl in H.
  - destruct (matchAt r bef []) eqn:E; [|discriminate]. injection H as ->.
    apply m_Some in E. destruct E as (y' & My & Hy). injection Hy as ->.
    exists [], []. auto.
  - destruct (matchAt r bef (a :: aft)) eqn:E.
    + injection H as ->. apply m_Some in E. destruct E as (y' & My & Hy).
      injection Hy as ->. exists [], (a :: aft). auto.
    + apply IH in H. destruct H as (p & aft' & -> & My).
      exists (a :: p), aft'. simpl. rewrite <- app_assoc. auto.
Qed.

Lemma search_complete r p : forall bef aft y,
  Matches r (State (rev p ++ bef) aft None) y -> search r bef (p ++ aft) <> None.
Proof.
  induction p as [|a p IH]; intros bef aft y M; simpl in M.
  - intros N. assert (matchAt r bef aft = None) as E.
    { destruct aft; simpl in N; destruct (matchAt r bef _); congruence. }
    apply (m_None _ _ _ E) in M. discriminate.
  - simpl. destruct (matchAt r bef (a :: p ++ aft)); [discriminate|].
    rewrite <- app_assoc in M. apply (IH _ _ _ M).
Qed.

Lemma search_progress r bef aft y :
  1 <= minLen r -> search r bef aft = Some y -> length (after y) < length aft.
Proof.
  intros P H. apply search_Some in H. destruct H as (bef' & aft' & My & L).
  apply Matches_length in My. simpl in My. lia.
Qed.

Lemma search_step r bef a aft :
  matchAt r bef (a :: aft) = None -> search r bef (a :: aft) = search r (a :: bef) aft.
Proof. intros E. simpl. rewrite E. reflexivity. Qed.

Lemma search_found r bef aft y :
  matchAt r bef aft = Some y -> search r bef aft = Some y.
Proof. intros E. destruct aft; simpl; rewrite E; reflexivity. Qed.

(** No match anywhere when no position of the rest admits one. *)
Lemma search_nowhere r aft : forall bef,
  (forall bef' aft' y, length aft' <= length aft ->
     (exists p, aft = p ++ aft') -> ~ Matches r (State bef' aft' None) y) ->
  search r bef aft = None.
Proof.
  induction aft as [|a aft IH]; intros bef H.
  - simpl. unfold matchAt. rewrite m_no_match; [reflexivity|].
    intros y My. exfalso. apply (H bef [] y); [lia | exists []; reflexivity | exact My].
  - simpl. unfold matchAt. rewrite m_no_match.
    + apply IH. intros bef' aft' y L [p ->] My.
      apply (H bef' aft' y); [simpl; lia | exists (a :: p); reflexivity | exact My].
    + intros y My. exfalso.
      apply (H bef (a :: aft) y); [lia | exists []; reflexivity | exact My].
Qed.

Lemma Matches_prefix r x y :
  Matches r x y ->
  exists p t,
    after x = p ++ t ++ after y
    /\ Forall2 (fun c a => c a = true) (prefixOf r) p
    /\ (fixed r = true -> t = []).
Proof.
  induction 1; simpl.
  - exists [], []. auto.
  - exists [a], []. split; [reflexivity | split; [repeat constructor; assumption | auto]].
  - exists [], ds. split; [reflexivity | split; [constructor | discriminate]].
  - exists [], ds. split; [reflexivity | split; [constructor | discriminate]].
  - exists [], []. split; [reflexivity | split; [constructor | discriminate]].
  - exists [], [a]. split; [reflexivity | split; [constructor | discriminate]].
  - destruct IHMatches1 as (p1 & t1 & E1 & F1 & T1).
    destruct IHMatches2 as (p2 & t2 & E2 & F2 & T2).
    destruct (fixed r1); simpl.
    + rewrite (T1 eq_refl) in E1. exists (p1 ++ p2), t2. split; [|split].
      * rewrite E1, E2, <- !app_assoc. reflexivity.
      * apply Forall2_app; assumption.
      * exact T2.
    + exists p1, (t1 ++ p2 ++ t2). rewrite app_nil_r. split; [|split].
      * rewrite E1, E2, <- !app_assoc. reflexivity.
      * exact F1.
      * discriminate.
  - exact IHMatches.
  - exists [], []. auto.
Qed.

(** No match anywhere when a class of the prefix has no member in the rest. *)
Lemma search_absent r i c aft : forall bef,
  nth_error (prefixOf r) i = Some c ->
  (forall a, In a aft -> c a = false) ->
  search r bef aft = None.
Proof.
  intros bef Hi Hc. apply search_nowhere. intros bef' aft' y _ [q ->] M.
  apply Matches_prefix in M. destruct M as (p & t & E & F & _). simpl in E.
  assert (exists a, nth_error p i = Some a /\ c a = true) as (a & Ha & Ca).
  { clear E. revert i Hi. induction F as [|c0 a0 cs p Hca F IH]; intros i Hi.
    - destruct i; discriminate.
    - destruct i as [|i]; simpl in *.
      + injection Hi as ->. eauto.
      + apply IH, Hi. }
  apply nth_error_In in Ha. rewrite (Hc a) in Ca; [discriminate|].
  rewrite E, !in_app_iff. auto.
Qed.

(** ** The loop *)

Lemma whileExec_S (A : Type) fuel r bef aft (body : jsstring -> A -> A) acc :
  whileExec (S fuel) r bef aft body acc
  = match search r bef aft with
    | None => Some acc
    | Some y => whileExec fuel r (before y) (after y) body (body (capture1 y) acc)
    end.
Proof. reflexivity. Qed.

Lemma whileExec_skip (A : Type) fuel r bef bef' aft aft' (body : jsstring -> A -> A) acc :
  search r bef aft = search r bef' aft' ->
  whileExec (S fuel) r bef aft body acc = whileExec (S fuel) r bef' aft' body acc.
Proof. intros E. rewrite !whileExec_S, E. reflexivity. Qed.

Lemma whileExec_total (A : Type) r (body : jsstring -> A -> A) :
  1 <= minLen r ->
  forall fuel bef aft acc, length aft < fuel ->
  exists res, whileExec fuel r bef aft body acc = Some res.
Proof.
  intros P. induction fuel as [|fuel IH]; intros bef aft acc L; [lia|].
  simpl. destruct (search r bef aft) as [y|] eqn:E; [|eauto].
  apply IH. pose proof (search_progress _ _ _ _ P E). lia.
Qed.

Lemma whileExec_push r : forall fuel bef aft l0,
  whileExec fuel r bef aft push l0
  = option_map (app l0) (whileExec fuel r bef aft push []).
Proof.
  induction fuel as [|fuel IH]; intros bef aft l0; simpl; [reflexivity|].
  destruct (search r bef aft) as [y|]; simpl; [|rewrite app_nil_r; reflexivity].
  rewrite (IH _ _ (push _ l0)), (IH _ _ (push _ [])).
  destruct (whileExec fuel r (before y) (after y) push []); simpl; [|reflexivity].
  unfold push. simpl. rewrite <- app_assoc. reflexivity.
Qed.

(** The loop folds its body over the captures of the successive matches. *)
Lemma whileExec_fold (A : Type) r (body : jsstring -> A -> A) :
  forall fuel bef aft acc,
  whileExec fuel r bef aft body acc
  = option_map (fun caps => fold_left (fun a c => body c a) caps acc)
      (whileExec fuel r bef aft push []).
Proof.
  induction fuel as [|fuel IH]; intros bef aft acc; simpl; [reflexivity|].
  destruct (search r bef aft) as [y|]; simpl; [|reflexivity].
  rewrite IH, (whileExec_push _ _ _ _ (push _ [])).
  destruct (whileExec fuel r (before y) (after y) push []); reflexivity.
Qed.

Lemma whileExec_captures c r :
  CapturesPlus c r ->
  forall fuel bef aft caps,
  whileExec fuel r bef aft push [] = Some caps ->
  Forall (fun s => s <> [] /\ forallb c s = true) caps.
Proof.
  intros CP. induction fuel as [|fuel IH]; intros bef aft caps H; simpl in H;
    [discriminate|].
  destruct (search r bef aft) as [y|] eqn:E; [|injection H as <-; constructor].
  rewrite whileExec_push in H.
  destruct (whileExec fuel r (before y) (after y) push []) as [caps'|] eqn:E';
    [|discriminate].
  injection H as <-. apply IH in E'.
  apply search_Some in E. destruct E as (bef' & aft' & My & _).
  destruct (CapturesPlus_Matches _ _ CP _ _ My) as (s & G & Hs).
  unfold push, capture1. rewrite G. simpl. constructor; assumption.
Qed.

End RegExpFacts.
Import RegExpFacts.


(** * The extractor *)

Module ExtractorFacts.

Lemma Set_has_In x s : Set_has x s = true <-> In x s.
Proof.
  unfold Set_has. rewrite existsb_exists. split.
  - intros (y & Hy & E). destruct (jsstring_eq_dec x y); [subst; exact Hy | discriminate].
  - intros H. exists x. split; [exact H|]. destruct (jsstring_eq_dec x x); congruence.
Qed.

Lemma In_Set_add x a s : In x (Set_add a s) <-> In x s \/ x = a.
Proof.
  unfold Set_add. destruct (Set_has a s) eqn:E.
  - apply Set_has_In in E. split; [auto | intros [H | ->]; assumption].
  - rewrite in_app_iff. simpl. intuition congruence.
Qed.

Lemma NoDup_Set_add a s : NoDup s -> NoDup (Set_add a s).
Proof.
  intros H. unfold Set_add. destruct (Set_has a s) eqn:E; [exact H|].
  assert (~ In a s) as Ha by (rewrite <- Set_has_In; congruence).
  clear E. induction H as [|b s Hb H IH]; simpl.
  - constructor; [tauto | constructor].
  - simpl in Ha. constructor.
    + rewrite in_app_iff. simpl. intuition congruence.
    + apply IH. tauto.
Qed.

Lemma Forall_Set_add (P : jsstring -> Prop) a s :
  P a -> Forall P s -> Forall P (Set_add a s).
Proof.
  intros Ha H. unfold Set_add. destruct (Set_has a s); [exact H|].
  apply Forall_app. auto.
Qed.

Lemma Set_add_absent a s : ~ In a s -> Set_add a s = s ++ [a].
Proof.
  intros H. unfold Set_add. destruct (Set_has a s) eqn:E; [|reflexivity].
  apply Set_has_In in E. contradiction.
Qed.

Lemma Set_add_present a s : In a s -> Set_add a s = s.
Proof.
  intros H. unfold Set_add. apply Set_has_In in H. rewrite H. reflexivity.
Qed.

Lemma In_addAll caps : forall s x, In x (addAll caps s) <-> In x s \/ In x caps.
Proof.
  induction caps as [|c caps IH]; intros s x; simpl; [tauto|].
  unfold addAll in *. simpl. rewrite IH, In_Set_add. intuition congruence.
Qed.

Lemma NoDup_addAll caps : forall s, NoDup s -> NoDup (addAll caps s).
Proof.
  induction caps as [|c caps IH]; intros s H; [exact H|].
  apply IH, NoDup_Set_add, H.
Qed.

Lemma Forall_addAll (P : jsstring -> Prop) caps :
  Forall P caps -> forall s, Forall P s -> Forall P (addAll caps s).
Proof.
  induction 1 as [|c caps Hc H IH]; intros s Hs; [exact Hs|].
  apply IH, Forall_Set_add; assumption.
Qed.

(** ** The patterns of the loops *)

Lemma wowheadUrlPattern_digits : CapturesPlus digit wowheadUrlPattern.
Proof. captures. Qed.

Lemma numberPattern_digits : CapturesPlus digit numberPattern.
Proof. captures. Qed.

Lemma itemFormatPattern_digits : CapturesPlus digit itemFormatPattern.
Proof. captures. Qed.

Lemma tsmFormatPattern_digits : CapturesPlus digit tsmFormatPattern.
Proof. captures. Qed.

Lemma hrefPattern_digits : CapturesPlus digit hrefPattern.
Proof. captures. Qed.

Lemma isDigits_Plus s : s <> [] /\ forallb digit s = true -> isItemId s.
Proof. intros [N F]. unfold isItemId, isDigits. destruct s; [congruence | exact F]. Qed.

(** Each scan returns, and adds the captures of its pattern to the set. *)
Lemma scan_captures r text acc :
  1 <= minLen r -> scan r text acc = Some (addAll (captures r text) acc).
Proof.
  intros P. unfold scan, captures. rewrite whileExec_fold.
  destruct (whileExec_total _ r push P (S (length text)) [] text []) as [caps ->];
    [lia | reflexivity].
Qed.

Lemma captures_digits r text :
  CapturesPlus digit r -> Forall isItemId (captures r text).
Proof.
  intros CP. unfold captures.
  destruct (whileExec _ r [] text push []) as [caps|] eqn:E; [|constructor].
  apply (whileExec_captures _ _ CP) in E.
  eapply Forall_impl; [|exact E]. intros s. apply isDigits_Plus.
Qed.

Lemma addHref_digits hrefs : forall s,
  Forall isItemId s -> Forall isItemId (fold_left addHref hrefs s).
Proof.
  induction hrefs as [|h hrefs IH]; intros s H; [exact H|].
  simpl. apply IH. unfold addHref. destruct h as [|c h]; [exact H|].
  unfold exec. destruct (search hrefPattern [] (c :: h)) as [y|] eqn:E; [|exact H].
  apply Forall_Set_add; [|exact H].
  apply search_Some in E. destruct E as (bef' & aft' & My & _).
  destruct (CapturesPlus_Matches _ _ hrefPattern_digits _ _ My) as (s' & G & Hs).
  unfold capture1. rewrite G. apply isDigits_Plus, Hs.
Qed.

Lemma addHref_NoDup hrefs : forall s, NoDup s -> NoDup (fold_left addHref hrefs s).
Proof.
  induction hrefs as [|h hrefs IH]; intros s H; [exact H|].
  simpl. apply IH. unfold addHref. destruct h as [|c h]; [exact H|].
  destruct (exec hrefPattern (c :: h)); [apply NoDup_Set_add|]; exact H.
Qed.

Lemma hrefIds_digits p text : Forall isItemId (hrefIds p text).
Proof.
  unfold hrefIds. destruct (test isHTMLPattern text); [|constructor].
  destruct (p text); [apply addHref_digits|]; constructor.
Qed.

Lemma hrefIds_NoDup p text : NoDup (hrefIds p text).
Proof.
  unfold hrefIds. destruct (test isHTMLPattern text); [|constructor].
  destruct (p text); [apply addHref_NoDup|]; constructor.
Qed.

(** [extractItemIds] always returns: the links of the markup, then the four
    scans, the bare numbers only without markup. *)
Lemma extractItemIds_eq p text :
  extractItemIds p text
  = Some (addAll (captures tsmFormatPattern text)
           (addAll (captures itemFormatPattern text)
             (addAll (if test isHTMLPattern text then [] else captures numberPattern text)
               (addAll (captures wowheadUrlPattern text) (hrefIds p text))))).
Proof.
  unfold extractItemIds, hrefIds.
  rewrite scan_captures by (cbn; lia). simpl.
  destruct (test isHTMLPattern text); simpl;
    [|rewrite scan_captures by (cbn; lia); simpl];
    rewrite scan_captures by (cbn; lia); simpl;
    rewrite scan_captures by (cbn; lia); reflexivity.
Qed.

End ExtractorFacts.
Import ExtractorFacts.

Lemma isItemId_spec s :
  isItemId s <-> s <> [] /\ forall c, In c s -> (48 <= c <= 57)%N.
Proof.
  unfold isItemId, isDigits. destruct s as [|a s].
  - split; [discriminate | intros [H _]; congruence].
  - rewrite forallb_forall. unfold digit. split.
    + intros H. split; [discriminate|]. intros c Hc. apply H in Hc.
      apply andb_true_iff in Hc. destruct Hc as [L U].
      apply N.leb_le in L, U. lia.
    + intros [_ H] c Hc. apply H in Hc. apply andb_true_iff.
      split; apply N.leb_le; lia.
Qed.

Lemma extractItemIds_In p text id :
  In id (addAll (captures tsmFormatPattern text)
          (addAll (captures itemFormatPattern text)
            (addAll (if test isHTMLPattern text then [] else captures numberPattern text)
              (addAll (captures wowheadUrlPattern text) (hrefIds p text)))))
  <-> In id (hrefIds p text)
      \/ In id (captures wowheadUrlPattern text)
      \/ (test isHTMLPattern text = false /\ In id (captures numberPattern text))
      \/ In id (captures itemFormatPattern text)
      \/ In id (captures tsmFormatPattern text).
Proof.
  rewrite !In_addAll. destruct (test isHTMLPattern text); simpl; intuition congruence.
Qed.

Lemma extractItemIds_wellformed p text :
  exists ids,
    extractItemIds p text = Some ids /\ Forall isItemId ids /\ NoDup ids.
Proof.
  eexists. split; [apply extractItemIds_eq|]. split.
  - repeat apply Forall_addAll;
      try (apply captures_digits; first
             [ apply tsmFormatPattern_digits | apply itemFormatPattern_digits
             | apply numberPattern_digits | apply wowheadUrlPattern_digits ]).
    + destruct (test isHTMLPattern text);
        [constructor | apply captures_digits, numberPattern_digits].
    + apply hrefIds_digits.
  - repeat apply NoDup_addAll. apply hrefIds_NoDup.
Qed.

(** C4. Digits-only invariant: whatever the text and whatever the markup
    parser returns, [extractItemIds] returns a set whose elements are
    non-empty runs of the decimal digits 0 to 9, without duplicates. *)
Theorem extractItemIds_digits_only
    (parseAnchors : jsstring -> completion (list jsstring)) (text : jsstring) :
  exists ids,
    extractItemIds parseAnchors text = Some ids
    /\ Forall (fun id => id <> [] /\ forall c, In c id -> (48 <= c <= 57)%N) ids
    /\ NoDup ids.
Proof.
  destruct (extractItemIds_wellformed parseAnchors text) as (ids & E & D & ND).
  exists ids. split; [exact E|]. split; [|exact ND].
  eapply Forall_impl; [|exact D]. intros id H. apply isItemId_spec. exact H.
Qed.

(** The markup heuristic fires exactly on a text with a tag-like substring:
    an opening angle bracket, a letter, and a closing angle bracket further on. *)
Lemma isHTML_tag_like text :
  test isHTMLPattern text = true <->
  exists pre c mid post,
    text = pre ++ 60%N :: c :: mid ++ 62%N :: post /\ letter c = true.
Proof.
  unfold test, exec. split.
  - destruct (search isHTMLPattern [] text) as [y|] eqn:E; [intros _ | discriminate].
    apply search_Some_at in E. destruct E as (pre & aft' & -> & M).
    unfold isHTMLPattern in M.
    inversion M as [| | | | | |? ? ? y1 ? M1 M2| |]; subst.
    inversion M2 as [| | | | | |? ? ? y2 ? M3 M4| |]; subst.
    inversion M4 as [| | | | | |? ? ? y3 ? M5 M6| |]; subst.
    inversion M1; subst. inversion M3; subst. inversion M5; subst. inversion M6; subst.
    repeat match goal with E : only _ _ = true |- _ =>
      unfold only in E; apply N.eqb_eq in E; subst end.
    eexists pre, _, _, _. split; [reflexivity | assumption].
  - intros (pre & c & mid & post & -> & Hc).
    destruct (search isHTMLPattern [] (pre ++ 60%N :: c :: mid ++ 62%N :: post)) eqn:E;
      [reflexivity|].
    exfalso. revert E. eapply search_complete. unfold isHTMLPattern.
    eapply MCat; [apply MChr; reflexivity|].
    eapply MCat; [apply MChr; exact Hc|].
    eapply MCat; [apply (MStar any mid); apply forallb_forall; reflexivity|].
    apply MChr. reflexivity.
Qed.

(** C1. Markup-heuristic gating: on the anchor example, with the parser
    reporting its one link, the result is exactly 123 although the number
    scan alone would find 456; on the plain list the result is 123 and 456;
    and in general an ID is in the result exactly when the links of the
    markup, the URL scan, the item: scan or the i: scan produce it, or the
    bare-number scan produces it and the heuristic did not fire, which it
    does exactly on a text with a tag-like substring. *)
Theorem extractItemIds_markup_gating :
  (forall parseAnchors,
      parseAnchors (js "<a href='/item=123'>Sword</a> 456") = Normal [js "/item=123"] ->
      extractItemIds parseAnchors (js "<a href='/item=123'>Sword</a> 456")
      = Some [js "123"])
  /\ In (js "456") (captures numberPattern (js "<a href='/item=123'>Sword</a> 456"))
  /\ (forall parseAnchors,
        extractItemIds parseAnchors (js "123, 456") = Some [js "123"; js "456"])
  /\ (forall parseAnchors text,
        exists ids,
          extractItemIds parseAnchors text = Some ids
          /\ forall id,
               In id ids <->
               In id (hrefIds parseAnchors text)
               \/ In id (captures wowheadUrlPattern text)
               \/ (test isHTMLPattern text = false
                   /\ In id (captures numberPattern text))
               \/ In id (captures itemFormatPattern text)
               \/ In id (captures tsmFormatPattern text))
  /\ (forall text,
        test isHTMLPattern text = true <->
        exists pre c mid post,
          text = pre ++ ch "<" :: c :: mid ++ ch ">" :: post /\ letter c = true).
Proof.
  split; [|split; [|split; [|split; [|exact isHTML_tag_like]]]].
  - intros p H. rewrite extractItemIds_eq. unfold hrefIds. rewrite H.
    vm_compute. reflexivity.
  - vm_compute. tauto.
  - intros p. rewrite extractItemIds_eq. unfold hrefIds.
    replace (test isHTMLPattern (js "123, 456")) with false by (vm_compute; reflexivity).
    vm_compute. reflexivity.
  - intros p text. eexists. split; [apply extractItemIds_eq|].
    intros id. apply extractItemIds_In.
Qed.

Lemma extractItemIds_markup_gating_witness :
  extractItemIds (fun _ => Normal [js "/item=123"])
    (js "<a href='/item=123'>Sword</a> 456") = Some [js "123"].
Proof.
  apply (proj1 extractItemIds_markup_gating (fun _ => Normal [js "/item=123"])).
  reflexivity.
Defined.

(** C6. Totality and graceful degradation: [extractItemIds] returns on every
    text; when the markup-parsing step throws, it contributes nothing and
    the result is what the pattern scans over the raw text add to the empty
    set (the bare-number scan counting only for text without markup). *)
Theorem extractItemIds_total_and_degrades
    (parseAnchors : jsstring -> completion (list jsstring)) (text : jsstring) :
  (exists ids, extractItemIds parseAnchors text = Some ids)
  /\ ((exists e, parseAnchors text = Throw e) ->
      hrefIds parseAnchors text = []
      /\ extractItemIds parseAnchors text
         = Some (addAll (captures tsmFormatPattern text)
                  (addAll (captures itemFormatPattern text)
                    (addAll (if test isHTMLPattern text then []
                             else captures numberPattern text)
                      (addAll (captures wowheadUrlPattern text) []))))
      /\ forall ids id,
           extractItemIds parseAnchors text = Some ids ->
           (In id ids <->
            In id (captures wowheadUrlPattern text)
            \/ (test isHTMLPattern text = false /\ In id (captures numberPattern text))
            \/ In id (captures itemFormatPattern text)
            \/ In id (captures tsmFormatPattern text))).
Proof.
  split; [eexists; apply extractItemIds_eq|].
  intros [e He].
  assert (hrefIds parseAnchors text = []) as Hh.
  { unfold hrefIds. rewrite He. destruct (test isHTMLPattern text); reflexivity. }
  split; [exact Hh|]. split.
  - rewrite extractItemIds_eq, Hh. reflexivity.
  - intros ids id H. rewrite extractItemIds_eq in H. injection H as <-.
    rewrite extractItemIds_In, Hh. simpl. tauto.
Qed.

Lemma extractItemIds_total_and_degrades_witness :
  extractItemIds (fun _ => Throw (TypeError "DOMParser is not defined"))
    (js "<b>item:5 wowhead.com/item=7 8</b>")
  = Some [js "7"; js "5"].
Proof.
  destruct (extractItemIds_total_and_degrades
              (fun _ => Throw (TypeError "DOMParser is not defined"))
              (js "<b>item:5 wowhead.com/item=7 8</b>")) as [_ H].
  destruct H as (_ & H & _); [eexists; reflexivity|].
  rewrite H. vm_compute. reflexivity.
Defined.

(** C7. Multi-pattern union: a text with the three references yields exactly
    111, 222 and 333, with or without the bare-number scan and whether or
    not the references are set apart; and on every text each capture of the
    URL scan, of the item: scan and of the i: scan is in the one result set. *)
Theorem extractItemIds_multi_pattern_union :
  (forall parseAnchors,
      extractItemIds parseAnchors (js "https://wowhead.com/item=111 item:222 i:333")
      = Some [js "111"; js "222"; js "333"])
  /\ extractItemIds noAnchors (js "<p>https://wowhead.com/item=111, item:222, i:333</p>")
     = Some [js "111"; js "222"; js "333"]
  /\ (forall parseAnchors,
        exists ids,
          extractItemIds parseAnchors (js "https://wowhead.com/item=111item:222i:333")
          = Some ids
          /\ Permutation ids [js "111"; js "222"; js "333"])
  /\ (forall parseAnchors text,
        exists ids,
          extractItemIds parseAnchors text = Some ids
          /\ NoDup ids
          /\ forall id,
               In id (captures wowheadUrlPattern text)
               \/ In id (captures itemFormatPattern text)
               \/ In id (captures tsmFormatPattern text) ->
               In id ids).
Proof.
  split; [|split; [|split]].
  - intros p. rewrite extractItemIds_eq. unfold hrefIds.
    replace (test isHTMLPattern (js "https://wowhead.com/item=111 item:222 i:333"))
      with false by (vm_compute; reflexivity).
    vm_compute. reflexivity.
  - vm_compute. reflexivity.
  - intros p. eexists. split.
    + rewrite extractItemIds_eq. unfold hrefIds.
      replace (test isHTMLPattern (js "https://wowhead.com/item=111item:222i:333"))
        with false by (vm_compute; reflexivity).
      vm_compute. reflexivity.
    + apply perm_skip, perm_swap.
  - intros p text. eexists. split; [apply extractItemIds_eq|]. split.
    + repeat apply NoDup_addAll. apply hrefIds_NoDup.
    + intros id H. apply extractItemIds_In. tauto.
Qed.

(** * Bracketed names *)

Module NameFacts.

Lemma star_max c ds : forall bef aft k z,
  forallb c ds = true ->
  k (rev ds ++ bef) aft = Some z ->
  match aft with [] => True | a :: _ => c a = false end ->
  star c bef (ds ++ aft) k = Some z.
Proof.
  induction ds as [|d ds IH]; intros bef aft k z Hds Hk Stop; simpl in *.
  - destruct aft as [|a aft]; simpl; [exact Hk|]. rewrite Stop. exact Hk.
  - apply andb_true_iff in Hds. destruct Hds as [Hd Hds]. rewrite Hd.
    rewrite (IH (d :: bef) aft k z Hds); [reflexivity| |exact Stop].
    rewrite <- app_assoc in Hk. exact Hk.
Qed.

Lemma itemNamePattern_captures : CapturesPlus (except 93) itemNamePattern.
Proof. captures. Qed.

Lemma extractItemNames_eq text :
  extractItemNames text = Some (captures itemNamePattern text).
Proof.
  unfold extractItemNames, captures.
  destruct (whileExec_total _ itemNamePattern push ltac:(cbn; lia)
              (S (length text)) [] text []) as [caps E]; [lia|].
  unfold push in *. rewrite E. reflexivity.
Qed.

Lemma name_matchAt_nil bef : matchAt itemNamePattern bef [] = None.
Proof. reflexivity. Qed.

Lemma name_matchAt_other bef a aft :
  a <> 91%N -> matchAt itemNamePattern bef (a :: aft) = None.
Proof.
  intros H. unfold matchAt, itemNamePattern. simpl.
  unfold only at 1. change (ch "[") with 91%N.
  destruct (N.eqb_spec a 91); [contradiction | reflexivity].
Qed.

Lemma name_matchAt_empty bef rest :
  matchAt itemNamePattern bef (91%N :: 93%N :: rest) = None.
Proof. reflexivity. Qed.

Lemma name_matchAt_pair bef inner rest :
  inner <> [] -> forallb (except 93) inner = true ->
  exists bef',
    matchAt itemNamePattern bef (91%N :: inner ++ 93%N :: rest)
    = Some (State bef' rest (Some inner)).
Proof.
  intros Hne Hin. destruct inner as [|i0 inner]; [congruence|].
  simpl in Hin. apply andb_true_iff in Hin. destruct Hin as [H0 Hin].
  unfold matchAt, itemNamePattern, Plus. change (ch "[") with 91%N.
  change (ch "]") with 93%N. simpl. rewrite H0.
  eexists. apply star_max; [exact Hin | | reflexivity].
  simpl.
  match goal with |- context [between ?x ?y] =>
    replace (between x y) with (i0 :: inner)
      by (symmetry; apply (between_app _ _ (i0 :: inner)))
  end.
  reflexivity.
Qed.

Lemma name_Matches_closing x y : Matches itemNamePattern x y -> In 93%N (after x).
Proof.
  unfold itemNamePattern. change (ch "]") with 93%N. intros M.
  inversion M as [| | | | | |r1 r2 x0 y1 z0 M1 M2| |]; subst.
  inversion M2 as [| | | | | |r1 r2 x0 y2 z0 M3 M4| |]; subst.
  apply Matches_consumes in M1, M3.
  destruct M1 as (s1 & E1 & _), M3 as (s3 & E3 & _).
  inversion M4; subst. simpl in E3.
  match goal with E : only 93 ?a = true |- _ =>
    unfold only in E; apply N.eqb_eq in E; subst a end.
  rewrite E1, E3, !in_app_iff. simpl. auto.
Qed.

Lemma name_search_unclosed aft : forall bef,
  ~ In 93%N aft -> search itemNamePattern bef aft = None.
Proof.
  intros bef H. apply search_nowhere. intros bef' aft' y _ [p ->] M.
  apply name_Matches_closing in M. simpl in M. apply H, in_app_iff. auto.
Qed.

Lemma until_closing s :
  ~ In 93%N s
  \/ exists inner rest, s = inner ++ 93%N :: rest /\ forallb (except 93) inner = true.
Proof.
  induction s as [|a s IH]; [left; simpl; tauto|].
  destruct (N.eqb_spec a 93) as [->|Ha].
  - right. exists [], s. auto.
  - destruct IH as [IH | (inner & rest & -> & Hin)].
    + left. simpl. tauto.
    + right. exists (a :: inner), rest. simpl. unfold except at 1.
      destruct (N.eqb_spec a 93); [contradiction|]. auto.
Qed.

Lemma except_not_In inner : forallb (except 93) inner = true -> ~ In 93%N inner.
Proof.
  rewrite forallb_forall. intros H Hin. apply H in Hin. discriminate.
Qed.

Lemma bracketScan_inside inner : forall acc rest,
  ~ In 93%N inner ->
  bracketScan (Some acc) (inner ++ 93%N :: rest) = (acc ++ inner) :: bracketScan None rest.
Proof.
  induction inner as [|c inner IH]; intros acc rest H; simpl.
  - rewrite app_nil_r. reflexivity.
  - simpl in H. destruct (N.eqb_spec c 93); [subst; tauto|].
    rewrite IH by tauto. rewrite <- app_assoc. reflexivity.
Qed.

Lemma bracketScan_unclosed s : forall acc,
  ~ In 93%N s -> bracketScan (Some acc) s = [].
Proof.
  induction s as [|c s IH]; intros acc H; simpl; [reflexivity|].
  simpl in H. destruct (N.eqb_spec c 93); [subst; tauto|]. apply IH. tauto.
Qed.

(** The loop of [extractItemNames] against the scan of the specification. *)
Lemma names_refine n : forall aft, length aft < n ->
  forall bef fuel acc, length aft < fuel ->
  whileExec fuel itemNamePattern bef aft push acc
  = Some (acc ++ filter nonEmpty (bracketScan None aft)).
Proof.
  induction n as [|n IH]; intros aft Ln bef fuel acc Lf; [lia|].
  destruct fuel as [|fuel]; [lia|].
  destruct aft as [|a s].
  - simpl. rewrite app_nil_r. reflexivity.
  - destruct (N.eqb_spec a 91) as [->|Ha].
    + destruct (until_closing s) as [Hs | (inner & rest & -> & Hin)].
      * rewrite whileExec_S, name_search_unclosed.
        -- simpl. rewrite bracketScan_unclosed by exact Hs. rewrite app_nil_r. reflexivity.
        -- simpl. intros [E | E]; [discriminate | contradiction].
      * destruct inner as [|i0 inner].
        -- rewrite (whileExec_skip _ _ _ bef (93%N :: 91%N :: bef) _ rest).
           ++ rewrite IH; [reflexivity | simpl in Ln; lia | simpl in Lf; lia].
           ++ simpl app. rewrite search_step by apply name_matchAt_empty.
              apply search_step, name_matchAt_other. discriminate.
        -- destruct (name_matchAt_pair bef (i0 :: inner) rest) as [bef' E];
             [discriminate | exact Hin |].
           rewrite whileExec_S, (search_found _ _ _ _ E). simpl before. simpl after.
           rewrite IH.
           ++ change (bracketScan None (91%N :: (i0 :: inner) ++ 93%N :: rest))
                with (bracketScan (Some []) ((i0 :: inner) ++ 93%N :: rest)).
              rewrite bracketScan_inside by (apply except_not_In; exact Hin).
              unfold push, capture1. simpl. rewrite <- app_assoc. reflexivity.
           ++ simpl in Ln. rewrite length_app in Ln. simpl in Ln. lia.
           ++ simpl in Lf. rewrite length_app in Lf. simpl in Lf. lia.
    + rewrite (whileExec_skip _ _ _ bef (a :: bef) _ s)
        by (apply search_step, name_matchAt_other; exact Ha).
      rewrite IH; [|simpl in Ln; lia | simpl in Lf; lia].
      simpl. destruct (N.eqb_spec a 91); [contradiction | reflexivity].
Qed.

End NameFacts.
Import NameFacts.

(** C8 (amended). Name extraction: on every text [extractItemNames] returns
    the inner texts of the bracket-delimited substrings, each running from an
    opening bracket to the next closing bracket, that are not empty, in order
    of appearance and with duplicates kept. *)
Theorem extractItemNames_bracket_texts :
  (forall text, extractItemNames text = Some (filter nonEmpty (bracketTexts text)))
  /\ extractItemNames (js "[Thunderfury] and [Ashbringer], again [Thunderfury]")
     = Some [js "Thunderfury"; js "Ashbringer"; js "Thunderfury"].
Proof.
  split; [|vm_compute; reflexivity].
  intros text. unfold extractItemNames, bracketTexts.
  apply (names_refine (S (length text)) text ltac:(lia) [] (S (length text)) []).
  lia.
Qed.

(** C8, as stated, fails on an empty bracket pair: its inner text, the empty
    string, is not returned. *)
Lemma extractItemNames_empty_pair_counterexample :
  bracketTexts (js "[]") = [[]]
  /\ extractItemNames (js "[]") = Some []
  /\ extractItemNames (js "[]") <> Some (bracketTexts (js "[]")).
Proof.
  split; [reflexivity|]. split; [reflexivity|].
  vm_compute. discriminate.
Qed.

(** C10. No empty name: every name [extractItemNames] returns is non-empty
    and has no closing bracket in it, and an empty bracket pair contributes
    nothing. *)
Theorem extractItemNames_no_empty_name :
  (forall text,
      exists names,
        extractItemNames text = Some names
        /\ Forall (fun itemName => itemName <> [] /\ ~ In (ch "]") itemName) names)
  /\ extractItemNames (js "[]") = Some []
  /\ extractItemNames (js "a [] b [c]") = Some [js "c"].
Proof.
  split; [|split; vm_compute; reflexivity].
  change (ch "]") with 93%N.
  intros text. eexists. split; [apply extractItemNames_eq|].
  unfold captures.
  destruct (whileExec _ itemNamePattern [] text push []) as [caps|] eqn:E; [|constructor].
  apply (whileExec_captures _ _ itemNamePattern_captures) in E.
  eapply Forall_impl; [|exact E]. intros s [Hne Hs]. split; [exact Hne|].
  apply except_not_In, Hs.
Qed.

(** * Rendering and reading back *)

Module RenderFacts.

Lemma rendered_cases a :
  rendered a = true -> (48 <= a <= 57)%N \/ a = 105%N \/ a = 58%N \/ a = 44%N.
Proof.
  unfold rendered, digit. rewrite !orb_true_iff, andb_true_iff, !N.eqb_eq, !N.leb_le.
  intuition lia.
Qed.

Lemma no_match_captures r text :
  search r [] text = None -> captures r text = [].
Proof. intros H. unfold captures. rewrite whileExec_S, H. reflexivity. Qed.

Lemma rendered_not_lt a : rendered a = true -> only 60 a = false.
Proof.
  intros H. apply rendered_cases in H. unfold only. apply N.eqb_neq. lia.
Qed.

Lemma rendered_not_w a : rendered a = true -> only_i 119 a = false.
Proof.
  intros H. apply rendered_cases in H. unfold only_i, canonicalize.
  change (lower 119%N) with true. cbv iota. unfold lower.
  destruct (N.leb_spec 97 a), (N.leb_spec a 122); simpl; apply N.eqb_neq; lia.
Qed.

Lemma rendered_not_t a : rendered a = true -> only_i 116 a = false.
Proof.
  intros H. apply rendered_cases in H. unfold only_i, canonicalize.
  change (lower 116%N) with true. cbv iota. unfold lower.
  destruct (N.leb_spec 97 a), (N.leb_spec a 122); simpl; apply N.eqb_neq; lia.
Qed.

Lemma tsmFormat_cons id ids :
  tsmFormat (id :: ids) = 105%N :: 58%N :: id ++ tokensAfter ids.
Proof.
  unfold tsmFormat. revert id. induction ids as [|id' ids IH]; intros id.
  - simpl. rewrite app_nil_r. reflexivity.
  - change (join (js ",") (map (fun id0 => js "i:" ++ id0) (id :: id' :: ids)))
      with ((js "i:" ++ id) ++ js "," ++ join (js ",") (map (fun id0 => js "i:" ++ id0) (id' :: ids))).
    rewrite IH. simpl. reflexivity.
Qed.

Lemma digits_rendered id :
  isItemId id -> Forall (fun c => rendered c = true) id.
Proof.
  unfold isItemId, isDigits. destruct id as [|c id]; [discriminate|].
  intros H. apply Forall_forall. intros a Ha.
  rewrite forallb_forall in H. unfold rendered. rewrite (H a Ha). reflexivity.
Qed.

Lemma tokensAfter_rendered ids :
  Forall isItemId ids -> Forall (fun c => rendered c = true) (tokensAfter ids).
Proof.
  induction 1 as [|id ids Hid H IH]; simpl; [constructor|].
  repeat (constructor; [reflexivity|]). apply Forall_app. split; [|exact IH].
  apply digits_rendered, Hid.
Qed.

Lemma tsmFormat_rendered ids :
  Forall isItemId ids -> forall a, In a (tsmFormat ids) -> rendered a = true.
Proof.
  intros H. apply Forall_forall. destruct ids as [|id ids]; [constructor|].
  rewrite tsmFormat_cons. inversion H; subst.
  repeat (constructor; [reflexivity|]). apply Forall_app.
  split; [apply digits_rendered | apply tokensAfter_rendered]; assumption.
Qed.

Lemma tokensAfter_stops ids :
  match tokensAfter ids with [] => True | a :: _ => word a = false end.
Proof. destruct ids; simpl; [exact I | reflexivity]. Qed.

Lemma digit_word a : digit a = true -> word a = true.
Proof. intros H. unfold word. rewrite H. reflexivity. Qed.

Lemma not_word_not_digit a : word a = false -> digit a = false.
Proof. intros H. destruct (digit a) eqn:E; [apply digit_word in E; congruence | reflexivity]. Qed.

Lemma stops_digit rest :
  match rest with [] => True | a :: _ => word a = false end ->
  match rest with [] => True | a :: _ => digit a = false end.
Proof. destruct rest; [auto | apply not_word_not_digit]. Qed.

(** The i: pattern on one token. *)
Lemma tsm_token bef id rest :
  isItemId id ->
  match rest with [] => True | a :: _ => word a = false end ->
  exists bef',
    matchAt tsmFormatPattern bef (105%N :: 58%N :: id ++ rest)
    = Some (State bef' rest (Some id)).
Proof.
  unfold isItemId, isDigits. destruct id as [|d0 id]; [discriminate|].
  intros H Stop. simpl in H. apply andb_true_iff in H. destruct H as [H0 H].
  unfold matchAt, tsmFormatPattern, Plus. simpl. rewrite H0.
  eexists. apply star_max; [exact H | | apply stops_digit, Stop].
  match goal with |- context [between ?x ?y] =>
    replace (between x y) with (d0 :: id)
      by (symmetry; apply (between_app _ _ (d0 :: id)))
  end.
  reflexivity.
Qed.

Lemma isWordChar_after_digits id : forall bef,
  forallb digit id = true -> isWordChar bef = true -> isWordChar (rev id ++ bef) = true.
Proof.
  induction id as [|d id IH]; intros bef H Hb; [exact Hb|].
  simpl in H. apply andb_true_iff in H. destruct H as [Hd H].
  simpl. rewrite <- app_assoc. apply IH; [exact H|]. simpl. apply digit_word, Hd.
Qed.

(** The bare-number pattern on the digits of one token. *)
Lemma number_token bef id rest :
  isItemId id ->
  match rest with [] => True | a :: _ => word a = false end ->
  exists bef',
    matchAt numberPattern (58%N :: bef) (id ++ rest) = Some (State bef' rest (Some id)).
Proof.
  unfold isItemId, isDigits. destruct id as [|d0 id]; [discriminate|].
  intros H Stop. simpl in H. apply andb_true_iff in H. destruct H as [H0 H].
  unfold matchAt, numberPattern, Plus. simpl.
  unfold atBoundary at 1. simpl. rewrite (digit_word _ H0). simpl. rewrite H0.
  eexists. apply star_max; [exact H | | apply stops_digit, Stop].
  match goal with |- context [between ?x ?y] =>
    replace (between x y) with (d0 :: id)
      by (symmetry; apply (between_app _ _ (d0 :: id)))
  end.
  unfold atBoundary. simpl before. simpl after.
  rewrite isWordChar_after_digits; [|exact H | simpl; apply digit_word, H0].
  replace (isWordChar rest) with false; [reflexivity|].
  destruct rest; [reflexivity | simpl; symmetry; exact Stop].
Qed.

Lemma number_not_digit bef a aft :
  digit a = false -> matchAt numberPattern bef (a :: aft) = None.
Proof.
  intros H. unfold matchAt, numberPattern, Plus. simpl.
  destruct (atBoundary _); [|reflexivity]. rewrite H. reflexivity.
Qed.

Lemma number_nil bef : matchAt numberPattern bef [] = None.
Proof.
  unfold matchAt, numberPattern, Plus. simpl. destruct (atBoundary _); reflexivity.
Qed.

Lemma tsm_loop ids : forall bef fuel acc,
  Forall isItemId ids -> length (tokensAfter ids) < fuel ->
  whileExec fuel tsmFormatPattern bef (tokensAfter ids) push acc = Some (acc ++ ids).
Proof.
  induction ids as [|id ids IH]; intros bef fuel acc H L;
    (destruct fuel as [|fuel]; [lia|]).
  - simpl. rewrite app_nil_r. reflexivity.
  - inversion H as [|? ? Hid Hids]; subst. simpl tokensAfter in *.
    destruct (tsm_token (44%N :: bef) id (tokensAfter ids) Hid (tokensAfter_stops ids))
      as [bef' E].
    rewrite whileExec_S, search_step by reflexivity.
    rewrite (search_found _ _ _ _ E). simpl before. simpl after.
    rewrite IH; [|exact Hids|].
    + unfold push, capture1. simpl. rewrite <- app_assoc. reflexivity.
    + simpl in L. rewrite length_app in L. lia.
Qed.

Lemma number_loop ids : forall bef fuel acc,
  Forall isItemId ids -> length (tokensAfter ids) < fuel ->
  whileExec fuel numberPattern bef (tokensAfter ids) push acc = Some (acc ++ ids).
Proof.
  induction ids as [|id ids IH]; intros bef fuel acc H L;
    (destruct fuel as [|fuel]; [lia|]).
  - simpl tokensAfter. rewrite whileExec_S. simpl search. rewrite number_nil.
    rewrite app_nil_r. reflexivity.
  - inversion H as [|? ? Hid Hids]; subst. simpl tokensAfter in *.
    destruct (number_token (105%N :: 44%N :: bef) id (tokensAfter ids) Hid
                (tokensAfter_stops ids)) as [bef' E].
    rewrite whileExec_S.
    rewrite !search_step by (apply number_not_digit; reflexivity).
    rewrite (search_found _ _ _ _ E). simpl before. simpl after.
    rewrite IH; [|exact Hids|].
    + unfold push, capture1. simpl. rewrite <- app_assoc. reflexivity.
    + simpl in L. rewrite length_app in L. lia.
Qed.

Lemma tsm_captures_rendered ids :
  Forall isItemId ids -> captures tsmFormatPattern (tsmFormat ids) = ids.
Proof.
  intros H. destruct ids as [|id ids]; [reflexivity|].
  inversion H as [|? ? Hid Hids]; subst.
  unfold captures. rewrite tsmFormat_cons.
  destruct (tsm_token [] id (tokensAfter ids) Hid (tokensAfter_stops ids)) as [bef' E].
  rewrite whileExec_S, (search_found _ _ _ _ E). simpl before. simpl after.
  rewrite tsm_loop; [reflexivity | exact Hids|].
  simpl. rewrite length_app. lia.
Qed.

Lemma number_captures_rendered ids :
  Forall isItemId ids -> captures numberPattern (tsmFormat ids) = ids.
Proof.
  intros H. destruct ids as [|id ids]; [reflexivity|].
  inversion H as [|? ? Hid Hids]; subst.
  unfold captures. rewrite tsmFormat_cons.
  destruct (number_token [105%N] id (tokensAfter ids) Hid (tokensAfter_stops ids))
    as [bef' E].
  rewrite whileExec_S.
  rewrite !search_step by (apply number_not_digit; reflexivity).
  rewrite (search_found _ _ _ _ E). simpl before. simpl after.
  rewrite number_loop; [reflexivity | exact Hids|].
  simpl. rewrite length_app. lia.
Qed.

Lemma addAll_fresh caps : forall s, NoDup (s ++ caps) -> addAll caps s = s ++ caps.
Proof.
  induction caps as [|c caps IH]; intros s H; simpl; [rewrite app_nil_r; reflexivity|].
  unfold addAll in *. simpl. rewrite Set_add_absent.
  - rewrite IH; rewrite <- app_assoc; [reflexivity | exact H].
  - apply NoDup_remove_2 in H. rewrite in_app_iff in H. tauto.
Qed.

Lemma addAll_present caps : forall s, (forall c, In c caps -> In c s) -> addAll caps s = s.
Proof.
  induction caps as [|c caps IH]; intros s H; [reflexivity|].
  unfold addAll in *. simpl. rewrite Set_add_present by (apply H; simpl; auto).
  apply IH. intros; apply H; simpl; auto.
Qed.

(** Reading a rendered list back gives the list. *)
Lemma extractItemIds_rendered p ids :
  Forall isItemId ids -> NoDup ids -> extractItemIds p (tsmFormat ids) = Some ids.
Proof.
  intros H ND. rewrite extractItemIds_eq. unfold hrefIds.
  assert (test isHTMLPattern (tsmFormat ids) = false) as ->.
  { unfold test, exec.
    rewrite (search_absent isHTMLPattern 0 (only 60)); [reflexivity | reflexivity|].
    intros a Ha. apply rendered_not_lt, (tsmFormat_rendered _ H), Ha. }
  rewrite (no_match_captures wowheadUrlPattern).
  2:{ apply (search_absent wowheadUrlPattern 0 (only_i 119)); [reflexivity|].
      intros a Ha. apply rendered_not_w, (tsmFormat_rendered _ H), Ha. }
  rewrite (no_match_captures itemFormatPattern).
  2:{ apply (search_absent itemFormatPattern 1 (only_i 116)); [reflexivity|].
      intros a Ha. apply rendered_not_t, (tsmFormat_rendered _ H), Ha. }
  rewrite number_captures_rendered, tsm_captures_rendered by exact H.
  simpl. rewrite (addAll_fresh ids []) by exact ND. simpl.
  rewrite addAll_present; auto.
Qed.

End RenderFacts.
Import RenderFacts.

(** * Sorting *)

Module SortFacts.

Lemma roundToDouble_cases n :
  (exists v, roundToDouble n = Finite (inject_Z v) /\ (v < 2 ^ 1024)%Z)
  \/ roundToDouble n = Infinity false.
Proof.
  unfold roundToDouble. destruct (Z.ltb_spec n (2 ^ 53)).
  - left. exists n. split; [reflexivity|].
    apply Z.lt_trans with (2 ^ 53)%Z; [assumption|].
    apply Z.pow_lt_mono_r; lia.
  - match goal with |- context [(2 ^ 1024 <=? ?v)%Z] =>
      destruct (Z.leb_spec (2 ^ 1024) v) end; [right; reflexivity|].
    left. eexists. split; [reflexivity | assumption].
Qed.

Lemma roundToDouble_small n : (n < 2 ^ 53)%Z -> doubleOf n = n.
Proof.
  intros H. unfold doubleOf, roundToDouble.
  destruct (Z.ltb_spec n (2 ^ 53)); [reflexivity | lia].
Qed.

Lemma negative_minus_round a b :
  negative (minus (roundToDouble a) (roundToDouble b)) = (doubleOf a <? doubleOf b)%Z.
Proof.
  unfold doubleOf.
  destruct (roundToDouble_cases a) as [(v & -> & Hv) | ->];
    destruct (roundToDouble_cases b) as [(w & -> & Hw) | ->]; simpl.
  - unfold Qcompare. simpl. rewrite !Z.mul_1_r.
    destruct (Z.compare_spec (v + - w) 0), (Z.ltb_spec v w); try reflexivity; lia.
  - symmetry. apply Z.ltb_lt. exact Hv.
  - symmetry. apply Z.ltb_ge. lia.
  - symmetry. apply Z.ltb_irrefl.
Qed.

Lemma numberLe_round a b :
  numberLe (roundToDouble a) (roundToDouble b) <-> (doubleOf a <= doubleOf b)%Z.
Proof.
  unfold doubleOf.
  destruct (roundToDouble_cases a) as [(v & -> & Hv) | ->];
    destruct (roundToDouble_cases b) as [(w & -> & Hw) | ->]; simpl.
  - unfold Qle. simpl. lia.
  - split; [lia | reflexivity].
  - split; [tauto | lia].
  - split; [lia | reflexivity].
Qed.

Lemma filter_none (A : Type) (f : A -> bool) l :
  (forall z, In z l -> f z = false) -> filter f l = [].
Proof.
  induction l as [|a l IH]; intros H; simpl; [reflexivity|].
  rewrite (H a) by (simpl; auto). apply IH. intros; apply H; simpl; auto.
Qed.

Section WithOther.

Variable other : jsstring -> number.

Lemma Number_digits s : isItemId s -> Number other s = roundToDouble (decimalValue s).
Proof. unfold isItemId, Number. intros ->. reflexivity. Qed.

Lemma compareIds_rank a b :
  isItemId a -> isItemId b ->
  negative (compareIds other a b) = (rank a <? rank b)%Z.
Proof.
  intros Ha Hb. unfold compareIds. rewrite !Number_digits by assumption.
  apply negative_minus_round.
Qed.

Lemma insert_perm x l : Permutation (insert other x l) (x :: l).
Proof.
  induction l as [|y l IH]; simpl; [reflexivity|].
  destruct (negative (compareIds other x y)); [reflexivity|].
  rewrite IH. apply perm_swap.
Qed.

Lemma sort_acc_perm l : forall acc,
  Permutation (fold_left (fun sorted x => insert other x sorted) l acc) (acc ++ l).
Proof.
  induction l as [|x l IH]; intros acc; simpl; [rewrite app_nil_r; reflexivity|].
  rewrite IH, insert_perm. apply Permutation_middle.
Qed.

Lemma sort_perm l : Permutation (sort other l) l.
Proof. apply (sort_acc_perm l []). Qed.

Lemma insert_sorted x l :
  isItemId x -> Forall isItemId l ->
  StronglySorted (fun a b => (rank a <= rank b)%Z) l ->
  StronglySorted (fun a b => (rank a <= rank b)%Z) (insert other x l).
Proof.
  intros Hx Hl S. induction S as [|y l S IH Hy]; simpl.
  - repeat constructor.
  - inversion Hl as [|? ? Dy Dl]; subst.
    rewrite compareIds_rank by assumption.
    destruct (Z.ltb_spec (rank x) (rank y)) as [Lt | Ge].
    + constructor; [constructor; assumption|].
      constructor; [lia|]. eapply Forall_impl; [|exact Hy]. simpl. intros; lia.
    + constructor; [apply IH; exact Dl|].
      apply (Permutation_Forall (Permutation_sym (insert_perm x l))).
      constructor; assumption.
Qed.

Lemma sort_sorted l :
  Forall isItemId l -> StronglySorted (fun a b => (rank a <= rank b)%Z) (sort other l).
Proof.
  intros H. unfold sort.
  assert (forall acc, Forall isItemId acc ->
            StronglySorted (fun a b => (rank a <= rank b)%Z) acc ->
            StronglySorted (fun a b => (rank a <= rank b)%Z)
              (fold_left (fun sorted x => insert other x sorted) l acc)) as G.
  { induction H as [|x l Hx H IH]; intros acc Ha S; simpl; [exact S|].
    apply IH.
    - apply (Permutation_Forall (Permutation_sym (insert_perm x acc))).
      constructor; assumption.
    - apply insert_sorted; assumption. }
  apply G; constructor.
Qed.

Lemma insert_withDouble_other x l k :
  rank x <> k -> withDouble k (insert other x l) = withDouble k l.
Proof.
  intros H. unfold withDouble. induction l as [|y l IH]; simpl.
  - destruct (Z.eqb_spec (rank x) k); [contradiction | reflexivity].
  - destruct (negative (compareIds other x y)); simpl.
    + destruct (Z.eqb_spec (rank x) k); [contradiction | reflexivity].
    + rewrite IH. reflexivity.
Qed.

Lemma insert_withDouble_same x l :
  isItemId x -> Forall isItemId l ->
  StronglySorted (fun a b => (rank a <= rank b)%Z) l ->
  withDouble (rank x) (insert other x l) = withDouble (rank x) l ++ [x].
Proof.
  intros Hx Hl S. unfold withDouble. induction S as [|y l S IH Hy]; simpl.
  - rewrite Z.eqb_refl. reflexivity.
  - inversion Hl as [|? ? Dy Dl]; subst.
    rewrite compareIds_rank by assumption.
    destruct (Z.ltb_spec (rank x) (rank y)) as [Lt | Ge]; simpl.
    + rewrite Z.eqb_refl.
      destruct (Z.eqb_spec (rank y) (rank x)); [lia|].
      replace (filter (fun id => (rank id =? rank x)%Z) l) with (@nil jsstring);
        [reflexivity|].
      symmetry. apply filter_none. intros z Hz.
      rewrite Forall_forall in Hy. specialize (Hy z Hz).
      apply Z.eqb_neq. lia.
    + rewrite (IH Dl). destruct (rank y =? rank x)%Z; reflexivity.
Qed.

(** The sort is stable: IDs with the same double keep their order. *)
Lemma sort_stable l k :
  Forall isItemId l -> withDouble k (sort other l) = withDouble k l.
Proof.
  intros H. unfold sort.
  assert (forall acc, Forall isItemId acc ->
            StronglySorted (fun a b => (rank a <= rank b)%Z) acc ->
            withDouble k (fold_left (fun sorted x => insert other x sorted) l acc)
            = withDouble k acc ++ withDouble k l) as G.
  { induction H as [|x l Hx H IH]; intros acc Ha S; simpl.
    - unfold withDouble. simpl. rewrite app_nil_r. reflexivity.
    - rewrite IH.
      + unfold withDouble at 4. simpl. fold (withDouble k l).
        destruct (Z.eqb_spec (rank x) k) as [<- | Ne].
        * rewrite insert_withDouble_same by assumption.
          rewrite <- app_assoc. reflexivity.
        * rewrite insert_withDouble_other by assumption. reflexivity.
      + apply (Permutation_Forall (Permutation_sym (insert_perm x acc))).
        constructor; assumption.
      + apply insert_sorted; assumption. }
  apply (G []); constructor.
Qed.

End WithOther.

End SortFacts.
Import SortFacts.

(** * Claims on rendering *)

Lemma space_cases a :
  space a = true ->
  ((9 <= a <= 13) \/ a = 32 \/ a = 160 \/ a = 5760 \/ (8192 <= a <= 8202) \/ a = 8232
   \/ a = 8233 \/ a = 8239 \/ a = 8287 \/ a = 12288 \/ a = 65279)%N.
Proof.
  unfold space. rewrite !orb_true_iff, !andb_true_iff, !N.eqb_eq, !N.leb_le. tauto.
Qed.

Lemma rendered_not_space a : rendered a = true -> space a = false.
Proof.
  intros H. apply rendered_cases in H. destruct (space a) eqn:E; [|reflexivity].
  apply space_cases in E. lia.
Qed.

Lemma digits_last id :
  isItemId id -> exists front d, id = front ++ [d] /\ digit d = true.
Proof.
  unfold isItemId, isDigits. destruct id as [|c id]; [discriminate|]. intros H.
  destruct (exists_last (l := c :: id)) as (front & d & E); [discriminate|].
  exists front, d. split; [exact E|].
  rewrite forallb_forall in H. apply H. rewrite E, in_app_iff. simpl. auto.
Qed.

Lemma tokensAfter_last ids :
  ids <> [] -> Forall isItemId ids ->
  exists front d, tokensAfter ids = front ++ [d] /\ digit d = true.
Proof.
  induction ids as [|id ids IH]; intros Hne H; [congruence|].
  inversion H as [|? ? Hid Hids]; subst. simpl.
  destruct ids as [|id' ids].
  - destruct (digits_last id Hid) as (front & d & -> & Hd).
    exists (44%N :: 105%N :: 58%N :: front), d. simpl. rewrite app_nil_r. auto.
  - destruct IH as (front & d & E & Hd); [discriminate | exact Hids|].
    rewrite E. exists (44%N :: 105%N :: 58%N :: id ++ front), d.
    simpl. rewrite <- app_assoc. auto.
Qed.

Lemma tsmFormat_last ids :
  ids <> [] -> Forall isItemId ids ->
  exists front d, tsmFormat ids = front ++ [d] /\ digit d = true.
Proof.
  destruct ids as [|id ids]; intros Hne H; [congruence|].
  inversion H as [|? ? Hid Hids]; subst. rewrite tsmFormat_cons.
  destruct ids as [|id' ids].
  - destruct (digits_last id Hid) as (front & d & -> & Hd).
    exists (105%N :: 58%N :: front), d. simpl. rewrite app_nil_r. auto.
  - destruct (tokensAfter_last (id' :: ids)) as (front & d & E & Hd);
      [discriminate | exact Hids|].
    rewrite E. exists (105%N :: 58%N :: id ++ front), d.
    simpl. rewrite <- app_assoc. auto.
Qed.

(** With a non-empty set, [convertToTSM] writes the sorted rendering and the
    count, whether or not it gets as far as the message. *)
Lemma render_output T other ids failed found p :
  ids <> [] ->
  exists p',
    (render T other ids failed found p = Done p'
     \/ exists e, render T other ids failed found p = Rejected p' e)
    /\ output p' = tsmFormat (sort other ids)
    /\ itemCount p' = decimal (length ids)
    /\ uniqueCount p' = decimal (length ids).
Proof.
  intros Hne. unfold render.
  pose proof (sort_perm other ids) as P.
  rewrite <- (Permutation_length P).
  destruct (sort other ids) as [|id0 sortedIds] eqn:E.
  - apply Permutation_nil in P. contradiction.
  - cbn [length Nat.eqb andb].
    destruct (if 0 <? length found then foundItemsList T found else Normal [])
      as [list|e].
    + destruct (0 <? length failed); [|destruct (0 <? length found)];
        (eexists; split; [left; reflexivity|]); repeat split; reflexivity.
    + eexists. split; [right; eexists; reflexivity|]. repeat split; reflexivity.
Qed.

(** C2. Idempotence through the canonical format: on every text, reading
    back the rendering of the extracted set, sorted as [convertToTSM] sorts
    it or left in discovery order, gives exactly the IDs it was rendered
    from, so the same set as the first extraction. *)
Theorem extractItemIds_idempotent_through_format
    (parseAnchors parseAnchors' : jsstring -> completion (list jsstring))
    (other : jsstring -> number) (text : jsstring) :
  exists ids,
    extractItemIds parseAnchors text = Some ids
    /\ extractItemIds parseAnchors' (tsmFormat (sort other ids)) = Some (sort other ids)
    /\ extractItemIds parseAnchors' (tsmFormat ids) = Some ids
    /\ forall id, In id (sort other ids) <-> In id ids.
Proof.
  destruct (extractItemIds_wellformed parseAnchors text) as (ids & E & D & ND).
  exists ids. split; [exact E|].
  pose proof (sort_perm other ids) as P.
  split; [|split].
  - apply extractItemIds_rendered.
    + apply (Permutation_Forall (Permutation_sym P)), D.
    + apply (Permutation_NoDup (Permutation_sym P)), ND.
  - apply extractItemIds_rendered; assumption.
  - intros id. split; apply Permutation_in; [exact P | apply Permutation_sym, P].
Qed.

(** C3 (amended). Output shape and order: for a non-empty set of digit-run
    IDs the output is the comma-joined list of the tokens i:<digits> of the
    same IDs, in ascending order of [Number(id)], the IEEE double of the ID,
    which is ascending numeric order when every ID is below 2 ^ 53, IDs with
    the same double staying in discovery order; it
    contains no white space and ends with a digit, and it is what
    [convertToTSM] writes to the output.  The IDs found in "500, 3, 42"
    render as "i:3,i:42,i:500". *)
Theorem tsmFormat_shape_and_order :
  (forall (other : jsstring -> number) (ids : list jsstring),
      ids <> [] -> Forall isItemId ids ->
      let sortedIds := sort other ids in
      Permutation sortedIds ids
      /\ Forall isItemId sortedIds
      /\ tsmFormat sortedIds = join (js ",") (map (fun id => js "i:" ++ id) sortedIds)
      /\ StronglySorted (fun a b => numberLe (Number other a) (Number other b)) sortedIds
      /\ (Forall (fun id => (decimalValue id < 2 ^ 53)%Z) ids ->
          StronglySorted (fun a b => (decimalValue a <= decimalValue b)%Z) sortedIds)
      /\ (forall k, withDouble k sortedIds = withDouble k ids)
      /\ (forall c, In c (tsmFormat sortedIds) -> space c = false)
      /\ (exists front d, tsmFormat sortedIds = front ++ [d] /\ digit d = true)
      /\ forall ToString_other failed found p,
           exists p',
             (render ToString_other other ids failed found p = Done p'
              \/ exists e, render ToString_other other ids failed found p = Rejected p' e)
             /\ output p' = tsmFormat sortedIds)
  /\ (forall parseAnchors other,
        exists ids,
          extractItemIds parseAnchors (js "500, 3, 42") = Some ids
          /\ tsmFormat (sort other ids) = js "i:3,i:42,i:500").
Proof.
  split.
  - intros other ids Hne D sortedIds.
    pose proof (sort_perm other ids) as P. fold sortedIds in P.
    assert (Forall isItemId sortedIds) as Ds
      by (apply (Permutation_Forall (Permutation_sym P)), D).
    pose proof (sort_sorted other ids D) as S. fold sortedIds in S.
    split; [exact P|]. split; [exact Ds|]. split; [reflexivity|].
    split; [|split; [|split; [intros k; apply sort_stable, D|split]]].
    + clear P. induction S as [|a l S IH Ha]; constructor.
      * apply IH. inversion Ds; assumption.
      * inversion Ds as [|? ? Da Dl]; subst.
        rewrite Forall_forall in *. intros b Hb.
        rewrite !Number_digits by auto. apply numberLe_round. apply Ha, Hb.
    + intros Small.
      assert (Forall (fun id => (decimalValue id < 2 ^ 53)%Z) sortedIds) as Ss
        by (apply (Permutation_Forall (Permutation_sym P)), Small).
      clear P Ds. induction S as [|a l S IH Ha]; constructor.
      * apply IH. inversion Ss; assumption.
      * inversion Ss as [|? ? Sa Sl]; subst.
        rewrite Forall_forall in *. intros b Hb.
        specialize (Ha b Hb). unfold rank in Ha.
        rewrite !roundToDouble_small in Ha by auto. exact Ha.
    + intros c Hc. apply rendered_not_space, (tsmFormat_rendered _ Ds), Hc.
    + split.
      * apply tsmFormat_last; [|exact Ds].
        intros E. rewrite E in P. apply Permutation_nil in P. contradiction.
      * intros T failed found p.
        destruct (render_output T other ids failed found p Hne) as (p' & R & O & _).
        exists p'. split; assumption.
  - intros p other. eexists. split.
    + rewrite extractItemIds_eq. unfold hrefIds.
      replace (test isHTMLPattern (js "500, 3, 42")) with false by (vm_compute; reflexivity).
      vm_compute. reflexivity.
    + vm_compute. reflexivity.
Qed.

Lemma tsmFormat_shape_and_order_witness :
  StronglySorted (fun a b => (decimalValue a <= decimalValue b)%Z)
    (sort notANumber [js "500"; js "3"; js "42"]).
Proof.
  refine (proj1 (proj2 (proj2 (proj2 (proj2
    (proj1 tsmFormat_shape_and_order notANumber [js "500"; js "3"; js "42"] _ _))))) _).
  - discriminate.
  - repeat constructor.
  - repeat constructor.
Defined.

(** C3, as stated, fails beyond 2 ^ 53: the two IDs have the same double,
    keep their discovery order, and the larger is rendered first.  It also
    fails on an ID the resolver takes from the search data unchecked: the
    token rendered for it is not i: followed by digits. *)
Lemma tsmFormat_order_counterexample :
  (extractItemIds noAnchors (js "9007199254740993 9007199254740992")
   = Some [js "9007199254740993"; js "9007199254740992"]
   /\ tsmFormat (sort notANumber [js "9007199254740993"; js "9007199254740992"])
      = js "i:9007199254740993,i:9007199254740992"
   /\ ~ StronglySorted (fun a b => (decimalValue a <= decimalValue b)%Z)
          (sort notANumber [js "9007199254740993"; js "9007199254740992"]))
  /\ (exists p',
        convertToTSM noAnchors oddJSON plainToString notANumber oddFetch
          (Page (js "[Thunderfury]") [] [] [] (MessageBox [] false []))
        = Some (Done p')
        /\ output p' = js "i:19019-2"
        /\ isDigits (js "19019-2") = false).
Proof.
  split.
  - split; [vm_compute; reflexivity|]. split; [vm_compute; reflexivity|].
    intros S.
    change (sort notANumber [js "9007199254740993"; js "9007199254740992"])
      with [js "9007199254740993"; js "9007199254740992"] in S.
    inversion S as [|? ? _ F]; subst. inversion F as [|? ? L _]; subst.
    vm_compute in L. apply L. reflexivity.
  - eexists. split; [vm_compute; reflexivity|]. split; reflexivity.
Qed.

(** * The resolver *)

Lemma searchWowheadForItemName_throws J T fetch itemName e :
  encodeURIComponent itemName = Throw e ->
  searchWowheadForItemName J T fetch itemName = Throw e.
Proof. intros H. unfold searchWowheadForItemName. rewrite H. reflexivity. Qed.

Lemma trySearch_shape J T fetch itemName searchUrl r :
  trySearch J T fetch itemName searchUrl = Normal r ->
  match r with
  | Found _ searchedName _ => searchedName = itemName
  | NotFound name _ url => name = itemName /\ url = searchUrl
  end.
Proof.
  unfold trySearch, andThen. intros E.
  destruct (encodeURIComponent searchUrl) as [u|]; [|discriminate].
  destruct (fetch _) as [resp|]; [|discriminate].
  destruct (negb (ok resp)); [discriminate|].
  destruct (text resp) as [html|]; [|discriminate].
  destruct (fromListview J T html itemName) as [r'|] eqn:L.
  - injection E as <-. unfold fromListview, andThen in L.
    destruct (exec listviewPattern html) as [lm|]; [|discriminate].
    destruct (capture1 lm); [discriminate|].
    destruct (J _) as [data|]; [|discriminate].
    destruct data as [|data0 data]; [discriminate|].
    destruct (getProperty data0 _) as [id|]; [|discriminate].
    destruct (truthy id); [|discriminate].
    destruct (getProperty data0 _); [|discriminate].
    destruct (getProperty data0 _); [|discriminate].
    destruct (toString T id); [|discriminate].
    injection L as <-. reflexivity.
  - destruct (exec itemIdPattern html); injection E as <-; [reflexivity|].
    split; reflexivity.
Qed.

(** Past the construction of the search URL every outcome is a value. *)
Lemma searchWowheadForItemName_returns J T fetch itemName encodedName :
  encodeURIComponent itemName = Normal encodedName ->
  exists r,
    searchWowheadForItemName J T fetch itemName = Normal r
    /\ match r with
       | Found _ searchedName _ => searchedName = itemName
       | NotFound name _ searchUrl => name = itemName /\ searchUrl = lookupUrl encodedName
       end.
Proof.
  intros H. unfold searchWowheadForItemName. rewrite H. unfold andThen.
  fold (lookupUrl encodedName).
  destruct (trySearch J T fetch itemName (lookupUrl encodedName)) as [r|e] eqn:E.
  - exists r. split; [reflexivity|]. exact (trySearch_shape _ _ _ _ _ _ E).
  - eexists. split; [reflexivity|]. split; reflexivity.
Qed.

(** C5. The resolver raises on an item name with a lone surrogate: whatever
    [fetch] and [JSON.parse] do, [encodeURIComponent] throws URIError before
    the try block is entered, and [convertToTSM] is rejected with it. *)
Theorem searchWowheadForItemName_lone_surrogate :
  (forall JSON_parse ToString_other fetch,
      searchWowheadForItemName JSON_parse ToString_other fetch loneSurrogate
      = Throw URIError)
  /\ (forall parseAnchors JSON_parse ToString_other other fetch,
        exists p,
          convertToTSM parseAnchors JSON_parse ToString_other other fetch
            (Page (js "[" ++ loneSurrogate ++ js "]") [] [] [] (MessageBox [] false []))
          = Some (Rejected p URIError)).
Proof.
  split.
  - intros J T fetch. reflexivity.
  - intros pa J T other fetch. eexists.
    change (js "[" ++ loneSurrogate ++ js "]") with [91%N; 55296%N; 93%N].
    unfold convertToTSM.
    rewrite extractItemIds_eq. unfold hrefIds. simpl input.
    replace (test isHTMLPattern [91%N; 55296%N; 93%N]) with false
      by (vm_compute; reflexivity).
    vm_compute. reflexivity.
Qed.

(** * The orchestration *)






(** * Further properties of the scans *)

Module ScanFacts.

Lemma Matches_text r x y :
  Matches r x y -> rev (before x) ++ after x = rev (before y) ++ after y.
Proof.
  intros M. apply Matches_consumes in M. destruct M as (s & E & B).
  rewrite E, B, rev_app_distr, rev_involutive, <- app_assoc. reflexivity.
Qed.

(** What holds of every match of a pattern, in terms of the whole text,
    holds of every capture of the loop. *)
Lemma whileExec_text r (Q : jsstring -> jsstring -> Prop) :
  (forall x y, group1 x = None -> Matches r x y ->
               Q (rev (before x) ++ after x) (capture1 y)) ->
  forall fuel bef aft caps,
    whileExec fuel r bef aft push [] = Some caps -> Forall (Q (rev bef ++ aft)) caps.
Proof.
  intros HQ. induction fuel as [|fuel IH]; intros bef aft caps H; [discriminate|].
  rewrite whileExec_S in H.
  destruct (search r bef aft) as [y|] eqn:E; [|injection H as <-; constructor].
  rewrite whileExec_push in H.
  destruct (whileExec fuel r (before y) (after y) push []) as [caps'|] eqn:E';
    [|discriminate].
  injection H as <-. apply IH in E'.
  apply search_Some_at in E. destruct E as (p & aft' & -> & M).
  pose proof (HQ (State (rev p ++ bef) aft' None) y eq_refl M) as Hq.
  pose proof (Matches_text _ _ _ M) as T.
  simpl in Hq, T. rewrite rev_app_distr, rev_involutive, <- app_assoc in Hq, T.
  unfold push. simpl. constructor; [exact Hq|]. rewrite T. exact E'.
Qed.

Lemma captures_text r (Q : jsstring -> jsstring -> Prop) text :
  (forall x y, group1 x = None -> Matches r x y ->
               Q (rev (before x) ++ after x) (capture1 y)) ->
  Forall (Q text) (captures r text).
Proof.
  intros HQ. unfold captures.
  destruct (whileExec (S (length text)) r [] text push []) as [caps|] eqn:E;
    [|constructor].
  exact (whileExec_text r Q HQ _ _ _ _ E).
Qed.

Lemma Matches_Lit_i s : forall x y,
  Matches (Lit only_i s) x y ->
  exists t, after x = t ++ after y /\ before y = rev t ++ before x
            /\ group1 y = group1 x /\ sameUpToCase t s.
Proof.
  unfold sameUpToCase.
  induction s as [|c s IH]; intros x y M; simpl in M; inversion M; subst.
  - exists []. auto.
  - match goal with M1 : Matches (Chr _) _ _, M2 : Matches (Lit _ _) _ _ |- _ =>
      inversion M1; subst; apply IH in M2; destruct M2 as (t & E & B & G & C) end.
    simpl in *. exists (a :: t). simpl. rewrite E, B, G, C, <- app_assoc.
    match goal with H : only_i c a = true |- _ =>
      unfold only_i in H; apply N.eqb_eq in H; rewrite H end.
    auto.
Qed.

Lemma Matches_digits_group x y :
  Matches (Group (Plus digit)) x y ->
  exists id, after x = id ++ after y /\ before y = rev id ++ before x
             /\ group1 y = Some id /\ isItemId id.
Proof.
  intros M. inversion M; subst.
  match goal with M1 : Matches (Plus digit) _ _ |- _ =>
    apply Matches_Plus in M1; destruct M1 as (s & [E B] & Hs) end.
  exists s. simpl. rewrite (between_consumed _ _ _ (conj E B)).
  repeat split; auto. apply isDigits_Plus, Hs.
Qed.

(** A match of the bare-number pattern is a whole number. *)
Lemma number_match x y :
  Matches numberPattern x y ->
  exists id, capture1 y = id /\ isItemId id
             /\ after x = id ++ after y
             /\ isWordChar (before x) = false /\ isWordChar (after y) = false.
Proof.
  unfold numberPattern. intros M.
  inversion M as [| | | | | |? ? ? y1 ? M1 M2| |]; subst.
  inversion M2 as [| | | | | |? ? ? y2 ? M3 M4| |]; subst.
  inversion M1 as [| | | | | | | |? B1]; subst.
  inversion M4 as [| | | | | | | |? B2]; subst.
  apply Matches_digits_group in M3. destruct M3 as (id & E & B & G & D).
  exists id. unfold capture1. rewrite G. split; [reflexivity|]. split; [exact D|].
  split; [exact E|].
  unfold isItemId, isDigits in D. destruct id as [|d id]; [discriminate|].
  simpl in D. apply andb_true_iff in D. destruct D as [D0 D].
  unfold atBoundary in B1, B2. rewrite E in B1. simpl in B1.
  rewrite (digit_word _ D0) in B1.
  rewrite B in B2.
  replace (rev (d :: id)) with (rev id ++ [d]) in B2 by reflexivity.
  rewrite <- app_assoc in B2.
  rewrite (isWordChar_after_digits id ([d] ++ before y1) D) in B2
    by (simpl; apply digit_word, D0).
  destruct (isWordChar (before y1)); [discriminate|].
  destruct (isWordChar (after y)); [discriminate|]. auto.
Qed.

Lemma only_i_cases c a : only_i c a = true -> canonicalize a = canonicalize c.
Proof. unfold only_i. apply N.eqb_eq. Qed.

End ScanFacts.
Import ScanFacts.

(** X1. The bare-number scan takes whole numbers only: each of its captures
    is a run of digits of the text with no letter, digit or underscore right
    before it or right after it. *)
Theorem numberPattern_whole_numbers (text : jsstring) :
  Forall (fun id =>
            isDigits id = true
            /\ exists pre post,
                 standsIn text pre id post
                 /\ isWordChar (rev pre) = false /\ isWordChar post = false)
    (captures numberPattern text).
Proof.
  apply (captures_text numberPattern
           (fun text id =>
              isDigits id = true
              /\ exists pre post,
                   standsIn text pre id post
                   /\ isWordChar (rev pre) = false /\ isWordChar post = false)).
  intros x y _ M. apply number_match in M.
  destruct M as (id & -> & D & E & B1 & B2). split; [exact D|].
  exists (rev (before x)), (after y). unfold standsIn.
  rewrite rev_involutive, E. auto.
Qed.

Module MarkerFacts.

Lemma Matches_Star_run c x y :
  Matches (Star c) x y -> exists t, after x = t ++ after y /\ forallb c t = true.
Proof. intros M. inversion M; subst. simpl. eauto. Qed.

Lemma Matches_Opt_run c x y :
  Matches (Opt c) x y ->
  exists t, after x = t ++ after y /\ (t = [] \/ exists a, t = [a] /\ c a = true).
Proof.
  intros M. inversion M; subst; simpl.
  - exists []. auto.
  - exists [a]. eauto.
Qed.

Lemma Matches_Chr_one c x y :
  Matches (Chr c) x y ->
  exists a, after x = a :: after y /\ c a = true /\ group1 y = group1 x.
Proof. intros M. inversion M; subst. simpl. eauto. Qed.

Lemma Matches_Plus_group c x y :
  Matches (Group (Plus c)) x y ->
  exists s, after x = s ++ after y /\ group1 y = Some s
            /\ s <> [] /\ forallb c s = true.
Proof.
  intros M. inversion M; subst.
  match goal with M1 : Matches (Plus c) _ _ |- _ =>
    apply Matches_Plus in M1; destruct M1 as (s & [E B] & Hs) end.
  exists s. simpl. rewrite (between_consumed _ _ _ (conj E B)). tauto.
Qed.

Lemma Matches_Cat r1 r2 x z :
  Matches (Cat r1 r2) x z -> exists y, Matches r1 x y /\ Matches r2 y z.
Proof. intros M. inversion M; subst. eauto. Qed.

(** A match of a pattern made of a marker and the digits. *)
Lemma marker_match marker x y :
  Matches (Lit only_i marker ;; Group (Plus digit)) x y ->
  exists t id, capture1 y = id /\ isItemId id
               /\ after x = t ++ id ++ after y /\ sameUpToCase t marker.
Proof.
  intros M. apply Matches_Cat in M. destruct M as (y1 & M1 & M2).
  apply Matches_Lit_i in M1. destruct M1 as (t & E1 & _ & _ & C).
  apply Matches_Plus_group in M2. destruct M2 as (id & E2 & G & Hs).
  exists t, id. unfold capture1. rewrite G, E1, E2.
  repeat split; auto. apply isDigits_Plus, Hs.
Qed.

Lemma wowheadUrl_match x y :
  Matches wowheadUrlPattern x y ->
  exists host letters slash item sep id,
    capture1 y = id /\ isItemId id
    /\ after x = host ++ letters ++ slash ++ item ++ sep :: id ++ after y
    /\ sameUpToCase host (js "wowhead.com/")
    /\ forallb letter letters = true
    /\ (slash = [] \/ slash = [ch "/"])
    /\ sameUpToCase item (js "item")
    /\ (sep = ch "=" \/ sep = ch "/").
Proof.
  unfold wowheadUrlPattern. intros M.
  apply Matches_Cat in M. destruct M as (y1 & M1 & M).
  apply Matches_Cat in M. destruct M as (y2 & M2 & M).
  apply Matches_Cat in M. destruct M as (y3 & M3 & M).
  apply Matches_Cat in M. destruct M as (y4 & M4 & M).
  apply Matches_Cat in M. destruct M as (y5 & M5 & M6).
  apply Matches_Lit_i in M1. destruct M1 as (host & E1 & _ & _ & C1).
  apply Matches_Star_run in M2. destruct M2 as (letters & E2 & L).
  apply Matches_Opt_run in M3. destruct M3 as (slash & E3 & S).
  apply Matches_Lit_i in M4. destruct M4 as (item & E4 & _ & _ & C4).
  apply Matches_Chr_one in M5. destruct M5 as (sep & E5 & Hsep & _).
  apply Matches_Plus_group in M6. destruct M6 as (id & E6 & G & Hs).
  exists host, letters, slash, item, sep, id.
  unfold capture1. rewrite G, E1, E2, E3, E4, E5, E6.
  repeat split; auto.
  - apply isDigits_Plus, Hs.
  - destruct S as [-> | (a & -> & Ha)]; [auto|].
    unfold only in Ha. apply N.eqb_eq in Ha. subst a. auto.
  - apply orb_true_iff in Hsep. unfold only in Hsep. rewrite !N.eqb_eq in Hsep. exact Hsep.
Qed.

Lemma itemName_match x y :
  Matches itemNamePattern x y ->
  exists itemName,
    capture1 y = itemName /\ after x = ch "[" :: itemName ++ ch "]" :: after y.
Proof.
  unfold itemNamePattern. intros M.
  apply Matches_Cat in M. destruct M as (y1 & M1 & M).
  apply Matches_Cat in M. destruct M as (y2 & M2 & M3).
  apply Matches_Chr_one in M1. destruct M1 as (a & E1 & Ha & _).
  apply Matches_Plus_group in M2. destruct M2 as (s & E2 & G & _).
  apply Matches_Chr_one in M3. destruct M3 as (b & E3 & Hb & Hg).
  unfold only in Ha, Hb. apply N.eqb_eq in Ha, Hb. subst a b.
  exists s. unfold capture1. rewrite Hg, G, E1, E2, E3. auto.
Qed.

Lemma CapturesPlus_occurs c r :
  CapturesPlus c r ->
  forall x y, Matches r x y ->
  exists s pre post, group1 y = Some s /\ after x = pre ++ s ++ post.
Proof.
  induction 1; intros x y M.
  - apply Matches_Plus_group in M. destruct M as (s & E & G & _).
    exists s, [], (after y). auto.
  - inversion M; subst.
    match goal with M1 : Matches r1 _ _, M2 : Matches r2 _ _ |- _ =>
      apply Matches_consumes in M1; destruct M1 as (s1 & E1 & _);
      apply IHCapturesPlus in M2; destruct M2 as (s & pre & post & G & E2) end.
    exists s, (s1 ++ pre), post. rewrite E1, E2, <- app_assoc. auto.
  - inversion M; subst.
    match goal with M1 : Matches r1 _ _, M2 : Matches r2 _ _ |- _ =>
      apply IHCapturesPlus in M1; destruct M1 as (s & pre & post & G & E1);
      rewrite <- (keepsGroup_Matches _ _ _ H0 M2) in G end.
    exists s, pre, post. auto.
Qed.

Lemma captures_occur c r text :
  CapturesPlus c r ->
  Forall (fun s => exists pre post, standsIn text pre s post) (captures r text).
Proof.
  intros CP.
  apply (captures_text r (fun text s => exists pre post, standsIn text pre s post)).
  intros x y _ M. destruct (CapturesPlus_occurs c r CP x y M) as (s & pre & post & G & E).
  unfold capture1, standsIn. rewrite G, E.
  exists (rev (before x) ++ pre), post. rewrite <- app_assoc. reflexivity.
Qed.

Lemma isItemId_has_digit id : isItemId id -> exists d, In d id /\ digit d = true.
Proof.
  unfold isItemId, isDigits. destruct id as [|d id]; [discriminate|].
  intros H. simpl in H. apply andb_true_iff in H. exists d. simpl. tauto.
Qed.

Lemma captures_need_digit r text :
  CapturesPlus digit r ->
  (forall c, In c text -> digit c = false) -> captures r text = [].
Proof.
  intros CP H.
  pose proof (captures_digits r text CP) as D.
  pose proof (captures_occur digit r text CP) as O.
  destruct (captures r text) as [|id caps]; [reflexivity|].
  inversion D as [|? ? Did _]; subst. inversion O as [|? ? (pre & post & E) _]; subst.
  destruct (isItemId_has_digit id Did) as (d & Hd & Dd).
  rewrite (H d) in Dd; [discriminate|].
  unfold standsIn in E. rewrite E, !in_app_iff. auto.
Qed.

End MarkerFacts.
Import MarkerFacts.

(** X2. Each ID found by the i: scan, the item: scan and the URL scan stands
    in the text right after its marker, whatever the case of the marker's
    letters: after i:, after item:, or after wowhead.com/, a run of letters,
    an optional slash, item and an equals sign or a slash. *)
Theorem scans_after_marker (text : jsstring) :
  Forall (fun id =>
            exists pre marker post,
              standsIn text pre (marker ++ id) post /\ sameUpToCase marker (js "i:"))
    (captures tsmFormatPattern text)
  /\ Forall (fun id =>
               exists pre marker post,
                 standsIn text pre (marker ++ id) post
                 /\ sameUpToCase marker (js "item:"))
       (captures itemFormatPattern text)
  /\ Forall (fun id =>
               exists pre host letters slash item sep post,
                 standsIn text pre (host ++ letters ++ slash ++ item ++ sep :: id) post
                 /\ sameUpToCase host (js "wowhead.com/")
                 /\ forallb letter letters = true
                 /\ (slash = [] \/ slash = [ch "/"])
                 /\ sameUpToCase item (js "item")
                 /\ (sep = ch "=" \/ sep = ch "/"))
       (captures wowheadUrlPattern text).
Proof.
  split; [|split].
  - apply (captures_text tsmFormatPattern
             (fun text id =>
                exists pre marker post,
                  standsIn text pre (marker ++ id) post
                  /\ sameUpToCase marker (js "i:"))).
    intros x y _ M. apply marker_match in M. destruct M as (t & id & -> & _ & E & C).
    exists (rev (before x)), t, (after y). unfold standsIn.
    rewrite E, <- !app_assoc. auto.
  - apply (captures_text itemFormatPattern
             (fun text id =>
                exists pre marker post,
                  standsIn text pre (marker ++ id) post
                  /\ sameUpToCase marker (js "item:"))).
    intros x y _ M. apply marker_match in M. destruct M as (t & id & -> & _ & E & C).
    exists (rev (before x)), t, (after y). unfold standsIn.
    rewrite E, <- !app_assoc. auto.
  - apply (captures_text wowheadUrlPattern
             (fun text id =>
                exists pre host letters slash item sep post,
                  standsIn text pre (host ++ letters ++ slash ++ item ++ sep :: id) post
                  /\ sameUpToCase host (js "wowhead.com/")
                  /\ forallb letter letters = true
                  /\ (slash = [] \/ slash = [ch "/"])
                  /\ sameUpToCase item (js "item")
                  /\ (sep = ch "=" \/ sep = ch "/"))).
    intros x y _ M. apply wowheadUrl_match in M.
    destruct M as (host & letters & slash & item & sep & id & -> & _ & E & H).
    exists (rev (before x)), host, letters, slash, item, sep, (after y).
    split; [|exact H]. unfold standsIn. rewrite E.
    repeat (rewrite <- ?app_assoc; simpl). reflexivity.
Qed.

(** X3. Every ID [extractItemIds] returns either comes from a link of the
    parsed markup or is a run of digits standing in the text; on a text
    without any digit the result is what the links give, and nothing when
    there is no markup. *)
Theorem extractItemIds_ids_stand_in_text
    (parseAnchors : jsstring -> completion (list jsstring)) (text : jsstring) :
  exists ids,
    extractItemIds parseAnchors text = Some ids
    /\ (forall id,
          In id ids ->
          In id (hrefIds parseAnchors text)
          \/ (isDigits id = true /\ exists pre post, standsIn text pre id post))
    /\ ((forall c, In c text -> digit c = false) ->
        ids = hrefIds parseAnchors text
        /\ (test isHTMLPattern text = false -> ids = [])).
Proof.
  eexists. split; [apply extractItemIds_eq|]. split.
  - intros id H. apply extractItemIds_In in H.
    assert (forall r, CapturesPlus digit r -> In id (captures r text) ->
              isDigits id = true /\ exists pre post, standsIn text pre id post) as G.
    { intros r CP Hin. split.
      - pose proof (captures_digits r text CP) as D.
        rewrite Forall_forall in D. exact (D id Hin).
      - pose proof (captures_occur digit r text CP) as O.
        rewrite Forall_forall in O. exact (O id Hin). }
    destruct H as [H | [H | [[_ H] | [H | H]]]]; [left; exact H | right ..].
    + exact (G _ wowheadUrlPattern_digits H).
    + exact (G _ numberPattern_digits H).
    + exact (G _ itemFormatPattern_digits H).
    + exact (G _ tsmFormatPattern_digits H).
  - intros Hno.
    rewrite (captures_need_digit _ text tsmFormatPattern_digits Hno).
    rewrite (captures_need_digit _ text itemFormatPattern_digits Hno).
    rewrite (captures_need_digit _ text numberPattern_digits Hno).
    rewrite (captures_need_digit _ text wowheadUrlPattern_digits Hno).
    split.
    + destruct (test isHTMLPattern text); reflexivity.
    + intros T. unfold hrefIds. rewrite T. reflexivity.
Qed.

Lemma extractItemIds_ids_stand_in_text_witness :
  extractItemIds noAnchors (js "Thunderfury, Blessed Blade") = Some [].
Proof.
  destruct (extractItemIds_ids_stand_in_text noAnchors (js "Thunderfury, Blessed Blade"))
    as (ids & E & _ & H).
  destruct H as [_ H].
  - intros c Hc. vm_compute in Hc.
    repeat (destruct Hc as [<- | Hc]; [reflexivity|]). contradiction.
  - rewrite E, H; reflexivity.
Defined.

(** X4. Every name [extractItemNames] returns stands in the text between an
    opening bracket and a closing bracket; a text without an opening bracket,
    or without a closing one, has no name. *)
Theorem extractItemNames_stand_bracketed (text : jsstring) :
  exists names,
    extractItemNames text = Some names
    /\ Forall (fun itemName =>
                 exists pre post,
                   standsIn text pre (ch "[" :: itemName ++ [ch "]"]) post) names
    /\ (~ In (ch "[") text \/ ~ In (ch "]") text -> names = []).
Proof.
  exists (captures itemNamePattern text). split; [apply extractItemNames_eq|].
  assert (Forall (fun itemName =>
                    exists pre post,
                      standsIn text pre (ch "[" :: itemName ++ [ch "]"]) post)
            (captures itemNamePattern text)) as F.
  { apply (captures_text itemNamePattern
             (fun text itemName =>
                exists pre post,
                  standsIn text pre (ch "[" :: itemName ++ [ch "]"]) post)).
    intros x y _ M. apply itemName_match in M. destruct M as (s & -> & E).
    exists (rev (before x)), (after y). unfold standsIn. rewrite E.
    simpl. rewrite <- app_assoc. reflexivity. }
  split; [exact F|].
  intros H. destruct (captures itemNamePattern text) as [|n names]; [reflexivity|].
  inversion F as [|? ? (pre & post & E) _]; subst. unfold standsIn in E.
  exfalso. destruct H as [H | H]; apply H; rewrite E; rewrite !in_app_iff; simpl.
  - auto.
  - right. left. right. rewrite in_app_iff. simpl. auto.
Qed.

Lemma extractItemNames_stand_bracketed_witness :
  extractItemNames (js "Thunderfury] 19019") = Some [].
Proof.
  destruct (extractItemNames_stand_bracketed (js "Thunderfury] 19019"))
    as (names & E & _ & H).
  rewrite E, H; [reflexivity|]. left. vm_compute. intuition discriminate.
Defined.

(** * Letter case *)

Module CaseFacts.

Lemma lower_range a : lower a = true <-> (97 <= a <= 122)%N.
Proof. unfold lower. rewrite andb_true_iff, !N.leb_le. tauto. Qed.

Lemma upper_range a : upper a = true <-> (65 <= a <= 90)%N.
Proof. unfold upper. rewrite andb_true_iff, !N.leb_le. tauto. Qed.

Lemma digit_range a : digit a = true <-> (48 <= a <= 57)%N.
Proof. unfold digit. rewrite andb_true_iff, !N.leb_le. tauto. Qed.

Lemma canonicalize_cases a :
  (lower a = true /\ canonicalize a = (a - 32)%N) \/ (lower a = false /\ canonicalize a = a).
Proof. unfold canonicalize. destruct (lower a); auto. Qed.

Lemma bool_ext (b c : bool) : (b = true <-> c = true) -> b = c.
Proof. destruct b, c; intuition congruence. Qed.

Lemma canonicalize_idem a : canonicalize (canonicalize a) = canonicalize a.
Proof.
  destruct (canonicalize_cases a) as [[L ->] | [L ->]].
  - apply lower_range in L. unfold canonicalize.
    destruct (lower (a - 32)%N) eqn:E; [apply lower_range in E; lia | reflexivity].
  - unfold canonicalize. rewrite L. reflexivity.
Qed.

Lemma only_i_up c0 a : only_i c0 (canonicalize a) = only_i c0 a.
Proof. unfold only_i. rewrite canonicalize_idem. reflexivity. Qed.

Lemma lower_up_false a : lower a = true -> lower (a - 32)%N = false.
Proof.
  intros L. apply lower_range in L.
  destruct (lower (a - 32)%N) eqn:E; [apply lower_range in E; lia | reflexivity].
Qed.

Lemma letter_up a : letter (canonicalize a) = letter a.
Proof.
  destruct (canonicalize_cases a) as [[L ->] | [L ->]]; [|reflexivity].
  unfold letter. rewrite L, (lower_up_false a L). simpl.
  apply lower_range in L. apply upper_range. lia.
Qed.

Lemma digit_up a : digit (canonicalize a) = digit a.
Proof.
  destruct (canonicalize_cases a) as [[L ->] | [L ->]]; [|reflexivity].
  apply lower_range in L. apply bool_ext. rewrite !digit_range. lia.
Qed.

Lemma word_up a : word (canonicalize a) = word a.
Proof.
  destruct (canonicalize_cases a) as [[L ->] | [L E]]; [|rewrite E; reflexivity].
  unfold word. rewrite L, (lower_up_false a L).
  pose proof L as R. apply lower_range in R.
  replace (upper (a - 32)%N) with true by (symmetry; apply upper_range; lia).
  rewrite !orb_true_r. reflexivity.
Qed.

Lemma only_up c0 a :
  lower c0 = false -> upper c0 = false -> only c0 (canonicalize a) = only c0 a.
Proof.
  intros L U. destruct (canonicalize_cases a) as [[La ->] | [La ->]]; [|reflexivity].
  unfold only. pose proof La as R. apply lower_range in R.
  apply bool_ext. rewrite !N.eqb_eq. split; intros E; subst c0.
  - assert (upper (a - 32)%N = true) by (apply upper_range; lia). congruence.
  - congruence.
Qed.

Lemma digit_fixed a : digit a = true -> canonicalize a = a.
Proof.
  intros D. apply digit_range in D.
  destruct (canonicalize_cases a) as [[L _] | [_ E]]; [apply lower_range in L; lia | exact E].
Qed.

Lemma itemId_fixed id : isItemId id -> map canonicalize id = id.
Proof.
  unfold isItemId, isDigits. destruct id as [|d id]; [discriminate|]. intros H.
  rewrite forallb_forall in H.
  rewrite <- (map_id (d :: id)) at 2. apply map_ext_in. intros a Ha.
  apply digit_fixed, H, Ha.
Qed.

Lemma isWordChar_up s : isWordChar (map canonicalize s) = isWordChar s.
Proof. destruct s; simpl; [reflexivity | apply word_up]. Qed.

Lemma between_up x y : between (upState x) (upState y) = map canonicalize (between x y).
Proof. unfold between, upState. simpl. rewrite !length_map, firstn_map. reflexivity. Qed.

Lemma star_up c : (forall a, c (canonicalize a) = c a) ->
  forall aft bef k k',
    (forall b a, k' (map canonicalize b) (map canonicalize a) = option_map upState (k b a)) ->
    star c (map canonicalize bef) (map canonicalize aft) k'
    = option_map upState (star c bef aft k).
Proof.
  intros Hc. induction aft as [|a aft IH]; intros bef k k' Hk; simpl.
  - apply (Hk bef []).
  - rewrite Hc. destruct (c a); [|apply (Hk bef (a :: aft))].
    pose proof (IH (a :: bef) k k' Hk) as E1. pose proof (Hk bef (a :: aft)) as E2.
    simpl in E1, E2. rewrite E1, E2.
    destruct (star c (a :: bef) aft k); reflexivity.
Qed.

Lemma lazyStar_up c : (forall a, c (canonicalize a) = c a) ->
  forall aft bef k k',
    (forall b a, k' (map canonicalize b) (map canonicalize a) = option_map upState (k b a)) ->
    lazyStar c (map canonicalize bef) (map canonicalize aft) k'
    = option_map upState (lazyStar c bef aft k).
Proof.
  intros Hc. induction aft as [|a aft IH]; intros bef k k' Hk; simpl.
  - pose proof (Hk bef []) as E2. simpl in E2. rewrite E2.
    destruct (k bef []); reflexivity.
  - pose proof (Hk bef (a :: aft)) as E2. simpl in E2. rewrite E2, Hc.
    destruct (k bef (a :: aft)); simpl; [reflexivity|].
    destruct (c a); [|reflexivity]. apply (IH (a :: bef) k k' Hk).
Qed.

(** The matcher commutes with upper-casing the text. *)
Lemma m_up r : caseless r ->
  forall x k k',
    (forall y, k' (upState y) = option_map upState (k y)) ->
    m r (upState x) k' = option_map upState (m r x k).
Proof.
  induction r; intros C x k k' Hk; simpl in C.
  - apply Hk.
  - destruct x as [bef aft g]. destruct aft as [|a aft]; simpl; [reflexivity|].
    rewrite C. destruct (c a); [|reflexivity].
    apply (Hk (State (a :: bef) aft g)).
  - destruct x as [bef aft g]. simpl.
    apply (star_up c C aft bef (fun b a => k (State b a g))).
    intros b a. apply (Hk (State b a g)).
  - destruct x as [bef aft g]. simpl.
    apply (lazyStar_up c C aft bef (fun b a => k (State b a g))).
    intros b a. apply (Hk (State b a g)).
  - destruct x as [bef aft g]. destruct aft as [|a aft]; simpl.
    + apply (Hk (State bef [] g)).
    + rewrite C. pose proof (Hk (State (a :: bef) aft g)) as H1.
      pose proof (Hk (State bef (a :: aft) g)) as H2.
      unfold upState in H1, H2 |- *. simpl in H1, H2 |- *.
      destruct (c a); [|exact H2]. rewrite H1, H2.
      destruct (k (State (a :: bef) aft g)); reflexivity.
  - destruct C as [C1 C2]. simpl.
    apply (IHr1 C1 x (fun y => m r2 y k)). intros y. apply (IHr2 C2 y k k' Hk).
  - simpl.
    apply (IHr C x (fun y => k (State (before y) (after y) (Some (between x y))))).
    intros y. rewrite between_up.
    apply (Hk (State (before y) (after y) (Some (between x y)))).
  - simpl. unfold atBoundary, upState at 1 2. simpl. rewrite !isWordChar_up.
    fold (atBoundary x). destruct (atBoundary x); [apply Hk | reflexivity].
Qed.

Lemma matchAt_up r : caseless r -> forall bef aft,
  matchAt r (map canonicalize bef) (map canonicalize aft)
  = option_map upState (matchAt r bef aft).
Proof.
  intros C bef aft.
  exact (m_up r C (State bef aft None) Some Some (fun y => eq_refl)).
Qed.

Lemma search_up r : caseless r -> forall aft bef,
  search r (map canonicalize bef) (map canonicalize aft)
  = option_map upState (search r bef aft).
Proof.
  intros C. induction aft as [|a aft IH]; intros bef.
  - pose proof (matchAt_up r C bef []) as E. simpl in *. rewrite E.
    destruct (matchAt r bef []); reflexivity.
  - pose proof (matchAt_up r C bef (a :: aft)) as E. simpl in *. rewrite E.
    destruct (matchAt r bef (a :: aft)); [reflexivity|].
    apply (IH (a :: bef)).
Qed.

Lemma whileExec_up r : caseless r -> forall fuel bef aft acc,
  whileExec fuel r (map canonicalize bef) (map canonicalize aft) push
    (map (map canonicalize) acc)
  = option_map (map (map canonicalize)) (whileExec fuel r bef aft push acc).
Proof.
  intros C. induction fuel as [|fuel IH]; intros bef aft acc; [reflexivity|].
  rewrite !whileExec_S, (search_up r C).
  destruct (search r bef aft) as [y|]; simpl; [|reflexivity].
  rewrite <- IH. f_equal. unfold push, capture1. rewrite map_app. simpl.
  destruct (group1 y); reflexivity.
Qed.

Lemma captures_up r text :
  caseless r -> captures r (map canonicalize text) = map (map canonicalize) (captures r text).
Proof.
  intros C. unfold captures. rewrite length_map.
  pose proof (whileExec_up r C (S (length text)) [] text []) as E.
  change (map canonicalize []) with (@nil N) in E.
  change (map (map canonicalize) []) with (@nil jsstring) in E.
  rewrite E.
  match goal with |- context [option_map _ ?w] =>
    change (whileExec (S (length text)) r [] text push []) with w; destruct w
  end; reflexivity.
Qed.

Lemma digit_captures_up r text :
  caseless r -> CapturesPlus digit r -> captures r (map canonicalize text) = captures r text.
Proof.
  intros C CP. rewrite (captures_up r text C).
  pose proof (captures_digits r text CP) as D.
  induction D as [|id caps Hid D IH]; simpl; [reflexivity|].
  rewrite (itemId_fixed id Hid), IH. reflexivity.
Qed.

Lemma test_up r text : caseless r -> test r (map canonicalize text) = test r text.
Proof.
  intros C. unfold test, exec. pose proof (search_up r C text []) as E.
  change (map canonicalize []) with (@nil N) in E.
  rewrite E. destruct (search r [] text); reflexivity.
Qed.

Lemma caseless_Lit s : caseless (Lit only_i s).
Proof.
  induction s as [|c s IH]; simpl; [exact I|]. split; [apply only_i_up | exact IH].
Qed.

Ltac caseless_tac :=
  repeat first
    [ apply caseless_Lit
    | apply only_i_up | apply letter_up | apply digit_up
    | (apply only_up; reflexivity)
    | exact I
    | reflexivity
    | split
    | (intros ?; rewrite !only_up by reflexivity; reflexivity)
    | intros ? ].

Lemma caseless_isHTML : caseless isHTMLPattern.
Proof. unfold isHTMLPattern. simpl caseless. caseless_tac. Qed.

Lemma caseless_wowheadUrl : caseless wowheadUrlPattern.
Proof. unfold wowheadUrlPattern, Plus. simpl caseless. caseless_tac. Qed.

Lemma caseless_number : caseless numberPattern.
Proof. unfold numberPattern, Plus. simpl caseless. caseless_tac. Qed.

Lemma caseless_itemFormat : caseless itemFormatPattern.
Proof. unfold itemFormatPattern, Plus. simpl caseless. caseless_tac. Qed.

Lemma caseless_tsmFormat : caseless tsmFormatPattern.
Proof. unfold tsmFormatPattern, Plus. simpl caseless. caseless_tac. Qed.

End CaseFacts.
Import CaseFacts.

(** X5. The scans disregard the case of ASCII letters: two texts that differ
    only in it fire the markup heuristic alike and give the same captures to
    each of the four scans, so without markup the same result. *)
Theorem extractItemIds_case_insensitive (s t : jsstring) :
  sameUpToCase s t ->
  test isHTMLPattern s = test isHTMLPattern t
  /\ captures wowheadUrlPattern s = captures wowheadUrlPattern t
  /\ captures numberPattern s = captures numberPattern t
  /\ captures itemFormatPattern s = captures itemFormatPattern t
  /\ captures tsmFormatPattern s = captures tsmFormatPattern t
  /\ (test isHTMLPattern s = false ->
      forall parseAnchors parseAnchors',
        extractItemIds parseAnchors s = extractItemIds parseAnchors' t).
Proof.
  unfold sameUpToCase. intros H.
  assert (test isHTMLPattern s = test isHTMLPattern t) as T.
  { rewrite <- (test_up isHTMLPattern s caseless_isHTML), H.
    apply test_up, caseless_isHTML. }
  assert (forall r, caseless r -> CapturesPlus digit r -> captures r s = captures r t) as G.
  { intros r C CP. rewrite <- (digit_captures_up r s C CP), H.
    apply digit_captures_up; assumption. }
  pose proof (G _ caseless_wowheadUrl wowheadUrlPattern_digits) as G1.
  pose proof (G _ caseless_number numberPattern_digits) as G2.
  pose proof (G _ caseless_itemFormat itemFormatPattern_digits) as G3.
  pose proof (G _ caseless_tsmFormat tsmFormatPattern_digits) as G4.
  repeat (split; [assumption|]).
  intros F p p'. rewrite !extractItemIds_eq. unfold hrefIds.
  rewrite <- T, F, G1, G2, G3, G4. reflexivity.
Qed.

Lemma extractItemIds_case_insensitive_witness :
  extractItemIds noAnchors (js "ITEM:19019 WoWHead.com/Item=5")
  = extractItemIds noAnchors (js "item:19019 wowhead.com/item=5").
Proof.
  apply (extractItemIds_case_insensitive (js "ITEM:19019 WoWHead.com/Item=5")
           (js "item:19019 wowhead.com/item=5")).
  - reflexivity.
  - vm_compute. reflexivity.
Defined.

(** * Further properties of the resolver *)

Module EncodeFacts.

Lemma prepend_Normal p r e : prepend p r = Normal e -> exists e', r = Normal e' /\ e = p ++ e'.
Proof. destruct r; simpl; intros H; [injection H as <-; eauto | discriminate]. Qed.

Lemma prepend_Throw p r e : prepend p r = Throw e -> r = Throw e.
Proof. destruct r; simpl; intros H; [discriminate | exact H]. Qed.

Lemma unescaped_not_surrogate c :
  uriUnescaped c = true -> isLeadSurrogate c = false /\ isTrailSurrogate c = false.
Proof.
  unfold uriUnescaped, isLeadSurrogate, isTrailSurrogate. intros H.
  repeat rewrite orb_true_iff in H.
  assert ((c < 128)%N) as B.
  { destruct H as [[[H | H] | H] | H].
    - apply digit_range in H. lia.
    - apply lower_range in H. lia.
    - apply upper_range in H. lia.
    - apply existsb_exists in H. destruct H as (x & Hx & E). apply N.eqb_eq in E.
      subst x. vm_compute in Hx.
      repeat (destruct Hx as [<- | Hx]; [lia|]). contradiction. }
  split; apply andb_false_iff; left; apply N.leb_gt; lia.
Qed.

(** [encodeURIComponent] throws, and then URIError, exactly on a string that
    is not well formed. *)
Lemma encodeURIComponent_wellFormed n : forall s, length s < n ->
  if isWellFormed s then exists e, encodeURIComponent s = Normal e
  else encodeURIComponent s = Throw URIError.
Proof.
  induction n as [|n IH]; intros s L; [lia|].
  destruct s as [|c s]; [simpl; eauto|].
  simpl isWellFormed. simpl encodeURIComponent.
  assert (length s < n) as L1 by (simpl in L; lia).
  destruct (uriUnescaped c) eqn:U.
  - destruct (unescaped_not_surrogate c U) as [-> ->].
    specialize (IH s L1). destruct (isWellFormed s).
    + destruct IH as [e ->]. simpl. eauto.
    + rewrite IH. reflexivity.
  - destruct (isTrailSurrogate c) eqn:Tc.
    + destruct (isLeadSurrogate c) eqn:Lc; [|reflexivity].
      exfalso. unfold isLeadSurrogate, isTrailSurrogate in *.
      apply andb_true_iff in Tc, Lc. rewrite !N.leb_le in Tc, Lc. lia.
    + destruct (isLeadSurrogate c).
      * destruct s as [|d s]; [reflexivity|].
        destruct (isTrailSurrogate d); [|reflexivity]. simpl.
        assert (length s < n) as L2 by (simpl in L1; lia).
        specialize (IH s L2). destruct (isWellFormed s).
        -- destruct IH as [e ->]. simpl. eauto.
        -- rewrite IH. reflexivity.
      * specialize (IH s L1). destruct (isWellFormed s).
        -- destruct IH as [e ->]. simpl. eauto.
        -- rewrite IH. reflexivity.
Qed.

Lemma hexDigit_plain n : forall c, hexDigit n = c ->
  c <> 32%N /\ c <> 34%N /\ c <> 38%N /\ c <> 60%N /\ c <> 62%N.
Proof.
  intros c <-. unfold hexDigit. destruct (N.ltb_spec n 10); lia.
Qed.

Lemma unescaped_plain c : uriUnescaped c = true ->
  c <> 32%N /\ c <> 34%N /\ c <> 38%N /\ c <> 60%N /\ c <> 62%N.
Proof.
  unfold uriUnescaped. intros H. repeat rewrite orb_true_iff in H.
  destruct H as [[[H | H] | H] | H].
  - apply digit_range in H. lia.
  - apply lower_range in H. lia.
  - apply upper_range in H. lia.
  - apply existsb_exists in H. destruct H as (x & Hx & E). apply N.eqb_eq in E.
    subst x. vm_compute in Hx.
    repeat (destruct Hx as [<- | Hx]; [lia|]). contradiction.
Qed.

Lemma percent_plain octets : forall c, In c (flat_map percent octets) ->
  c <> 32%N /\ c <> 34%N /\ c <> 38%N /\ c <> 60%N /\ c <> 62%N.
Proof.
  induction octets as [|o octets IH]; intros c H; simpl in H; [contradiction|].
  destruct H as [<- | [H | [H | H]]]; [lia | | | apply IH, H];
    apply (hexDigit_plain _ _ H).
Qed.

(** The encoded string holds no space, double quote, ampersand or angle
    bracket. *)
Lemma encodeURIComponent_plain n : forall s e, length s < n ->
  encodeURIComponent s = Normal e ->
  forall c, In c e -> c <> 32%N /\ c <> 34%N /\ c <> 38%N /\ c <> 60%N /\ c <> 62%N.
Proof.
  induction n as [|n IH]; intros s e L H c Hc; [lia|].
  destruct s as [|a s]; [injection H as <-; contradiction|].
  simpl in H. assert (length s < n) as L1 by (simpl in L; lia).
  destruct (uriUnescaped a) eqn:U.
  - apply prepend_Normal in H. destruct H as (e' & H & ->).
    destruct Hc as [<- | Hc]; [apply unescaped_plain, U | exact (IH s e' L1 H c Hc)].
  - destruct (isTrailSurrogate a); [discriminate|].
    destruct (isLeadSurrogate a).
    + destruct s as [|d s]; [discriminate|].
      destruct (isTrailSurrogate d); [|discriminate].
      apply prepend_Normal in H. destruct H as (e' & H & ->).
      apply in_app_iff in Hc. destruct Hc as [Hc | Hc]; [apply (percent_plain _ _ Hc)|].
      assert (length s < n) as L2 by (simpl in L1; lia).
      exact (IH s e' L2 H c Hc).
    + apply prepend_Normal in H. destruct H as (e' & H & ->).
      apply in_app_iff in Hc. destruct Hc as [Hc | Hc]; [apply (percent_plain _ _ Hc)|].
      exact (IH s e' L1 H c Hc).
Qed.

End EncodeFacts.
Import EncodeFacts.

Module ResolverFacts.

Lemma Matches_Lit_only s : forall x y,
  Matches (Lit only s) x y -> after x = s ++ after y /\ group1 y = group1 x.
Proof.
  induction s as [|c s IH]; intros x y M; simpl in M.
  - inversion M; subst. auto.
  - apply Matches_Cat in M. destruct M as (y1 & M1 & M2).
    apply Matches_Chr_one in M1. destruct M1 as (a & E & Ha & G).
    apply IH in M2. destruct M2 as [E2 G2].
    unfold only in Ha. apply N.eqb_eq in Ha. subst a.
    rewrite E, E2, G2, G. auto.
Qed.

(** A match of the pattern of the fallback scan. *)
Lemma itemId_match x y :
  Matches itemIdPattern x y ->
  exists sep id,
    capture1 y = id /\ isItemId id
    /\ after x = js "/item" ++ sep :: id ++ after y
    /\ (sep = ch "=" \/ sep = ch "/").
Proof.
  unfold itemIdPattern. intros M.
  apply Matches_Cat in M. destruct M as (y1 & M1 & M).
  apply Matches_Cat in M. destruct M as (y2 & M2 & M3).
  apply Matches_Lit_only in M1. destruct M1 as [E1 _].
  apply Matches_Chr_one in M2. destruct M2 as (sep & E2 & Hs & _).
  apply Matches_Plus_group in M3. destruct M3 as (id & E3 & G & Hid).
  exists sep, id. unfold capture1. rewrite G, E1, E2, E3.
  repeat split; auto.
  - apply isDigits_Plus, Hid.
  - unfold only in Hs. apply orb_true_iff in Hs.
    destruct Hs as [Hs | Hs]; apply N.eqb_eq in Hs; auto.
Qed.

Lemma utf8_octets cp : (cp < 1114112)%N -> Forall (fun o => (o < 256)%N) (utf8 cp).
Proof.
  intros B. unfold utf8.
  destruct (N.ltb_spec cp 128); [repeat constructor; lia|].
  destruct (N.ltb_spec cp 2048).
  { assert (cp / 64 < 32)%N by (apply N.Div0.div_lt_upper_bound; lia).
    pose proof (N.mod_lt cp 64). repeat constructor; lia. }
  destruct (N.ltb_spec cp 65536).
  { assert (cp / 4096 < 16)%N by (apply N.Div0.div_lt_upper_bound; lia).
    pose proof (N.mod_lt cp 64). pose proof (N.mod_lt (cp / 64) 64).
    repeat constructor; lia. }
  assert (cp / 262144 < 5)%N by (apply N.Div0.div_lt_upper_bound; lia).
  pose proof (N.mod_lt cp 64). pose proof (N.mod_lt (cp / 64) 64).
  pose proof (N.mod_lt (cp / 4096) 64).
  repeat constructor; lia.
Qed.

Lemma percent_ascii octets :
  Forall (fun o => (o < 256)%N) octets ->
  Forall (fun c => (c < 128)%N) (flat_map percent octets).
Proof.
  induction 1 as [|o octets Ho H IH]; simpl; [constructor|].
  assert (o / 16 < 16)%N by (apply N.Div0.div_lt_upper_bound; lia).
  pose proof (N.mod_lt o 16).
  unfold hexDigit.
  repeat constructor; try exact IH;
    try (destruct (N.ltb_spec (o / 16) 10); lia);
    try (destruct (N.ltb_spec (o mod 16) 10); lia).
Qed.

Lemma unescaped_ascii c : uriUnescaped c = true -> (c < 128)%N.
Proof.
  unfold uriUnescaped. intros H. repeat rewrite orb_true_iff in H.
  destruct H as [[[H | H] | H] | H].
  - apply digit_range in H. lia.
  - apply lower_range in H. lia.
  - apply upper_range in H. lia.
  - apply existsb_exists in H. destruct H as (x & Hx & E). apply N.eqb_eq in E.
    subst x. vm_compute in Hx.
    repeat (destruct Hx as [<- | Hx]; [lia|]). contradiction.
Qed.

(** The encoding of a string of code units is ASCII. *)
Lemma encodeURIComponent_ascii n : forall s e, length s < n ->
  codeUnits s -> encodeURIComponent s = Normal e -> Forall (fun c => (c < 128)%N) e.
Proof.
  unfold codeUnits.
  induction n as [|n IH]; intros s e L CU H; [lia|].
  destruct s as [|a s]; [injection H as <-; constructor|].
  simpl in H. assert (length s < n) as L1 by (simpl in L; lia).
  inversion CU as [|? ? Ba CU1]; subst.
  destruct (uriUnescaped a) eqn:U.
  - apply prepend_Normal in H. destruct H as (e' & H & ->).
    constructor; [apply unescaped_ascii, U | exact (IH s e' L1 CU1 H)].
  - destruct (isTrailSurrogate a); [discriminate|].
    destruct (isLeadSurrogate a) eqn:La.
    + destruct s as [|d s]; [discriminate|].
      destruct (isTrailSurrogate d) eqn:Td; [|discriminate].
      apply prepend_Normal in H. destruct H as (e' & H & ->).
      inversion CU1 as [|? ? Bd CU2]; subst.
      assert (length s < n) as L2 by (simpl in L1; lia).
      apply Forall_app. split; [|exact (IH s e' L2 CU2 H)].
      apply percent_ascii, utf8_octets.
      unfold isLeadSurrogate, isTrailSurrogate in La, Td.
      apply andb_true_iff in La, Td. rewrite !N.leb_le in La, Td. lia.
    + apply prepend_Normal in H. destruct H as (e' & H & ->).
      apply Forall_app. split; [|exact (IH s e' L1 CU1 H)].
      apply percent_ascii, utf8_octets. lia.
Qed.

Lemma ascii_not_surrogate c :
  (c < 128)%N -> isLeadSurrogate c = false /\ isTrailSurrogate c = false.
Proof.
  intros B. unfold isLeadSurrogate, isTrailSurrogate.
  split; apply andb_false_iff; left; apply N.leb_gt; lia.
Qed.

Lemma ascii_wellFormed s : Forall (fun c => (c < 128)%N) s -> isWellFormed s = true.
Proof.
  induction 1 as [|c s Hc H IH]; [reflexivity|].
  simpl. destruct (ascii_not_surrogate c Hc) as [-> ->]. exact IH.
Qed.

Lemma ascii_encodes s :
  Forall (fun c => (c < 128)%N) s -> exists e, encodeURIComponent s = Normal e.
Proof.
  intros H. pose proof (encodeURIComponent_wellFormed (S (length s)) s (Nat.lt_succ_diag_r _)) as W.
  rewrite (ascii_wellFormed s H) in W. exact W.
Qed.

(** The encoding goes through an ASCII prefix. *)
Lemma encodeURIComponent_app a b :
  Forall (fun c => (c < 128)%N) a ->
  encodeURIComponent (a ++ b)
  = match encodeURIComponent a with
    | Normal x => prepend x (encodeURIComponent b)
    | Throw e => Throw e
    end.
Proof.
  induction 1 as [|c a Hc H IH]; simpl.
  - destruct (encodeURIComponent b); reflexivity.
  - destruct (ascii_not_surrogate c Hc) as [-> ->]. rewrite IH.
    destruct (uriUnescaped c); destruct (encodeURIComponent a) as [x|]; simpl;
      try reflexivity; destruct (encodeURIComponent b); simpl;
      rewrite <- ?app_assoc; reflexivity.
Qed.

Lemma lookupUrl_encodes encodedName twice :
  encodeURIComponent encodedName = Normal twice ->
  encodeURIComponent (lookupUrl encodedName) = Normal (encodedLookupPrefix ++ twice).
Proof.
  intros H. unfold lookupUrl. rewrite encodeURIComponent_app.
  - replace (encodeURIComponent (js "https://www.wowhead.com/items?filter=na="))
      with (Normal encodedLookupPrefix) by (vm_compute; reflexivity).
    rewrite H. reflexivity.
  - apply Forall_forall. intros c Hc. vm_compute in Hc.
    repeat (destruct Hc as [<- | Hc]; [reflexivity|]). contradiction.
Qed.

Lemma orValue_truthy a b : truthy b = true -> truthy (orValue a b) = true.
Proof. intros H. unfold orValue. destruct (truthy a) eqn:E; assumption. Qed.

Lemma fromListview_found J T html itemName id searchedName foundName :
  fromListview J T html itemName = Some (Found id searchedName foundName) ->
  searchedName = itemName /\ (itemName <> [] -> truthy foundName = true).
Proof.
  intros L. unfold fromListview, andThen in L.
  destruct (exec listviewPattern html) as [lm|]; [|discriminate].
  destruct (capture1 lm); [discriminate|].
  destruct (J _) as [data|]; [|discriminate].
  destruct data as [|data0 data]; [discriminate|].
  destruct (getProperty data0 _) as [idv|]; [|discriminate].
  destruct (truthy idv); [|discriminate].
  destruct (getProperty data0 _) as [n1|]; [|discriminate].
  destruct (getProperty data0 _) as [n2|]; [|discriminate].
  destruct (toString T idv); [|discriminate].
  injection L as <- <- <-. split; [reflexivity|]. intros Hne.
  apply orValue_truthy. destruct itemName; [congruence | reflexivity].
Qed.

Lemma fromListview_NotFound J T html itemName name err url :
  fromListview J T html itemName <> Some (NotFound name err url).
Proof.
  intros L. unfold fromListview, andThen in L.
  destruct (exec listviewPattern html) as [lm|]; [|discriminate].
  destruct (capture1 lm); [discriminate|].
  destruct (J _) as [data|]; [|discriminate].
  destruct data as [|data0 data]; [discriminate|].
  destruct (getProperty data0 _) as [idv|]; [|discriminate].
  destruct (truthy idv); [|discriminate].
  destruct (getProperty data0 _) as [n1|]; [|discriminate].
  destruct (getProperty data0 _) as [n2|]; [|discriminate].
  destruct (toString T idv); discriminate.
Qed.

Lemma searchWowheadForItemName_total J T fetch itemName :
  if isWellFormed itemName then
    exists r, searchWowheadForItemName J T fetch itemName = Normal r
  else searchWowheadForItemName J T fetch itemName = Throw URIError.
Proof.
  pose proof (encodeURIComponent_wellFormed (S (length itemName)) itemName
                (Nat.lt_succ_diag_r _)) as W.
  destruct (isWellFormed itemName).
  - destruct W as [enc Enc].
    destruct (searchWowheadForItemName_returns J T fetch itemName enc Enc) as (r & R & _).
    eauto.
  - apply searchWowheadForItemName_throws, W.
Qed.

End ResolverFacts.
Import ResolverFacts.

(** X6. The resolver throws exactly on a name that is not well-formed
    UTF-16, and then URIError; on every other name its outcome is a value
    that carries the name, whatever [fetch] and [JSON.parse] do. *)
Theorem searchWowheadForItemName_throws_iff_malformed
    (JSON_parse : jsstring -> completion (list value))
    (ToString_other : value -> completion jsstring)
    (fetch : jsstring -> completion response) (itemName : jsstring) :
  if isWellFormed itemName then
    exists r,
      searchWowheadForItemName JSON_parse ToString_other fetch itemName = Normal r
      /\ match r with
         | Found _ searchedName _ => searchedName = itemName
         | NotFound name _ _ => name = itemName
         end
  else searchWowheadForItemName JSON_parse ToString_other fetch itemName = Throw URIError.
Proof.
  pose proof (encodeURIComponent_wellFormed (S (length itemName)) itemName
                (Nat.lt_succ_diag_r _)) as W.
  destruct (isWellFormed itemName).
  - destruct W as [enc Enc].
    destruct (searchWowheadForItemName_returns JSON_parse ToString_other fetch
                itemName enc Enc) as (r & R & Shape).
    exists r. split; [exact R|]. destruct r; tauto.
  - apply searchWowheadForItemName_throws, W.
Qed.

(** X7. The failures of a lookup, for a name of code units that encodes:
    the search URL encodes again, the one request goes to the relay with
    that encoding, and nothing else of [fetch] matters; a rejected request, a
    response that is not OK and a body that cannot be read each give
    NotFound with the name, the reason and the search URL; a body that was
    read gives a found item, or NotFound with the reason No item found when
    it holds no item link. *)
Theorem searchWowheadForItemName_failure_reasons
    (JSON_parse : jsstring -> completion (list value))
    (ToString_other : value -> completion jsstring)
    (fetch : jsstring -> completion response) (itemName encodedName : jsstring) :
  codeUnits itemName ->
  encodeURIComponent itemName = Normal encodedName ->
  exists twice,
    encodeURIComponent encodedName = Normal twice
    /\ let url := relayUrl (encodedLookupPrefix ++ twice) in
       let result := searchWowheadForItemName JSON_parse ToString_other fetch itemName in
       let failure := fun reason => Normal (NotFound itemName reason (lookupUrl encodedName)) in
       (forall fetch' : jsstring -> completion response,
           fetch' url = fetch url ->
           searchWowheadForItemName JSON_parse ToString_other fetch' itemName = result)
       /\ match fetch url with
          | Throw e => result = failure (error_message e)
          | Normal resp =>
              if ok resp then
                match text resp with
                | Throw e => result = failure (error_message e)
                | Normal html =>
                    (exists id foundName, result = Normal (Found id itemName foundName))
                    \/ (result = failure (js "No item found")
                        /\ exec itemIdPattern html = None)
                end
              else result = failure (js "Response not OK")
          end.
Proof.
  intros CU Enc.
  pose proof (encodeURIComponent_ascii (S (length itemName)) itemName encodedName
                (Nat.lt_succ_diag_r _) CU Enc) as A.
  destruct (ascii_encodes encodedName A) as [twice Tw].
  exists twice. split; [exact Tw|].
  pose proof (lookupUrl_encodes encodedName twice Tw) as E.
  assert (forall f : jsstring -> completion response,
            searchWowheadForItemName JSON_parse ToString_other f itemName
            = match
                (do response <- f (relayUrl (encodedLookupPrefix ++ twice));
                 if negb (ok response) then Throw (Error (js "Error") (js "Response not OK"))
                 else
                   do html <- text response;
                   match fromListview JSON_parse ToString_other html itemName with
                   | Some r => Normal r
                   | None =>
                       match exec itemIdPattern html with
                       | Some itemIdMatch =>
                           Normal (Found (capture1 itemIdMatch) itemName (VString itemName))
                       | None =>
                           Normal (NotFound itemName (js "No item found") (lookupUrl encodedName))
                       end
                   end)
              with
              | Normal r => Normal r
              | Throw error =>
                  Normal (NotFound itemName (error_message error) (lookupUrl encodedName))
              end) as U.
  { intros f. unfold searchWowheadForItemName. rewrite Enc. unfold andThen at 1.
    fold (lookupUrl encodedName). unfold trySearch. rewrite E. reflexivity. }
  cbv zeta. split.
  - intros fetch' Hf. rewrite !U, Hf. reflexivity.
  - rewrite U. unfold andThen.
    destruct (fetch (relayUrl (encodedLookupPrefix ++ twice))) as [resp|e]; [|reflexivity].
    destruct (ok resp); cbn [negb]; [|reflexivity].
    destruct (text resp) as [html|e]; [|reflexivity].
    destruct (fromListview JSON_parse ToString_other html itemName) as [r|] eqn:L.
    + left. destruct r as [id sn fn | name err u].
      * destruct (fromListview_found JSON_parse ToString_other html itemName _ _ _ L)
          as [-> _].
        eauto.
      * exfalso. exact (fromListview_NotFound _ _ _ _ _ _ _ L).
    + destruct (exec itemIdPattern html); [left; eauto | right; auto].
Qed.

Lemma searchWowheadForItemName_failure_reasons_witness :
  searchWowheadForItemName noJSON plainToString (offline 0) (js "Thunderfury")
  = Normal (NotFound (js "Thunderfury") (js "Failed to fetch")
              (lookupUrl (js "Thunderfury"))).
Proof.
  destruct (searchWowheadForItemName_failure_reasons noJSON plainToString (offline 0)
              (js "Thunderfury") (js "Thunderfury")) as (twice & _ & _ & H).
  - apply Forall_forall. intros c Hc. vm_compute in Hc.
    repeat (destruct Hc as [<- | Hc]; [reflexivity|]). contradiction.
  - vm_compute. reflexivity.
  - exact H.
Defined.

(** * Markup written by the page *)

Module MarkupFacts.

Lemma startsWith_app t : forall s r, startsWith t s = true -> startsWith t (s ++ r) = true.
Proof.
  induction t as [|a t IH]; intros s r H; [reflexivity|].
  destruct s as [|b s]; [discriminate|]. simpl in *.
  apply andb_true_iff in H. destruct H as [-> H]. simpl. apply IH, H.
Qed.

Lemma opensOnly_app c allowed a b :
  opensOnly c allowed a = true -> opensOnly c allowed b = true ->
  opensOnly c allowed (a ++ b) = true.
Proof.
  intros Ha Hb. induction a as [|x a IH]; [exact Hb|].
  simpl in *. apply andb_true_iff in Ha. destruct Ha as [H1 H2].
  rewrite (IH H2), andb_true_r.
  destruct (x =? c)%N; [|reflexivity].
  apply existsb_exists in H1. destruct H1 as (t & Ht & S).
  apply existsb_exists. exists t. split; [exact Ht | apply startsWith_app, S].
Qed.

Lemma opensOnly_absent c allowed s :
  (forall x, In x s -> x <> c) -> opensOnly c allowed s = true.
Proof.
  induction s as [|a s IH]; intros H; [reflexivity|].
  simpl. rewrite IH by (intros x Hx; apply H; right; exact Hx).
  destruct (N.eqb_spec a c) as [E|_]; [|reflexivity].
  exfalso. apply (H a); [left; reflexivity | exact E].
Qed.

Lemma escapeText_cons c s :
  escapeText (c :: s)
  = (if (c =? 38)%N then js "&amp;"
     else if (c =? 160)%N then js "&nbsp;"
     else if (c =? 60)%N then js "&lt;"
     else if (c =? 62)%N then js "&gt;"
     else [c]) ++ escapeText s.
Proof. reflexivity. Qed.

Lemma escapeText_plain s :
  forall c, In c (escapeText s) -> c <> 60%N /\ c <> 62%N /\ c <> 160%N.
Proof.
  induction s as [|a s IH]; intros c H; [contradiction|].
  rewrite escapeText_cons in H. apply in_app_iff in H.
  destruct H as [H | H]; [|exact (IH c H)].
  destruct (N.eqb_spec a 38); [|destruct (N.eqb_spec a 160);
    [|destruct (N.eqb_spec a 60); [|destruct (N.eqb_spec a 62)]]];
    vm_compute in H;
    repeat (destruct H as [<- | H]; [repeat split; (discriminate || assumption)|]);
    contradiction.
Qed.

Lemma escapeText_entities s : opensOnly 38 textEntities (escapeText s) = true.
Proof.
  induction s as [|a s IH]; [reflexivity|].
  rewrite escapeText_cons. apply opensOnly_app; [|exact IH].
  destruct (N.eqb_spec a 38); [reflexivity|].
  destruct (N.eqb_spec a 160); [reflexivity|].
  destruct (N.eqb_spec a 60); [reflexivity|].
  destruct (N.eqb_spec a 62); [reflexivity|].
  apply opensOnly_absent. intros x [<- | []]. assumption.
Qed.

Lemma escapeText_length s : length s <= length (escapeText s).
Proof.
  induction s as [|a s IH]; [reflexivity|].
  rewrite escapeText_cons, length_app.
  destruct (a =? 38)%N; [|destruct (a =? 160)%N;
    [|destruct (a =? 60)%N; [|destruct (a =? 62)%N]]]; simpl; lia.
Qed.

Lemma escapeText_same s :
  (forall c, In c s -> c <> 38%N /\ c <> 160%N /\ c <> 60%N /\ c <> 62%N) ->
  escapeText s = s.
Proof.
  induction s as [|a s IH]; intros H; [reflexivity|].
  rewrite escapeText_cons, IH by (intros c Hc; apply H; right; exact Hc).
  destruct (H a (or_introl eq_refl)) as (H1 & H2 & H3 & H4).
  apply N.eqb_neq in H1, H2, H3, H4. rewrite H1, H2, H3, H4. reflexivity.
Qed.

Lemma escapeText_injective s : forall t, escapeText s = escapeText t -> s = t.
Proof.
  induction s as [|a s IH]; intros t H.
  - destruct t as [|b t]; [reflexivity|]. rewrite escapeText_cons in H.
    destruct (b =? 38)%N; [|destruct (b =? 160)%N;
      [|destruct (b =? 60)%N; [|destruct (b =? 62)%N]]]; discriminate.
  - destruct t as [|b t].
    + rewrite escapeText_cons in H.
      destruct (a =? 38)%N; [|destruct (a =? 160)%N;
        [|destruct (a =? 60)%N; [|destruct (a =? 62)%N]]]; discriminate.
    + rewrite !escapeText_cons in H.
      destruct (N.eqb_spec a 38); [|destruct (N.eqb_spec a 160);
        [|destruct (N.eqb_spec a 60); [|destruct (N.eqb_spec a 62)]]];
      (destruct (N.eqb_spec b 38); [|destruct (N.eqb_spec b 160);
        [|destruct (N.eqb_spec b 60); [|destruct (N.eqb_spec b 62)]]]);
      cbn in H; try discriminate; try congruence;
      injection H as H; try congruence;
      f_equal; try congruence; apply IH; congruence.
Qed.

End MarkupFacts.
Import MarkupFacts.

(** X10. [escapeHtml] leaves no angle bracket and no no-break space in its
    result, every ampersand of the result opens one of the four character
    references it writes, the result is no shorter than the text, and a text
    without ampersand, angle bracket and no-break space comes back as it
    is. *)
Theorem escapeHtml_text_only (text : jsstring) :
  (forall c, In c (escapeHtml text) -> c <> ch "<" /\ c <> ch ">" /\ c <> 160%N)
  /\ opensOnly (ch "&") textEntities (escapeHtml text) = true
  /\ length text <= length (escapeHtml text)
  /\ ((forall c, In c text -> c <> ch "&" /\ c <> 160%N /\ c <> ch "<" /\ c <> ch ">") ->
      escapeHtml text = text).
Proof.
  unfold escapeHtml. split; [apply escapeText_plain|].
  split; [apply escapeText_entities|].
  split; [apply escapeText_length | apply escapeText_same].
Qed.

Lemma escapeHtml_text_only_witness :
  escapeHtml (js "Thunderfury, Blessed Blade") = js "Thunderfury, Blessed Blade".
Proof.
  apply (escapeHtml_text_only (js "Thunderfury, Blessed Blade")).
  intros c Hc. vm_compute in Hc.
  repeat (destruct Hc as [<- | Hc]; [repeat split; discriminate|]). contradiction.
Defined.

(** X11. [escapeHtml] loses nothing: two different texts have different
    escaped forms. *)
Theorem escapeHtml_injective (text text' : jsstring) :
  text <> text' -> escapeHtml text <> escapeHtml text'.
Proof. unfold escapeHtml. intros N E. apply N, escapeText_injective, E. Qed.

Lemma escapeHtml_injective_witness :
  js "<" <> js "&lt;" /\ escapeHtml (js "<") <> escapeHtml (js "&lt;").
Proof.
  split; [discriminate|].
  apply (escapeHtml_injective (js "<") (js "&lt;")). discriminate.
Defined.

Module LinkFacts.

Lemma count_none (s : jsstring) c :
  (forall x, In x s -> x <> c) -> count_occ N.eq_dec s c = 0.
Proof. intros H. apply count_occ_not_In. intros I. exact (H c I eq_refl). Qed.

Lemma list_sum_const (A : Type) (f : A -> nat) k l :
  Forall (fun x => f x = k) l -> list_sum (map f l) = k * length l.
Proof.
  induction 1 as [|x l Hx H IH]; simpl; [lia|]. rewrite Hx, IH. lia.
Qed.

Lemma join_cons sep x y l : join sep (x :: y :: l) = x ++ sep ++ join sep (y :: l).
Proof. reflexivity. Qed.

Lemma count_join sep c l :
  count_occ N.eq_dec sep c = 0 ->
  count_occ N.eq_dec (join sep l) c = list_sum (map (fun s => count_occ N.eq_dec s c) l).
Proof.
  intros Hs. induction l as [|x l IH]; [reflexivity|].
  destruct l as [|y l].
  - simpl. lia.
  - rewrite join_cons, !count_occ_app, IH, Hs. reflexivity.
Qed.

Lemma opensOnly_join c allowed sep l :
  opensOnly c allowed sep = true ->
  Forall (fun s => opensOnly c allowed s = true) l ->
  opensOnly c allowed (join sep l) = true.
Proof.
  intros Hs. induction 1 as [|x l Hx H IH]; [reflexivity|].
  destruct l as [|y l]; [exact Hx|].
  rewrite join_cons. repeat apply opensOnly_app; assumption.
Qed.

(** The lookup URL of a name holds no space, double quote, ampersand or
    angle bracket. *)
Lemma lookupUrl_plain itemName encodedName :
  encodeURIComponent itemName = Normal encodedName ->
  forall c, In c (lookupUrl encodedName) ->
    c <> 32%N /\ c <> 34%N /\ c <> 38%N /\ c <> 60%N /\ c <> 62%N.
Proof.
  intros E c H. unfold lookupUrl in H. apply in_app_iff in H. destruct H as [H | H].
  - vm_compute in H.
    repeat (destruct H as [<- | H]; [repeat split; discriminate|]). contradiction.
  - exact (encodeURIComponent_plain (S (length itemName)) itemName encodedName
             (Nat.lt_succ_diag_r _) E c H).
Qed.

Lemma searchLink_eq item :
  searchLink item
  = (js "<a href=" ++ dq) ++ failedUrl item ++ linkAttributes
    ++ escapeHtml (failedName item) ++ js "</a>".
Proof.
  unfold searchLink, linkAttributes. repeat rewrite <- app_assoc. reflexivity.
Qed.

Lemma searchLink_markup item :
  (forall c, In c (failedUrl item) -> c <> 60%N /\ c <> 62%N) ->
  count_occ N.eq_dec (searchLink item) 60%N = 2
  /\ count_occ N.eq_dec (searchLink item) 62%N = 2
  /\ opensOnly 60 messageTags (searchLink item) = true.
Proof.
  intros H. rewrite searchLink_eq.
  pose proof (escapeText_plain (failedName item)) as P. fold (escapeHtml (failedName item)) in P.
  split; [|split].
  - rewrite !count_occ_app.
    rewrite (count_none (failedUrl item)) by (intros x Hx; apply H, Hx).
    rewrite (count_none (escapeHtml (failedName item))) by (intros x Hx; apply P, Hx).
    reflexivity.
  - rewrite !count_occ_app.
    rewrite (count_none (failedUrl item)) by (intros x Hx; apply H, Hx).
    rewrite (count_none (escapeHtml (failedName item))) by (intros x Hx; apply P, Hx).
    reflexivity.
  - apply opensOnly_app; [reflexivity|].
    apply opensOnly_app; [apply opensOnly_absent; intros x Hx; apply H, Hx|].
    apply opensOnly_app; [reflexivity|].
    apply opensOnly_app; [apply opensOnly_absent; intros x Hx; apply P, Hx|].
    reflexivity.
Qed.

Lemma formatSearchLinks_plain_urls failedSearches :
  Forall (fun item => forall c, In c (failedUrl item) -> c <> 60%N /\ c <> 62%N)
    failedSearches ->
  count_occ N.eq_dec (formatSearchLinks failedSearches) 60%N = 2 * length failedSearches
  /\ count_occ N.eq_dec (formatSearchLinks failedSearches) 62%N = 2 * length failedSearches
  /\ opensOnly 60 messageTags (formatSearchLinks failedSearches) = true.
Proof.
  intros H. unfold formatSearchLinks.
  rewrite !count_join by reflexivity.
  split; [|split].
  - rewrite map_map. apply list_sum_const.
    eapply Forall_impl; [|exact H]. intros item Hi. apply (searchLink_markup item Hi).
  - rewrite map_map. apply list_sum_const.
    eapply Forall_impl; [|exact H]. intros item Hi. apply (searchLink_markup item Hi).
  - apply opensOnly_join; [reflexivity|].
    apply Forall_map. eapply Forall_impl; [|exact H].
    intros item Hi. apply (searchLink_markup item Hi).
Qed.

End LinkFacts.
Import LinkFacts.



(** * Further properties of the orchestration *)

Module OrchestrationFacts.

Lemma dropWhile_nil c s : dropWhile c s = [] <-> forallb c s = true.
Proof.
  induction s as [|a s IH]; simpl; [tauto|].
  destruct (c a); simpl; [exact IH|]. split; discriminate.
Qed.

Lemma dropWhile_head c s a t : dropWhile c s = a :: t -> c a = false.
Proof.
  induction s as [|b s IH]; simpl; [discriminate|].
  destruct (c b) eqn:E; [exact IH|]. intros H. injection H as -> _. exact E.
Qed.

(** [trim] leaves nothing exactly of a string of white space. *)
Lemma trim_blank s : trim s = [] <-> forallb space s = true.
Proof.
  unfold trim. split.
  - intros H. apply dropWhile_nil.
    destruct (dropWhile space s) as [|a t] eqn:E; [reflexivity|].
    apply dropWhile_head in E.
    assert (dropWhile space (rev (a :: t)) = []) as D.
    { destruct (dropWhile space (rev (a :: t))); [reflexivity|].
      apply (f_equal (@length N)) in H. rewrite length_rev in H. discriminate. }
    apply dropWhile_nil in D. rewrite forallb_forall in D.
    rewrite (D a) in E; [discriminate|]. apply -> in_rev. left. reflexivity.
  - intros H. apply dropWhile_nil in H. rewrite H. reflexivity.
Qed.

(** Where the loop of the lookups puts each name. *)
Lemma resolveAll_accounts J T fetch names : forall n ids failed found ids' failed' found',
  resolveAll J T fetch n names ids failed found = Normal (ids', failed', found') ->
  exists addedFailed addedFound,
    failed' = failed ++ addedFailed /\ found' = found ++ addedFound
    /\ length addedFailed + length addedFound = length names
    /\ Forall reported addedFailed
    /\ (forall name, In name names <->
                     In name (map failedName addedFailed)
                     \/ In name (map itemSearchedName addedFound))
    /\ (forall id, In id ids' <-> In id ids \/ In id (map itemId addedFound))
    /\ (NoDup ids -> NoDup ids').
Proof.
  induction names as [|itemName names IH]; intros n ids failed found ids' failed' found' H;
    simpl in H.
  - injection H as -> -> ->. exists [], []. rewrite !app_nil_r.
    repeat split; simpl; try tauto. constructor.
  - destruct (encodeURIComponent itemName) as [enc|e] eqn:Enc.
    2:{ rewrite (searchWowheadForItemName_throws J T (fetch n) itemName e Enc) in H.
        discriminate. }
    destruct (searchWowheadForItemName_returns J T (fetch n) itemName enc Enc)
      as (res & R & Shape).
    rewrite R in H. simpl in H. destruct res as [id searched foundName | name err url].
    + subst searched. apply IH in H.
      destruct H as (aFailed & aFound & -> & -> & L & Rep & Hn & Hi & ND).
      exists aFailed, (FoundItem itemName foundName id :: aFound).
      rewrite <- app_assoc. simpl.
      split; [reflexivity|]. split; [reflexivity|]. split; [lia|].
      split; [exact Rep|]. split; [|split].
      * intros name. rewrite Hn. intuition congruence.
      * intros i. rewrite Hi, In_Set_add. intuition congruence.
      * intros N0. apply ND, NoDup_Set_add, N0.
    + destruct Shape as [-> ->]. apply IH in H.
      destruct H as (aFailed & aFound & -> & -> & L & Rep & Hn & Hi & ND).
      exists (FailedSearch itemName (lookupUrl enc) :: aFailed), aFound.
      rewrite <- app_assoc. simpl.
      split; [reflexivity|]. split; [reflexivity|]. split; [lia|].
      split; [constructor; [exists enc; auto | exact Rep]|].
      split; [|split; [exact Hi | exact ND]].
      intros name. rewrite Hn. intuition congruence.
Qed.

(** The loop throws only what the encoding of a name throws. *)
Lemma resolveAll_throws J T fetch names : forall n ids failed found e,
  resolveAll J T fetch n names ids failed found = Throw e ->
  e = URIError /\ exists name, In name names /\ isWellFormed name = false.
Proof.
  induction names as [|itemName names IH]; intros n ids failed found e H; simpl in H;
    [discriminate|].
  pose proof (searchWowheadForItemName_total J T (fetch n) itemName) as W.
  destruct (isWellFormed itemName) eqn:WF.
  - destruct W as (r & R). rewrite R in H. simpl in H.
    destruct r; apply IH in H; destruct H as (-> & bad & I & F);
      (split; [reflexivity|]); exists bad; simpl; auto.
  - rewrite W in H. simpl in H. injection H as <-.
    split; [reflexivity|]. exists itemName. simpl. auto.
Qed.

Lemma foundItemsList_throws T found e :
  foundItemsList T found = Throw e -> exists v, T v = Throw e.
Proof.
  induction found as [|item found IH]; simpl; [discriminate|].
  unfold andThen, escapeHtmlValue, toString.
  destruct (itemFoundName item) as [| |b|x|s|items|props] eqn:E; simpl;
    try (destruct (foundItemsList T found); [discriminate | exact IH]);
    match goal with |- context [T ?v] => destruct (T v) eqn:Tv end;
    simpl; try (intros H; injection H as <-; eauto);
    destruct (foundItemsList T found); try discriminate; exact IH.
Qed.

End OrchestrationFacts.
Import OrchestrationFacts.

Module RunFacts.

(** Past the guard: the two extractions, the lookups, the rendering. *)
Lemma convertToTSM_steps pa J T other fetch p :
  trim (input p) <> [] ->
  exists ids names,
    extractItemIds pa (input p) = Some ids /\ NoDup ids
    /\ extractItemNames (input p) = Some names
    /\ convertToTSM pa J T other fetch p
       = match resolveAll J T fetch 0 names ids [] [] with
         | Throw e => Some (Rejected (announced names p) e)
         | Normal (itemIds, failedSearches, foundItems) =>
             Some (render T other itemIds failedSearches foundItems (announced names p))
         end.
Proof.
  intros B. destruct (extractItemIds_wellformed pa (input p)) as (ids & E & D & ND).
  exists ids, (captures itemNamePattern (input p)).
  split; [exact E|]. split; [exact ND|]. split; [apply extractItemNames_eq|].
  unfold convertToTSM. destruct (trim (input p)); [congruence|].
  rewrite E, extractItemNames_eq. unfold bind, announced. reflexivity.
Qed.

Lemma announced_keeps names p :
  input (announced names p) = input p /\ output (announced names p) = output p
  /\ itemCount (announced names p) = itemCount p
  /\ uniqueCount (announced names p) = uniqueCount p.
Proof. unfold announced. destruct (0 <? length names); repeat split. Qed.

(** What a rendering that completes leaves on the page. *)
Lemma render_Done T other ids failed found p p' :
  render T other ids failed found p = Done p' ->
  input p' = input p
  /\ output p' = tsmFormat (sort other ids)
  /\ itemCount p' = decimal (length ids)
  /\ uniqueCount p' = decimal (length ids)
  /\ className (messageEl p')
     = match ids, failed with
       | [], _ => js "message error show"
       | _ :: _, _ :: _ => js "message info show"
       | _ :: _, [] => js "message success show"
       end
  /\ asHTML (messageEl p')
     = match ids, failed, found with
       | [], [], _ => false
       | _ :: _, [], [] => false
       | _, _, _ => true
       end.
Proof.
  unfold render. pose proof (sort_perm other ids) as P.
  destruct ids as [|id ids].
  - change (sort other []) with (@nil jsstring). cbn [length Nat.eqb andb].
    destruct failed as [|f failed]; cbn [length Nat.ltb Nat.leb];
      intros H; injection H as <-; repeat split.
  - rewrite <- (Permutation_length P).
    destruct (sort other (id :: ids)) as [|id0 sortedIds] eqn:E.
    { apply Permutation_nil in P. discriminate. }
    cbn [length Nat.eqb andb].
    destruct (if 0 <? length found then foundItemsList T found else Normal [])
      as [list|e]; [|discriminate].
    destruct failed as [|f failed]; cbn [length Nat.ltb Nat.leb];
      [destruct found as [|i found]; cbn [length Nat.ltb Nat.leb]|];
      intros H; injection H as <-; repeat split.
Qed.

(** What a rendering that is rejected leaves on the page. *)
Lemma render_Rejected T other ids failed found p p' e :
  render T other ids failed found p = Rejected p' e ->
  foundItemsList T found = Throw e
  /\ input p' = input p
  /\ output p' = tsmFormat (sort other ids)
  /\ itemCount p' = uniqueCount p'.
Proof.
  unfold render.
  destruct ((length (sort other ids) =? 0) && (0 <? length failed)); [discriminate|].
  destruct (length (sort other ids) =? 0); [discriminate|].
  destruct (0 <? length found).
  - destruct (foundItemsList T found) as [list|e'].
    + destruct (0 <? length failed); discriminate.
    + intros H. injection H as <- <-. repeat split.
  - destruct (0 <? length failed); discriminate.
Qed.

(** Every run ends, completed or rejected. *)
Lemma convertToTSM_ends pa J T other fetch p :
  exists r, convertToTSM pa J T other fetch p = Some r.
Proof.
  destruct (trim (input p)) as [|c t] eqn:B.
  - eexists. unfold convertToTSM. rewrite B. reflexivity.
  - assert (trim (input p) <> []) as NB by (rewrite B; discriminate).
    destruct (convertToTSM_steps pa J T other fetch p NB) as (ids & names & _ & _ & _ & E).
    rewrite E. destruct (resolveAll J T fetch 0 names ids [] []) as [[[ids' failed] found]|e];
      eauto.
Qed.

End RunFacts.
Import RunFacts.

(** X13. The loop of the lookups accounts for every name: each bracketed
    name ends up among the failed searches, with the lookup URL of the name,
    or among the found items, one entry for each name; the merged set holds
    the IDs it started from and the IDs of the found items and nothing else,
    and it stays free of duplicates. *)
Theorem resolveAll_accounts_for_every_name
    (JSON_parse : jsstring -> completion (list value))
    (ToString_other : value -> completion jsstring)
    (fetch : nat -> jsstring -> completion response)
    (itemNames : list jsstring) (itemIds itemIds' : JSSet)
    (failedSearches : list failedSearch) (foundItems : list foundItem) :
  resolveAll JSON_parse ToString_other fetch 0 itemNames itemIds [] []
  = Normal (itemIds', failedSearches, foundItems) ->
  length failedSearches + length foundItems = length itemNames
  /\ Forall reported failedSearches
  /\ (forall name, In name itemNames <->
                   In name (map failedName failedSearches)
                   \/ In name (map itemSearchedName foundItems))
  /\ (forall id, In id itemIds' <-> In id itemIds \/ In id (map itemId foundItems))
  /\ (NoDup itemIds -> NoDup itemIds').
Proof.
  intros H. apply resolveAll_accounts in H.
  destruct H as (aFailed & aFound & -> & -> & L & Rep & Hn & Hi & ND).
  simpl. auto.
Qed.

Lemma resolveAll_accounts_for_every_name_witness :
  length (@nil failedSearch)
  + length [FoundItem (js "Thunderfury") (VString (js "Thunderfury")) (js "19019-2")]
  = length [js "Thunderfury"].
Proof.
  apply (resolveAll_accounts_for_every_name oddJSON plainToString oddFetch
           [js "Thunderfury"] [] [js "19019-2"] []
           [FoundItem (js "Thunderfury") (VString (js "Thunderfury")) (js "19019-2")]).
  vm_compute. reflexivity.
Defined.

(** X14. What every run of [convertToTSM] keeps: it ends, completed or
    rejected; it never changes the input; the two counts, once equal, stay
    equal; and a completed run on input that is not blank leaves either an
    empty output, the count 0 and an error message, or the rendering of a
    non-empty list of distinct IDs, their number as the count, and an info
    or success message. *)
Theorem convertToTSM_page_invariants
    (parseAnchors : jsstring -> completion (list jsstring))
    (JSON_parse : jsstring -> completion (list value))
    (ToString_other : value -> completion jsstring)
    (other : jsstring -> number)
    (fetch : nat -> jsstring -> completion response) (p : page) :
  exists r,
    convertToTSM parseAnchors JSON_parse ToString_other other fetch p = Some r
    /\ input (pageOf r) = input p
    /\ (itemCount p = uniqueCount p -> itemCount (pageOf r) = uniqueCount (pageOf r))
    /\ forall p', r = Done p' -> trim (input p) <> [] ->
         (output p' = [] /\ itemCount p' = js "0"
          /\ className (messageEl p') = js "message error show")
         \/ exists ids,
              ids <> [] /\ NoDup ids
              /\ output p' = tsmFormat ids
              /\ itemCount p' = decimal (length ids)
              /\ (className (messageEl p') = js "message info show"
                  \/ className (messageEl p') = js "message success show").
Proof.
  destruct (trim (input p)) as [|c t] eqn:B.
  - eexists. split; [unfold convertToTSM; rewrite B; reflexivity|].
    split; [reflexivity|]. split; [intros H; exact H|]. intros p' _ N. congruence.
  - assert (trim (input p) <> []) as NB by (rewrite B; discriminate).
    rewrite <- B.
    destruct (convertToTSM_steps parseAnchors JSON_parse ToString_other other fetch p NB)
      as (ids & names & _ & ND & _ & E).
    rewrite E. clear E.
    destruct (announced_keeps names p) as (A1 & A2 & A3 & A4).
    destruct (resolveAll JSON_parse ToString_other fetch 0 names ids [] [])
      as [[[ids' failed] found]|e] eqn:R.
    2:{ eexists. split; [reflexivity|]. split; [exact A1|].
        split; [simpl; congruence|]. intros p' H. discriminate. }
    apply resolveAll_accounts in R.
    destruct R as (_ & _ & _ & _ & _ & _ & _ & _ & ND').
    specialize (ND' ND).
    destruct (render ToString_other other ids' failed found (announced names p))
      as [q|q e] eqn:Rn.
    + exists (Done q). split; [reflexivity|].
      apply render_Done in Rn. destruct Rn as (I & O & C1 & C2 & Cl & _).
      split; [simpl; congruence|]. split; [simpl; congruence|].
      intros p' H _. injection H as <-.
      pose proof (sort_perm other ids') as P.
      destruct ids' as [|id ids'].
      * left. rewrite O, C1. auto.
      * right. exists (sort other (id :: ids')).
        split; [intros Z; rewrite Z in P; apply Permutation_nil in P; discriminate|].
        split; [apply (Permutation_NoDup (Permutation_sym P)), ND'|].
        split; [exact O|]. rewrite (Permutation_length P).
        split; [exact C1|]. destruct failed; auto.
    + exists (Rejected q e). split; [reflexivity|].
      apply render_Rejected in Rn. destruct Rn as (_ & I & _ & C).
      split; [simpl; congruence|]. split; [intros _; exact C|].
      intros p' H. discriminate.
Qed.

Lemma convertToTSM_page_invariants_witness :
  exists r,
    convertToTSM noAnchors noJSON plainToString notANumber offline
      (Page (js "42 [Thunderfury] 42") [] (js "7") (js "7") (MessageBox [] false []))
    = Some r
    /\ itemCount (pageOf r) = uniqueCount (pageOf r).
Proof.
  destruct (convertToTSM_page_invariants noAnchors noJSON plainToString notANumber offline
              (Page (js "42 [Thunderfury] 42") [] (js "7") (js "7") (MessageBox [] false [])))
    as (r & E & _ & C & _).
  exists r. split; [exact E | apply C; reflexivity].
Defined.

(** X15. A run of [convertToTSM] is rejected only with the URIError of a
    bracketed name that is not well-formed UTF-16, the output left as it
    was, or with what [ToString] throws on a display name; when every name
    is well formed and [ToString] does not throw, the run completes. *)
Theorem convertToTSM_rejections
    (parseAnchors : jsstring -> completion (list jsstring))
    (JSON_parse : jsstring -> completion (list value))
    (ToString_other : value -> completion jsstring)
    (other : jsstring -> number)
    (fetch : nat -> jsstring -> completion response) (p : page) :
  exists itemNames,
    extractItemNames (input p) = Some itemNames
    /\ (forall p' e,
          convertToTSM parseAnchors JSON_parse ToString_other other fetch p
          = Some (Rejected p' e) ->
          (e = URIError /\ output p' = output p
           /\ exists name, In name itemNames /\ isWellFormed name = false)
          \/ exists v, ToString_other v = Throw e)
    /\ ((forall name, In name itemNames -> isWellFormed name = true) ->
        (forall v, exists s, ToString_other v = Normal s) ->
        exists p',
          convertToTSM parseAnchors JSON_parse ToString_other other fetch p
          = Some (Done p')).
Proof.
  exists (captures itemNamePattern (input p)). split; [apply extractItemNames_eq|].
  assert (forall p' e,
            convertToTSM parseAnchors JSON_parse ToString_other other fetch p
            = Some (Rejected p' e) ->
            (e = URIError /\ output p' = output p
             /\ exists name, In name (captures itemNamePattern (input p))
                             /\ isWellFormed name = false)
            \/ exists v, ToString_other v = Throw e) as Rej.
  { intros p' e H.
    destruct (trim (input p)) as [|c t] eqn:B.
    { unfold convertToTSM in H. rewrite B in H. discriminate. }
    assert (trim (input p) <> []) as NB by (rewrite B; discriminate).
    destruct (convertToTSM_steps parseAnchors JSON_parse ToString_other other fetch p NB)
      as (ids & names & _ & _ & En & E).
    rewrite extractItemNames_eq in En. injection En as <-.
    rewrite E in H. clear E.
    destruct (resolveAll JSON_parse ToString_other fetch 0
                (captures itemNamePattern (input p)) ids [] [])
      as [[[ids' failed] found]|e'] eqn:R.
    - injection H as H. apply render_Rejected in H. destruct H as (F & _).
      right. exact (foundItemsList_throws _ _ _ F).
    - injection H as <- <-. apply resolveAll_throws in R. destruct R as (-> & bad).
      left. split; [reflexivity|]. split; [apply announced_keeps | exact bad]. }
  split; [exact Rej|].
  intros WF Tot.
  destruct (convertToTSM_ends parseAnchors JSON_parse ToString_other other
              fetch p) as [r E].
  destruct r as [p'|p' e]; [eauto|]. exfalso.
  destruct (Rej p' e E) as [(_ & _ & name & I & F) | (v & Tv)].
  - rewrite (WF name I) in F. discriminate.
  - destruct (Tot v) as [s Ts]. congruence.
Qed.

Lemma convertToTSM_rejections_witness :
  exists p',
    convertToTSM noAnchors oddJSON plainToString notANumber oddFetch
      (Page (js "[Thunderfury]") [] [] [] (MessageBox [] false []))
    = Some (Done p').
Proof.
  destruct (convertToTSM_rejections noAnchors oddJSON plainToString notANumber oddFetch
              (Page (js "[Thunderfury]") [] [] [] (MessageBox [] false [])))
    as (names & En & _ & H).
  vm_compute in En. injection En as <-.
  apply H.
  - intros name [<- | []]. reflexivity.
  - intros v. eexists. reflexivity.
Defined.

Module MessageFacts.

Lemma render_content_head T other ids failed found p p' :
  render T other ids failed found p = Done p' ->
  exists c rest,
    content (messageEl p') = c :: rest /\ (c = ch "C" \/ c = ch "N" \/ c = ch "S").
Proof.
  unfold render.
  destruct ((length (sort other ids) =? 0) && (0 <? length failed)).
  { intros H. injection H as <-. eexists _, _. split; [reflexivity | auto]. }
  destruct (length (sort other ids) =? 0).
  { intros H. injection H as <-. eexists _, _. split; [reflexivity | auto]. }
  destruct (if 0 <? length found then foundItemsList T found else Normal [])
    as [list|e]; [|discriminate].
  destruct (0 <? length failed); [|destruct (0 <? length found)];
    intros H; injection H as <-; eexists _, _; (split; [reflexivity | auto]).
Qed.

Lemma itemName_captures_need_brackets text :
  ~ In (ch "[") text \/ ~ In (ch "]") text -> captures itemNamePattern text = [].
Proof.
  intros H.
  assert (Forall (fun itemName =>
                    exists pre post,
                      standsIn text pre (ch "[" :: itemName ++ [ch "]"]) post)
            (captures itemNamePattern text)) as F.
  { apply (captures_text itemNamePattern
             (fun text itemName =>
                exists pre post,
                  standsIn text pre (ch "[" :: itemName ++ [ch "]"]) post)).
    intros x y _ M. apply itemName_match in M. destruct M as (s & -> & E).
    exists (rev (before x)), (after y). unfold standsIn. rewrite E.
    simpl. rewrite <- app_assoc. reflexivity. }
  destruct (captures itemNamePattern text) as [|n names]; [reflexivity|].
  inversion F as [|? ? (pre & post & E) _]; subst. unfold standsIn in E.
  exfalso. destruct H as [H | H]; apply H; rewrite E; rewrite !in_app_iff; simpl.
  - auto.
  - right. left. right. rewrite in_app_iff. simpl. auto.
Qed.

Lemma render_no_lookups T T' other ids p :
  render T other ids [] [] p = render T' other ids [] [] p.
Proof.
  unfold render. cbn [length Nat.ltb Nat.leb andb]. rewrite !andb_false_r. reflexivity.
Qed.

Lemma Normal_eq (A : Type) (x y : A) : @Normal A x = Normal y -> x = y.
Proof. congruence. Qed.

Lemma Done_eq p q : Done p = Done q -> p = q.
Proof. congruence. Qed.

Lemma Some_eq (A : Type) (x y : A) : Some x = Some y -> x = y.
Proof. congruence. Qed.

Lemma js_String c s : js (String c s) = N_of_ascii c :: js s.
Proof. reflexivity. Qed.

Lemma string_of_uint_digits u :
  Forall (fun c => digit c = true) (js (NilEmpty.string_of_uint u)).
Proof.
  induction u; cbn [NilEmpty.string_of_uint]; [constructor|..];
    rewrite js_String; (constructor; [reflexivity | assumption]).
Qed.

Lemma decimal_digits n : Forall (fun c => digit c = true) (decimal n).
Proof.
  unfold decimal, NilZero.string_of_uint.
  destruct (Nat.to_uint n) eqn:E; try (rewrite <- E; clear E);
    [repeat constructor|..]; apply string_of_uint_digits.
Qed.

Lemma decimal_plain n : forall x, In x (decimal n) -> x <> 60%N.
Proof.
  intros x H E. subst x.
  pose proof (decimal_digits n) as D. rewrite Forall_forall in D.
  specialize (D _ H). discriminate.
Qed.

Lemma escapeText_no_tag s : opensOnly 60 messageTags (escapeText s) = true.
Proof. apply opensOnly_absent. intros x Hx. apply (escapeText_plain s x Hx). Qed.

Lemma foundItemsList_cons T item rest :
  foundItemsList T (item :: rest)
  = do foundName <- escapeHtmlValue T (itemFoundName item);
    do tail <- foundItemsList T rest;
    Normal (js "<br>" ++ [10003%N] ++ js " Found: <strong>" ++ foundName
            ++ js "</strong> (ID: " ++ escapeHtml (itemId item) ++ js ")" ++ tail).
Proof. reflexivity. Qed.

Lemma foundItemsList_markup T found : forall list,
  foundItemsList T found = Normal list -> opensOnly 60 messageTags list = true.
Proof.
  induction found as [|item found IH]; intros list H.
  - injection H as <-. reflexivity.
  - rewrite foundItemsList_cons in H. unfold andThen in H.
    destruct (escapeHtmlValue T (itemFoundName item)) as [foundName|] eqn:E; [|discriminate].
    destruct (foundItemsList T found) as [tail|]; [|discriminate].
    apply Normal_eq in H. subst list.
    assert (opensOnly 60 messageTags foundName = true) as F.
    { unfold escapeHtmlValue, andThen in E.
      destruct (itemFoundName item);
        try (injection E as <-; reflexivity);
        (destruct (toString T _); [|discriminate]);
        injection E as <-; apply escapeText_no_tag. }
    apply opensOnly_app; [reflexivity|].
    apply opensOnly_app; [reflexivity|].
    apply opensOnly_app; [reflexivity|].
    apply opensOnly_app; [exact F|].
    apply opensOnly_app; [reflexivity|].
    apply opensOnly_app; [apply escapeText_no_tag|].
    apply opensOnly_app; [reflexivity|].
    apply IH. reflexivity.
Qed.

(** The markup of the messages [render] shows as HTML. *)
Lemma render_markup T other ids failed found p p' :
  Forall (fun item => forall c, In c (failedUrl item) -> c <> 60%N /\ c <> 62%N) failed ->
  render T other ids failed found p = Done p' ->
  asHTML (messageEl p') = true ->
  opensOnly 60 messageTags (content (messageEl p')) = true.
Proof.
  intros U. destruct (formatSearchLinks_plain_urls failed U) as (_ & _ & L).
  unfold render.
  destruct ((length (sort other ids) =? 0) && (0 <? length failed)).
  { intros H _. apply Done_eq in H. subst p'.
    cbn [content messageEl showMessage setCounts setOutput].
    apply opensOnly_app; [reflexivity|].
    apply opensOnly_app; [exact L | reflexivity]. }
  destruct (length (sort other ids) =? 0).
  { intros H A. apply Done_eq in H. subst p'. discriminate. }
  destruct (if 0 <? length found then foundItemsList T found else Normal [])
    as [list|e] eqn:F; [|discriminate].
  assert (opensOnly 60 messageTags list = true) as Fl.
  { destruct (0 <? length found); [exact (foundItemsList_markup _ _ _ F)|].
    injection F as <-. reflexivity. }
  assert (opensOnly 60 messageTags
            ((js "Successfully converted " ++ decimal (length (sort other ids))
              ++ js " item(s) to TSM format!") ++ list) = true) as M.
  { apply opensOnly_app; [|exact Fl].
    apply opensOnly_app; [reflexivity|].
    apply opensOnly_app; [|reflexivity].
    apply opensOnly_absent, decimal_plain. }
  destruct (0 <? length failed); [|destruct (0 <? length found)];
    intros H A; apply Done_eq in H; subst p';
    cbn [content messageEl showMessage setCounts setOutput] in *;
    try discriminate; [|exact M].
  apply opensOnly_app; [exact M|].
  apply opensOnly_app; [reflexivity|].
  apply opensOnly_app; [reflexivity|].
  apply opensOnly_app; [reflexivity|].
  apply opensOnly_app; [exact L | reflexivity].
Qed.

End MessageFacts.
Import MessageFacts.

(** X16. The prompt to enter something is the outcome of [convertToTSM]
    exactly on input of white space only; nothing else on the page changes
    then, whatever the collaborators would do. *)
Theorem convertToTSM_blank_guard
    (parseAnchors : jsstring -> completion (list jsstring))
    (JSON_parse : jsstring -> completion (list value))
    (ToString_other : value -> completion jsstring)
    (other : jsstring -> number)
    (fetch : nat -> jsstring -> completion response) (p : page) :
  forallb space (input p) = true <->
  convertToTSM parseAnchors JSON_parse ToString_other other fetch p
  = Some (Done (showMessage (js "Please enter some Wowhead URLs or item IDs")
                  (js "error") false p)).
Proof.
  split.
  - intros H. apply trim_blank in H. unfold convertToTSM. rewrite H. reflexivity.
  - intros H. apply trim_blank.
    destruct (trim (input p)) as [|c t] eqn:B; [reflexivity|]. exfalso.
    assert (trim (input p) <> []) as NB by (rewrite B; discriminate).
    destruct (convertToTSM_steps parseAnchors JSON_parse ToString_other other fetch p NB)
      as (ids & names & _ & _ & _ & E).
    rewrite E in H. clear E.
    destruct (resolveAll JSON_parse ToString_other fetch 0 names ids [] [])
      as [[[ids' failed] found]|e]; [|discriminate].
    injection H as H. apply render_content_head in H.
    destruct H as (a & rest & H & Ha).
    cbn [content messageEl showMessage] in H. injection H as <- _.
    destruct Ha as [Ha | [Ha | Ha]]; discriminate.
Qed.

(** X17. Without a pair of square brackets in input that is not blank no
    lookup is made: the run completes, with the same page whatever [fetch],
    [JSON.parse] and [ToString] would do; the output is the rendering of the
    sorted IDs of the text, both counts are their number, and the message is
    plain text. *)
Theorem convertToTSM_without_brackets
    (parseAnchors : jsstring -> completion (list jsstring))
    (JSON_parse : jsstring -> completion (list value))
    (ToString_other : value -> completion jsstring)
    (other : jsstring -> number)
    (fetch : nat -> jsstring -> completion response) (p : page) :
  trim (input p) <> [] ->
  ~ In (ch "[") (input p) \/ ~ In (ch "]") (input p) ->
  exists ids p',
    extractItemIds parseAnchors (input p) = Some ids
    /\ convertToTSM parseAnchors JSON_parse ToString_other other fetch p = Some (Done p')
    /\ (forall JSON_parse' ToString_other' fetch',
          convertToTSM parseAnchors JSON_parse' ToString_other' other fetch' p
          = Some (Done p'))
    /\ output p' = tsmFormat (sort other ids)
    /\ itemCount p' = decimal (length ids)
    /\ uniqueCount p' = decimal (length ids)
    /\ asHTML (messageEl p') = false.
Proof.
  intros NB Hb.
  pose proof (itemName_captures_need_brackets (input p) Hb) as Nn.
  assert (forall J T f,
            exists ids,
              extractItemIds parseAnchors (input p) = Some ids
              /\ convertToTSM parseAnchors J T other f p
                 = Some (render T other ids [] [] p)) as St.
  { intros J T f.
    destruct (convertToTSM_steps parseAnchors J T other f p NB)
      as (ids & names & Ei & _ & En & E).
    rewrite extractItemNames_eq, Nn in En. injection En as <-.
    exists ids. split; [exact Ei|]. rewrite E. reflexivity. }
  destruct (St JSON_parse ToString_other fetch) as (ids & Ei & E).
  destruct (render ToString_other other ids [] [] p) as [p'|p' e] eqn:R.
  2:{ apply render_Rejected in R. destruct R as [R _]. discriminate. }
  exists ids, p'. split; [exact Ei|]. split; [exact E|]. split.
  - intros J' T' f'. destruct (St J' T' f') as (ids' & Ei' & E').
    rewrite Ei in Ei'. injection Ei' as <-.
    rewrite E', (render_no_lookups T' ToString_other), R. reflexivity.
  - apply render_Done in R. destruct R as (_ & O & C1 & C2 & _ & A).
    repeat (split; [assumption|]). rewrite A. destruct ids; reflexivity.
Qed.

Lemma convertToTSM_without_brackets_witness :
  exists p',
    convertToTSM noAnchors noJSON plainToString notANumber offline
      (Page (js "500, 3, 42") [] [] [] (MessageBox [] false []))
    = Some (Done p')
    /\ asHTML (messageEl p') = false.
Proof.
  destruct (convertToTSM_without_brackets noAnchors noJSON plainToString notANumber offline
              (Page (js "500, 3, 42") [] [] [] (MessageBox [] false [])))
    as (ids & p' & _ & E & _ & _ & _ & _ & A).
  - vm_compute. discriminate.
  - left. vm_compute. intuition discriminate.
  - exists p'. split; assumption.
Defined.

(** X18. A message [convertToTSM] shows as HTML holds no markup but its
    own: every opening angle bracket in it opens one of the tags the page
    writes, the link, the line break and the strong emphasis; item names,
    IDs and URLs bring in none. *)
Theorem convertToTSM_message_markup
    (parseAnchors : jsstring -> completion (list jsstring))
    (JSON_parse : jsstring -> completion (list value))
    (ToString_other : value -> completion jsstring)
    (other : jsstring -> number)
    (fetch : nat -> jsstring -> completion response) (p p' : page) :
  convertToTSM parseAnchors JSON_parse ToString_other other fetch p = Some (Done p') ->
  asHTML (messageEl p') = true ->
  opensOnly (ch "<") messageTags (content (messageEl p')) = true.
Proof.
  intros H A.
  destruct (trim (input p)) as [|c t] eqn:B.
  { unfold convertToTSM in H. rewrite B in H. injection H as <-. discriminate. }
  assert (trim (input p) <> []) as NB by (rewrite B; discriminate).
  destruct (convertToTSM_steps parseAnchors JSON_parse ToString_other other fetch p NB)
    as (ids & names & _ & _ & _ & E).
  rewrite E in H. clear E.
  destruct (resolveAll JSON_parse ToString_other fetch 0 names ids [] [])
    as [[[ids' failed] found]|e] eqn:R; [|discriminate].
  apply resolveAll_accounts in R.
  destruct R as (aFailed & _ & -> & _ & _ & Rep & _).
  apply Some_eq in H.
  refine (render_markup _ _ _ _ _ _ _ _ H A).
  eapply Forall_impl; [|exact Rep].
  intros item (enc & En & U) a Ha. rewrite U in Ha.
  destruct (lookupUrl_plain _ _ En a Ha) as (_ & _ & _ & H1 & H2). auto.
Qed.

Lemma convertToTSM_message_markup_witness :
  exists p',
    convertToTSM noAnchors noJSON plainToString notANumber offline
      (Page (js "[<b>Thunderfury</b>]") [] [] [] (MessageBox [] false []))
    = Some (Done p')
    /\ asHTML (messageEl p') = true
    /\ opensOnly (ch "<") messageTags (content (messageEl p')) = true.
Proof.
  eexists. split; [vm_compute; reflexivity|]. split; [reflexivity|].
  eapply (convertToTSM_message_markup noAnchors noJSON plainToString notANumber offline
            (Page (js "[<b>Thunderfury</b>]") [] [] [] (MessageBox [] false []))).
  - vm_compute. reflexivity.
  - reflexivity.
Defined.

(** * The message box, the clipboard and the paste listener *)

Module ClassFacts.

Lemma split_token t : forall current s,
  (forall c, In c t -> asciiWhitespace c = false) ->
  splitOnWhitespace current (t ++ s) = splitOnWhitespace (rev t ++ current) s.
Proof.
  induction t as [|a t IH]; intros current s H; [reflexivity|].
  simpl. rewrite (H a (or_introl eq_refl)).
  rewrite IH by (intros c Hc; apply H; right; exact Hc).
  rewrite <- app_assoc. reflexivity.
Qed.

Lemma split_tokens s : forall current,
  (forall c, In c current -> asciiWhitespace c = false) ->
  Forall classToken (splitOnWhitespace current s).
Proof.
  assert (forall current : jsstring,
            current <> [] -> (forall c, In c current -> asciiWhitespace c = false) ->
            classToken (rev current)) as R.
  { intros current N H. split.
    - intros E. apply N. rewrite <- (rev_involutive current), E. reflexivity.
    - intros c Hc. apply H. apply in_rev. exact Hc. }
  induction s as [|a s IH]; intros current H; simpl.
  - destruct current as [|c current]; constructor; [|constructor].
    apply R; [discriminate | exact H].
  - destruct (asciiWhitespace a) eqn:W.
    + destruct current as [|c current].
      * apply IH. intros c [].
      * constructor; [apply R; [discriminate | exact H]|].
        apply IH. intros c' [].
    + apply IH. intros c [<- | Hc]; [exact W | apply H, Hc].
Qed.

Lemma split_one t : classToken t -> splitOnWhitespace [] t = [t].
Proof.
  intros [N H]. rewrite <- (app_nil_r t) at 1. rewrite split_token by exact H.
  rewrite app_nil_r. simpl. destruct (rev t) as [|c r] eqn:E.
  - exfalso. apply N. rewrite <- (rev_involutive t), E. reflexivity.
  - rewrite <- E, rev_involutive. reflexivity.
Qed.

(** Parsing what the serializer wrote gives the tokens back. *)
Lemma split_join l : Forall classToken l -> splitOnWhitespace [] (join (js " ") l) = l.
Proof.
  induction 1 as [|t l Ht H IH]; [reflexivity|].
  destruct l as [|u l]; [apply split_one, Ht|].
  rewrite join_cons. destruct Ht as [N Hc].
  rewrite split_token by exact Hc. rewrite app_nil_r.
  change (js " " ++ join (js " ") (u :: l)) with (32%N :: join (js " ") (u :: l)).
  cbn [splitOnWhitespace]. change (asciiWhitespace 32) with true. cbv iota.
  rewrite IH. destruct (rev t) as [|c r] eqn:E.
  - exfalso. apply N. rewrite <- (rev_involutive t), E. reflexivity.
  - rewrite <- E, rev_involutive. reflexivity.
Qed.

Lemma tokenSet_tokens className :
  Forall classToken (tokenSet className) /\ NoDup (tokenSet className).
Proof.
  unfold tokenSet. fold (addAll (splitOnWhitespace [] className) []). split.
  - apply Forall_addAll; [|constructor]. apply split_tokens. intros c [].
  - apply NoDup_addAll. constructor.
Qed.

Lemma tokenSet_join l : Forall classToken l -> NoDup l -> tokenSet (join (js " ") l) = l.
Proof.
  intros F N. unfold tokenSet. rewrite (split_join l F).
  fold (addAll l []). rewrite addAll_fresh; [reflexivity | exact N].
Qed.

Lemma filter_tokens f l :
  Forall classToken l -> NoDup l -> Forall classToken (filter f l) /\ NoDup (filter f l).
Proof.
  intros F N. split; [|apply NoDup_filter, N].
  rewrite Forall_forall in *. intros t Ht. apply filter_In in Ht. apply F, Ht.
Qed.

(** The token set after [classList.remove]. *)
Lemma tokenSet_remove token className :
  tokenSet (classList_remove token className) = filter (otherThan token) (tokenSet className).
Proof.
  unfold classList_remove. fold (otherThan token).
  destruct (tokenSet_tokens className) as [F N].
  destruct (filter_tokens (otherThan token) _ F N) as [F' N'].
  apply tokenSet_join; assumption.
Qed.

Lemma filter_twice (A : Type) (f : A -> bool) l : filter f (filter f l) = filter f l.
Proof.
  induction l as [|a l IH]; [reflexivity|]. simpl.
  destruct (f a) eqn:E; [simpl; rewrite E, IH; reflexivity | exact IH].
Qed.

Lemma classList_remove_twice token className :
  classList_remove token (classList_remove token className)
  = classList_remove token className.
Proof.
  unfold classList_remove at 1. rewrite tokenSet_remove.
  fold (otherThan token). rewrite filter_twice. reflexivity.
Qed.

Lemma hideMessage_twice p : hideMessage (hideMessage p) = hideMessage p.
Proof.
  unfold hideMessage. cbn [input output itemCount uniqueCount messageEl content asHTML className].
  rewrite classList_remove_twice. reflexivity.
Qed.

End ClassFacts.
Import ClassFacts.

(** X19. [hideMessage] takes the token show, and nothing else, out of the
    classes of the message box: read back, the class attribute holds the
    tokens it held, in their order, without show; hiding twice is hiding
    once; the text of the message and the rest of the page stay; after
    [showMessage] with one of the three types the script uses, the class
    attribute is message and the type. *)
Theorem hideMessage_removes_show (p : page) :
  tokenSet (className (messageEl (hideMessage p)))
  = filter (otherThan (js "show")) (tokenSet (className (messageEl p)))
  /\ ~ In (js "show") (tokenSet (className (messageEl (hideMessage p))))
  /\ hideMessage (hideMessage p) = hideMessage p
  /\ content (messageEl (hideMessage p)) = content (messageEl p)
  /\ (input (hideMessage p), output (hideMessage p), itemCount (hideMessage p),
      uniqueCount (hideMessage p))
     = (input p, output p, itemCount p, uniqueCount p)
  /\ Forall (fun type =>
               forall text isHTML,
                 className (messageEl (hideMessage (showMessage text type isHTML p)))
                 = js "message " ++ type)
       [js "error"; js "info"; js "success"].
Proof.
  assert (tokenSet (className (messageEl (hideMessage p)))
          = filter (otherThan (js "show")) (tokenSet (className (messageEl p)))) as E.
  { unfold hideMessage. cbn [messageEl className]. apply tokenSet_remove. }
  split; [exact E|]. split.
  { rewrite E. intros H. apply filter_In in H. destruct H as [_ H].
    unfold otherThan in H. destruct (jsstring_eq_dec (js "show") (js "show")); congruence. }
  split; [apply hideMessage_twice|]. split; [reflexivity|]. split; [reflexivity|].
  repeat constructor; intros text isHTML; vm_compute; reflexivity.
Qed.

(** X20. After [clearAll] the page is reset: input and output are empty,
    both counts read 0, the message box keeps its text but not the token
    show; clearing twice is clearing once; a conversion of the cleared page
    only prompts for input, and a copy finds nothing to copy and leaves the
    clipboard alone. *)
Theorem clearAll_resets
    (parseAnchors : jsstring -> completion (list jsstring))
    (JSON_parse : jsstring -> completion (list value))
    (ToString_other : value -> completion jsstring)
    (other : jsstring -> number)
    (fetch : nat -> jsstring -> completion response)
    (writeText : option (jsstring -> bool)) (execCommand : completion bool)
    (p : page) (clipboard : jsstring) :
  (input (clearAll p), output (clearAll p), itemCount (clearAll p), uniqueCount (clearAll p))
  = ([], [], js "0", js "0")
  /\ content (messageEl (clearAll p)) = content (messageEl p)
  /\ ~ In (js "show") (tokenSet (className (messageEl (clearAll p))))
  /\ clearAll (clearAll p) = clearAll p
  /\ convertToTSM parseAnchors JSON_parse ToString_other other fetch (clearAll p)
     = Some (Done (showMessage (js "Please enter some Wowhead URLs or item IDs")
                     (js "error") false (clearAll p)))
  /\ copyToClipboard writeText execCommand (clearAll p, clipboard)
     = (showMessage (js "Nothing to copy! Please convert some items first.")
          (js "error") false (clearAll p), clipboard).
Proof.
  split; [reflexivity|]. split; [reflexivity|]. split.
  { unfold clearAll, hideMessage. cbn [messageEl className].
    rewrite tokenSet_remove. intros H. apply filter_In in H. destruct H as [_ H].
    unfold otherThan in H. destruct (jsstring_eq_dec (js "show") (js "show")); congruence. }
  split.
  { unfold clearAll, hideMessage.
    cbn [input output itemCount uniqueCount messageEl content asHTML className].
    rewrite classList_remove_twice. reflexivity. }
  split; reflexivity.
Qed.



(** X22. The fallback copy reports success without looking at what
    [execCommand] returns: when the Clipboard API is missing or refuses and
    [execCommand] returns false, the success message is shown and the
    clipboard is what it was. *)
Theorem fallbackCopy_success_unchecked
    (writeText : option (jsstring -> bool)) (p : page) (clipboard : jsstring) :
  output p <> [] ->
  writeText = None \/ (exists write, writeText = Some write /\ write (output p) = false) ->
  fallbackCopy (Normal false) (p, clipboard)
  = (showMessage (js "Copied to clipboard! Ready to import in TSM.") (js "success") false p,
     clipboard)
  /\ copyToClipboard writeText (Normal false) (p, clipboard)
     = fallbackCopy (Normal false) (p, clipboard).
Proof.
  intros N W. split; [reflexivity|].
  unfold copyToClipboard. destruct (output p) as [|c o] eqn:O; [congruence|].
  destruct W as [-> | (write & -> & W)]; [reflexivity|]. rewrite W. reflexivity.
Qed.

Lemma fallbackCopy_success_unchecked_witness :
  copyToClipboard None (Normal false)
    (Page [] (js "i:19019") [] [] (MessageBox [] false []), js "old")
  = (showMessage (js "Copied to clipboard! Ready to import in TSM.") (js "success") false
       (Page [] (js "i:19019") [] [] (MessageBox [] false [])), js "old").
Proof.
  destruct (fallbackCopy_success_unchecked None
              (Page [] (js "i:19019") [] [] (MessageBox [] false [])) (js "old"))
    as [F C].
  - discriminate.
  - left. reflexivity.
  - rewrite C. exact F.
Defined.

Module PasteFacts.

Lemma list_ind2 (P : jsstring -> Prop) :
  P [] -> (forall c, P [c]) -> (forall c d s, P s -> P (d :: s) -> P (c :: d :: s)) ->
  forall s, P s.
Proof.
  intros H0 H1 H2 s.
  assert (P s /\ forall c, P (c :: s)) as [H _]; [|exact H].
  induction s as [|d s [IH1 IH2]]; [auto|].
  split; [apply IH2|]. intros c. apply H2; [exact IH1 | apply IH2].
Qed.

Lemma normalizeNewlines_cons2 c d s :
  normalizeNewlines (c :: d :: s)
  = if (c =? 13)%N then
      10%N :: (if (d =? 10)%N then normalizeNewlines s else normalizeNewlines (d :: s))
    else c :: normalizeNewlines (d :: s).
Proof. reflexivity. Qed.

Lemma normalizeNewlines_one c :
  normalizeNewlines [c] = if (c =? 13)%N then [10%N] else [c].
Proof. reflexivity. Qed.

Lemma normalizeNewlines_other c s :
  c <> 13%N -> normalizeNewlines (c :: s) = c :: normalizeNewlines s.
Proof. intros H. apply N.eqb_neq in H. simpl. rewrite H. reflexivity. Qed.




(** The normalization goes through a code unit that is no newline. *)
Lemma normalizeNewlines_app (p : jsstring) : forall x s,
  x <> 10%N -> x <> 13%N ->
  normalizeNewlines (p ++ x :: s) = normalizeNewlines p ++ x :: normalizeNewlines s.
Proof.
  induction p as [|c|c d p IH1 IH2] using list_ind2; intros x s H10 H13.
  - simpl app. apply normalizeNewlines_other, H13.
  - change ([c] ++ x :: s) with (c :: x :: s).
    rewrite normalizeNewlines_cons2, normalizeNewlines_one.
    rewrite (normalizeNewlines_other x s H13).
    apply N.eqb_neq in H10. rewrite H10.
    destruct (c =? 13)%N; reflexivity.
  - change ((c :: d :: p) ++ x :: s) with (c :: d :: (p ++ x :: s)).
    rewrite !normalizeNewlines_cons2.
    change (d :: p ++ x :: s) with ((d :: p) ++ x :: s).
    rewrite (IH1 x s H10 H13), (IH2 x s H10 H13).
    destruct (c =? 13)%N; [destruct (d =? 10)%N|]; reflexivity.
Qed.

Lemma onPaste_pastes html t :
  trim html <> [] ->
  onPaste (Some html) t
  = (Textarea
       (normalizeNewlines
          (firstn (selectionStart t) (fieldValue t) ++ html
           ++ skipn (selectionEnd t) (fieldValue t)))
       (Nat.min (selectionStart t + length html)
          (length (normalizeNewlines
                     (firstn (selectionStart t) (fieldValue t) ++ html
                      ++ skipn (selectionEnd t) (fieldValue t)))))
       (Nat.min (selectionStart t + length html)
          (length (normalizeNewlines
                     (firstn (selectionStart t) (fieldValue t) ++ html
                      ++ skipn (selectionEnd t) (fieldValue t))))),
     true).
Proof.
  intros N. unfold onPaste.
  destruct html as [|c html]; [exfalso; apply N; reflexivity|].
  destruct (trim (c :: html)); [congruence | reflexivity].
Qed.

Lemma markup_not_blank html : test isHTMLPattern html = true -> trim html <> [].
Proof.
  intros H B. apply isHTML_tag_like in H. destruct H as (pre & c & mid & post & -> & _).
  apply trim_blank in B. rewrite forallb_forall in B.
  specialize (B 60%N). rewrite in_app_iff in B. simpl in B.
  assert (space 60%N = true) as S by auto. discriminate.
Qed.

Lemma letter_no_newline c : letter c = true -> c <> 10%N /\ c <> 13%N.
Proof.
  unfold letter. intros H. apply orb_true_iff in H.
  destruct H as [H | H]; [apply lower_range in H | apply upper_range in H]; lia.
Qed.

(** Markup stays markup wherever it is put, also after the newlines of the
    whole are normalized. *)
Lemma markup_inside a html b :
  test isHTMLPattern html = true ->
  test isHTMLPattern (normalizeNewlines (a ++ html ++ b)) = true.
Proof.
  intros H. apply isHTML_tag_like in H. destruct H as (pre & c & mid & post & -> & L).
  destruct (letter_no_newline c L) as [C10 C13].
  apply isHTML_tag_like.
  exists (normalizeNewlines (a ++ pre)), c, (normalizeNewlines mid),
    (normalizeNewlines (post ++ b)).
  split; [|exact L].
  replace (a ++ (pre ++ 60%N :: c :: mid ++ 62%N :: post) ++ b)
    with ((a ++ pre) ++ 60%N :: c :: mid ++ 62%N :: (post ++ b))
    by (repeat (rewrite <- ?app_assoc; simpl); reflexivity).
  rewrite normalizeNewlines_app by discriminate.
  rewrite (normalizeNewlines_other c _ C13).
  rewrite normalizeNewlines_app by discriminate. reflexivity.
Qed.

End PasteFacts.
Import PasteFacts.



(** X24. Pasted markup reaches the extractor: when the HTML of the clipboard
    looks like markup the listener takes the paste over, the whole field
    then looks like markup wherever the HTML went, and an extraction from it
    takes link targets, URLs and the colon formats but no bare number. *)
Theorem onPaste_markup_reaches_extractor
    (parseAnchors : jsstring -> completion (list jsstring))
    (html : jsstring) (t : textarea) :
  test isHTMLPattern html = true ->
  exists t' ids,
    onPaste (Some html) t = (t', true)
    /\ test isHTMLPattern (fieldValue t') = true
    /\ extractItemIds parseAnchors (fieldValue t') = Some ids
    /\ forall id,
         In id ids <->
         In id (hrefIds parseAnchors (fieldValue t'))
         \/ In id (captures wowheadUrlPattern (fieldValue t'))
         \/ In id (captures itemFormatPattern (fieldValue t'))
         \/ In id (captures tsmFormatPattern (fieldValue t')).
Proof.
  intros H. rewrite (onPaste_pastes html t (markup_not_blank html H)).
  eexists _, _. split; [reflexivity|]. cbn [fieldValue].
  pose proof (markup_inside (firstn (selectionStart t) (fieldValue t)) html
                (skipn (selectionEnd t) (fieldValue t)) H) as M.
  split; [exact M|]. split; [apply extractItemIds_eq|].
  intros id. rewrite extractItemIds_In, M. intuition discriminate.
Qed.

Lemma onPaste_markup_reaches_extractor_witness :
  exists t' ids,
    onPaste (Some (js "<a href=/item=19019>Thunderfury</a>")) (Textarea (js "42 ") 3 3)
    = (t', true)
    /\ extractItemIds noAnchors (fieldValue t') = Some ids
    /\ ~ In (js "42") ids.
Proof.
  destruct (onPaste_markup_reaches_extractor noAnchors
              (js "<a href=/item=19019>Thunderfury</a>") (Textarea (js "42 ") 3 3))
    as (t' & ids & E & _ & X & I).
  - vm_compute. reflexivity.
  - exists t', ids. split; [exact E|]. split; [exact X|].
    vm_compute in E. injection E as <-. vm_compute in X. injection X as <-.
    vm_compute. intuition discriminate.
Defined.

(** * Greedy runs and first matches *)

Module GreedyFacts.

(** With a continuation that never fails the greedy star takes the whole
    run. *)
Lemma star_greedy c aft : forall bef k z,
  (forall b a, k b a <> None) ->
  star c bef aft k = Some z ->
  exists ds aft',
    aft = ds ++ aft' /\ forallb c ds = true
    /\ k (rev ds ++ bef) aft' = Some z /\ runEnds c aft'.
Proof.
  induction aft as [|a aft IH]; intros bef k z Hk H; simpl in H.
  - exists [], []. simpl. auto.
  - destruct (c a) eqn:Ca.
    + destruct (star c (a :: bef) aft k) as [z'|] eqn:S.
      * simpl in H. injection H as ->. apply IH in S; [|exact Hk].
        destruct S as (ds & aft' & -> & F & K & Stop).
        exists (a :: ds), aft'. simpl. rewrite Ca, F, <- app_assoc. auto.
      * exfalso. apply (Hk (a :: bef) aft).
        exact (star_None c aft (a :: bef) k S [] aft eq_refl eq_refl).
    + exists [], (a :: aft). simpl. auto.
Qed.

(** A match found by the matcher of a pattern that ends with [(c+)]: the
    run captured is whole. *)
Lemma m_run c r :
  EndsWithRun c r ->
  forall x z, m r x Some = Some z ->
    exists pre s,
      after x = pre ++ s ++ after z /\ before z = rev (pre ++ s) ++ before x
      /\ group1 z = Some s /\ s <> [] /\ forallb c s = true
      /\ runEnds c (after z).
Proof.
  induction 1 as [|r1 r2 E IH]; intros x z H.
  - destruct x as [bef aft g]. unfold Plus in H. cbn [m before after group1] in H.
    destruct aft as [|a aft]; [discriminate|].
    destruct (c a) eqn:Ca; [|discriminate].
    apply star_greedy in H; [|discriminate].
    destruct H as (ds & aft' & -> & F & K & Stop).
    injection K as <-. exists [], (a :: ds). cbn [before after group1].
    assert (between (State bef (a :: ds ++ aft') g) (State (rev ds ++ a :: bef) aft' g)
            = a :: ds) as B.
    { apply between_consumed. split; simpl; [reflexivity|].
      rewrite <- app_assoc. reflexivity. }
    rewrite B. simpl. rewrite Ca, F, <- app_assoc. repeat split; auto. discriminate.
  - simpl in H. apply m_Some in H. destruct H as (y & M & H).
    apply IH in H. destruct H as (pre & s & Ea & Eb & G & N & F & Stop).
    apply Matches_consumes in M. destruct M as (s1 & E1 & B1).
    exists (s1 ++ pre), s. rewrite E1, Ea, Eb, B1.
    rewrite !rev_app_distr, <- !app_assoc. repeat split; auto.
Qed.

(** The search stops at the first position with a match. *)
Lemma search_first r aft : forall bef y,
  search r bef aft = Some y ->
  exists p aft',
    aft = p ++ aft' /\ matchAt r (rev p ++ bef) aft' = Some y
    /\ forall q q', p = q ++ q' -> q' <> [] ->
                    matchAt r (rev q ++ bef) (q' ++ aft') = None.
Proof.
  induction aft as [|a aft IH]; intros bef y H; simpl in H.
  - destruct (matchAt r bef []) eqn:E; [|discriminate]. injection H as ->.
    exists [], []. repeat split; auto.
    intros q q' Hq N. symmetry in Hq. apply app_eq_nil in Hq. tauto.
  - destruct (matchAt r bef (a :: aft)) eqn:E.
    + injection H as ->. exists [], (a :: aft). repeat split; auto.
      intros q q' Hq N. symmetry in Hq. apply app_eq_nil in Hq. tauto.
    + apply IH in H. destruct H as (p & aft' & -> & M & First).
      exists (a :: p), aft'. simpl. rewrite <- app_assoc. repeat split; auto.
      intros q q' Hq N. destruct q as [|b q].
      * simpl in Hq. subst q'. simpl. exact E.
      * simpl in Hq. injection Hq as <- ->. simpl. rewrite <- app_assoc. simpl.
        apply First; auto.
Qed.

Lemma matchAt_text r bef aft y :
  matchAt r bef aft = Some y -> rev (before y) ++ after y = rev bef ++ aft.
Proof.
  unfold matchAt. intros H. apply m_Some in H. destruct H as (y' & M & E).
  injection E as ->. apply Matches_text in M. simpl in M. auto.
Qed.

(** What holds of every match the matcher finds, in terms of the whole text
    and of what is left of it, holds of every capture of the loop. *)
Lemma whileExec_found r (Q : jsstring -> jsstring -> Prop) :
  (forall bef aft y, matchAt r bef aft = Some y -> Q (rev bef ++ aft) (capture1 y)) ->
  forall fuel bef aft caps,
    whileExec fuel r bef aft push [] = Some caps -> Forall (Q (rev bef ++ aft)) caps.
Proof.
  intros HQ. induction fuel as [|fuel IH]; intros bef aft caps H; [discriminate|].
  rewrite whileExec_S in H.
  destruct (search r bef aft) as [y|] eqn:E; [|injection H as <-; constructor].
  rewrite whileExec_push in H.
  destruct (whileExec fuel r (before y) (after y) push []) as [caps'|] eqn:E';
    [|discriminate].
  injection H as <-. apply IH in E'.
  apply search_first in E. destruct E as (p & aft' & -> & M & _).
  pose proof (HQ _ _ _ M) as Hq. pose proof (matchAt_text _ _ _ _ M) as T.
  rewrite rev_app_distr, rev_involutive, <- app_assoc in Hq, T.
  unfold push. simpl. constructor; [exact Hq|]. rewrite <- T. exact E'.
Qed.

Lemma captures_found r (Q : jsstring -> jsstring -> Prop) text :
  (forall bef aft y, matchAt r bef aft = Some y -> Q (rev bef ++ aft) (capture1 y)) ->
  Forall (Q text) (captures r text).
Proof.
  intros HQ. unfold captures.
  destruct (whileExec (S (length text)) r [] text push []) as [caps|] eqn:E;
    [|constructor].
  exact (whileExec_found r Q HQ _ _ _ _ E).
Qed.

Lemma captures_whole_runs c r text :
  EndsWithRun c r ->
  Forall (fun s => exists pre post,
                     standsIn text pre s post /\ s <> [] /\ forallb c s = true
                     /\ runEnds c post) (captures r text).
Proof.
  intros E.
  apply (captures_found r (fun text s =>
           exists pre post,
             standsIn text pre s post /\ s <> [] /\ forallb c s = true /\ runEnds c post)).
  intros bef aft y M. unfold matchAt in M.
  destruct (m_run c r E _ _ M) as (pre & s & Ea & _ & G & N & F & Stop).
  simpl in Ea. exists (rev bef ++ pre), (after y).
  unfold standsIn, capture1. rewrite G, Ea, <- app_assoc. auto.
Qed.

Lemma wowheadUrl_ends : EndsWithRun digit wowheadUrlPattern.
Proof. unfold wowheadUrlPattern. repeat constructor. Qed.

Lemma itemFormat_ends : EndsWithRun digit itemFormatPattern.
Proof. unfold itemFormatPattern. repeat constructor. Qed.

Lemma tsmFormat_ends : EndsWithRun digit tsmFormatPattern.
Proof. unfold tsmFormatPattern. repeat constructor. Qed.

Lemma href_ends : EndsWithRun digit hrefPattern.
Proof. unfold hrefPattern. repeat constructor. Qed.

Lemma itemId_ends : EndsWithRun digit itemIdPattern.
Proof. unfold itemIdPattern. repeat constructor. Qed.

End GreedyFacts.
Import GreedyFacts.

(** X25. The scans for Wowhead URLs, item: and i: capture whole digit runs:
    each capture stands in the text as a non-empty run of digits that ends
    at the end of the text or before a character that is not a digit. *)
Theorem scans_capture_whole_runs (text : jsstring) :
  Forall (fun r =>
            Forall (fun id =>
                      exists pre post,
                        standsIn text pre id post /\ isItemId id /\ runEnds digit post)
              (captures r text))
    [wowheadUrlPattern; itemFormatPattern; tsmFormatPattern].
Proof.
  assert (forall r, EndsWithRun digit r ->
            Forall (fun id =>
                      exists pre post,
                        standsIn text pre id post /\ isItemId id /\ runEnds digit post)
              (captures r text)) as H.
  { intros r E. eapply Forall_impl; [|exact (captures_whole_runs digit r text E)].
    intros id (pre & post & S & N & F & Stop). exists pre, post.
    split; [exact S|]. split; [apply isDigits_Plus; auto | exact Stop]. }
  repeat constructor; apply H.
  - exact wowheadUrl_ends.
  - exact itemFormat_ends.
  - exact tsmFormat_ends.
Qed.

Module LinkTargetFacts.

Lemma Lit_i_Matches s : forall t bef aft g,
  sameUpToCase t s ->
  Matches (Lit only_i s) (State bef (t ++ aft) g) (State (rev t ++ bef) aft g).
Proof.
  unfold sameUpToCase.
  induction s as [|c s IH]; intros t bef aft g H; destruct t as [|a t];
    try discriminate; simpl in *.
  - constructor.
  - injection H as Ha Ht. eapply MCat.
    + apply MChr. unfold only_i. apply N.eqb_eq. exact Ha.
    + rewrite <- app_assoc. simpl. apply IH. exact Ht.
Qed.

(** A link target with an item marker that a digit follows has a match of
    the pattern at the marker. *)
Lemma href_Matches pre t sep d post :
  sameUpToCase t (js "item") -> (sep = ch "/" \/ sep = ch "=") -> digit d = true ->
  exists y, Matches hrefPattern (State (rev pre) (t ++ sep :: d :: post) None) y.
Proof.
  intros Ht Hs Hd. eexists. unfold hrefPattern.
  eapply MCat; [apply Lit_i_Matches; exact Ht|].
  eapply MCat.
  - apply MChr. unfold only. destruct Hs as [-> | ->]; reflexivity.
  - apply MGroup. unfold Plus. eapply MCat; [apply MChr; exact Hd|].
    apply (MStar digit []). reflexivity.
Qed.

Lemma href_match bef aft y :
  matchAt hrefPattern bef aft = Some y ->
  exists t sep id,
    aft = t ++ sep :: id ++ after y /\ capture1 y = id
    /\ sameUpToCase t (js "item") /\ (sep = ch "/" \/ sep = ch "=")
    /\ isItemId id /\ runEnds digit (after y).
Proof.
  intros H. unfold matchAt in H.
  destruct (m_run digit hrefPattern href_ends _ _ H) as (_ & _ & _ & _ & _ & _ & _ & Stop).
  apply m_Some in H. destruct H as (y' & M & E). injection E as ->.
  unfold hrefPattern in M.
  apply Matches_Cat in M. destruct M as (y1 & M1 & M).
  apply Matches_Cat in M. destruct M as (y2 & M2 & M3).
  apply Matches_Lit_i in M1. destruct M1 as (t & E1 & _ & _ & C).
  apply Matches_Chr_one in M2. destruct M2 as (sep & E2 & Hs & _).
  apply Matches_Plus_group in M3. destruct M3 as (id & E3 & G & Hid).
  exists t, sep, id. unfold capture1. rewrite G. simpl in E1. rewrite E1, E2, E3.
  repeat split; auto.
  - unfold only in Hs. apply orb_true_iff in Hs.
    destruct Hs as [Hs | Hs]; apply N.eqb_eq in Hs; auto.
  - apply isDigits_Plus, Hid.
Qed.

Lemma prefix_split (A : Type) (p q : list A) : forall s s',
  p ++ s = q ++ s' -> length q < length p -> exists q', p = q ++ q' /\ q' <> [].
Proof.
  revert q. induction p as [|a p IH]; intros q s s' E L; [simpl in L; lia|].
  destruct q as [|b q].
  - exists (a :: p). split; [reflexivity | discriminate].
  - simpl in E. injection E as <- E. simpl in L.
    destruct (IH q s s' E ltac:(lia)) as (q' & -> & N).
    exists q'. auto.
Qed.

(** The first match of the pattern in a link target. *)
Lemma exec_href href y :
  exec hrefPattern href = Some y -> firstItemOf href (capture1 y).
Proof.
  unfold exec. intros H. apply search_first in H.
  destruct H as (p & aft' & -> & M & First).
  rewrite app_nil_r in M.
  destruct (href_match _ _ _ M) as (t & sep & id & -> & <- & Ht & Hs & Hid & Stop).
  exists p, t, sep, (after y). repeat split; auto.
  intros pre' t' sep' d post' E Ht' Hs' Hd.
  destruct (Nat.le_gt_cases (length p) (length pre')) as [L | L]; [exact L|].
  exfalso. destruct (prefix_split _ p pre' _ _ E L) as (q' & -> & N).
  specialize (First pre' q' eq_refl N). rewrite app_nil_r in First.
  rewrite <- app_assoc in E. apply app_inv_head in E.
  destruct (href_Matches pre' t' sep' d post' Ht' Hs' Hd) as [z Mz].
  rewrite E in First. unfold matchAt in First.
  pose proof (m_None _ _ _ First _ Mz). discriminate.
Qed.

Lemma exec_href_None href id : exec hrefPattern href = None -> ~ firstItemOf href id.
Proof.
  unfold exec. intros H (pre & t & sep & post & -> & Ht & Hs & Hid & _).
  destruct (isItemId_has_digit id Hid) as (d0 & _ & _).
  destruct id as [|d id]; [discriminate|].
  assert (digit d = true) as Hd.
  { unfold isItemId, isDigits in Hid. simpl in Hid. apply andb_true_iff in Hid. tauto. }
  destruct (href_Matches pre t sep d (id ++ post) Ht Hs Hd) as [z Mz].
  revert H. simpl. rewrite <- (app_nil_r (rev pre)) in Mz.
  exact (search_complete _ _ _ _ _ Mz).
Qed.

Lemma whole_run_unique c s : forall s' post post',
  forallb c s = true -> runEnds c post ->
  forallb c s' = true -> runEnds c post' ->
  s ++ post = s' ++ post' -> s = s'.
Proof.
  induction s as [|a s IH]; intros s' post post' F Stop F' Stop' E;
    destruct s' as [|a' s']; simpl in *.
  - reflexivity.
  - subst post. simpl in Stop. apply andb_true_iff in F'. destruct F' as [Fa _]. congruence.
  - subst post'. simpl in Stop'. apply andb_true_iff in F. destruct F as [Fa _]. congruence.
  - injection E as <- E. apply andb_true_iff in F, F'.
    f_equal. apply (IH s' post post'); tauto.
Qed.

Lemma sameUpToCase_length t s : sameUpToCase t s -> length t = length s.
Proof.
  unfold sameUpToCase. intros H. apply (f_equal (@length N)) in H.
  rewrite !length_map in H. exact H.
Qed.

Lemma app_same_length (A : Type) (p q : list A) : forall s s',
  p ++ s = q ++ s' -> length p = length q -> p = q /\ s = s'.
Proof.
  revert q. induction p as [|a p IH]; intros q s s' E L; destruct q as [|b q];
    simpl in *; try discriminate; [auto|].
  injection E as <- E. injection L as L. destruct (IH q s s' E L) as [-> ->]. auto.
Qed.

(** A link target has at most one item ID. *)
Lemma firstItemOf_unique href id id' :
  firstItemOf href id -> firstItemOf href id' -> id = id'.
Proof.
  intros (pre & t & sep & post & E & Ht & Hs & Hid & Stop & First)
         (pre' & t' & sep' & post' & E' & Ht' & Hs' & Hid' & Stop' & First').
  assert (forall i : jsstring, isItemId i ->
            exists d rest, i = d :: rest /\ digit d = true /\ forallb digit i = true) as Dg.
  { intros i Hi. unfold isItemId, isDigits in Hi. destruct i as [|d rest]; [discriminate|].
    exists d, rest. split; [reflexivity|]. split; [|exact Hi].
    simpl in Hi. apply andb_true_iff in Hi. tauto. }
  destruct (Dg id Hid) as (d & rest & Ei & Hd & F).
  destruct (Dg id' Hid') as (d' & rest' & Ei' & Hd' & F').
  assert (length pre = length pre') as L.
  { apply Nat.le_antisymm.
    - apply (First pre' t' sep' d' (rest' ++ post')); auto.
      rewrite E'. rewrite Ei'. reflexivity.
    - apply (First' pre t sep d (rest ++ post)); auto.
      rewrite E. rewrite Ei. reflexivity. }
  rewrite E in E'. destruct (app_same_length _ _ _ _ _ E' L) as [_ E1].
  assert (length t = length t') as Lt
    by (rewrite (sameUpToCase_length _ _ Ht), (sameUpToCase_length _ _ Ht'); reflexivity).
  destruct (app_same_length _ _ _ _ _ E1 Lt) as [_ E2].
  injection E2 as _ E2.
  exact (whole_run_unique digit id id' post post' F Stop F' Stop' E2).
Qed.

Lemma addHref_cases ids href :
  (addHref ids href = ids /\ forall id, ~ firstItemOf href id)
  \/ exists id, firstItemOf href id /\ addHref ids href = Set_add id ids.
Proof.
  unfold addHref. destruct href as [|c href].
  - left. split; [reflexivity|].
    intros id (pre & t & sep & post & E & _). destruct pre, t; discriminate.
  - destruct (exec hrefPattern (c :: href)) as [y|] eqn:E.
    + right. exists (capture1 y). split; [apply exec_href, E | reflexivity].
    + left. split; [reflexivity|]. intros id. apply exec_href_None, E.
Qed.

Lemma Set_add_length id ids : length (Set_add id ids) <= S (length ids).
Proof.
  unfold Set_add. destruct (Set_has id ids); [lia|]. rewrite length_app. simpl. lia.
Qed.

Lemma addHref_fold hrefs : forall ids,
  length (fold_left addHref hrefs ids) <= length ids + length hrefs
  /\ forall id, In id (fold_left addHref hrefs ids) <->
                In id ids \/ exists href, In href hrefs /\ firstItemOf href id.
Proof.
  induction hrefs as [|href hrefs IH]; intros ids; simpl.
  - split; [lia|]. intros id. split; [auto|]. intros [H | (href & [] & _)]. exact H.
  - destruct (IH (addHref ids href)) as [L I]. split.
    + destruct (addHref_cases ids href) as [[E _] | (id & _ & E)]; rewrite E in L |- *.
      * lia.
      * pose proof (Set_add_length id ids). lia.
    + intros id. rewrite I.
      destruct (addHref_cases ids href) as [[E N] | (id0 & F & E)]; rewrite E.
      * split.
        -- intros [H | (h & Hh & Fh)]; [auto|]. right. exists h. auto.
        -- intros [H | (h & [<- | Hh] & Fh)]; [auto | |].
           ++ exfalso. exact (N id Fh).
           ++ right. exists h. auto.
      * rewrite In_Set_add. split.
        -- intros [[H | ->] | (h & Hh & Fh)]; [auto | |].
           ++ right. exists href. auto.
           ++ right. exists h. auto.
        -- intros [H | (h & [<- | Hh] & Fh)]; [auto | |].
           ++ left. right. exact (firstItemOf_unique _ _ _ Fh F).
           ++ right. exists h. auto.
Qed.

End LinkTargetFacts.
Import LinkTargetFacts.

(** X26. What the links of pasted markup contribute: when the markup
    heuristic fires and the parser returns the link targets, the IDs taken
    from them are exactly the item IDs of the targets, for each target the
    whole digit run after its first item= or item/ (in any letter case) that
    a digit follows; so no more IDs than links. *)
Theorem hrefIds_first_item_of_each_link
    (parseAnchors : jsstring -> completion (list jsstring))
    (text : jsstring) (hrefs : list jsstring) :
  test isHTMLPattern text = true ->
  parseAnchors text = Normal hrefs ->
  length (hrefIds parseAnchors text) <= length hrefs
  /\ forall id,
       In id (hrefIds parseAnchors text) <->
       exists href, In href hrefs /\ firstItemOf href id.
Proof.
  intros H P. unfold hrefIds. rewrite H, P.
  destruct (addHref_fold hrefs []) as [L I]. split; [exact L|].
  intros id. rewrite I. simpl. tauto.
Qed.

Lemma hrefIds_first_item_of_each_link_witness :
  length (hrefIds (fun _ => Normal [js "/item=123/sword"; js "/npc=7"])
            (js "<a href=/item=123/sword>Sword</a> <a href=/npc=7>Seller</a>"))
  <= 2.
Proof.
  refine (proj1 (hrefIds_first_item_of_each_link
                   (fun _ => Normal [js "/item=123/sword"; js "/npc=7"])
                   (js "<a href=/item=123/sword>Sword</a> <a href=/npc=7>Seller</a>")
                   [js "/item=123/sword"; js "/npc=7"] _ _)).
  - vm_compute. reflexivity.
  - reflexivity.
Defined.

Module ListviewFacts.

(** The lazy star stops at the first position where the rest of the pattern
    matches. *)
Lemma lazyStar_first c aft : forall bef k z,
  lazyStar c bef aft k = Some z ->
  exists ds aft',
    aft = ds ++ aft' /\ forallb c ds = true
    /\ k (rev ds ++ bef) aft' = Some z
    /\ forall q q', ds = q ++ q' -> q' <> [] -> k (rev q ++ bef) (q' ++ aft') = None.
Proof.
  induction aft as [|a aft IH]; intros bef k z H; simpl in H.
  - destruct (k bef []) eqn:K; [|discriminate]. simpl in H. injection H as ->.
    exists [], []. repeat split; auto.
    intros q q' E N. symmetry in E. apply app_eq_nil in E. tauto.
  - destruct (k bef (a :: aft)) eqn:K; simpl in H.
    + injection H as ->. exists [], (a :: aft). repeat split; auto.
      intros q q' E N. symmetry in E. apply app_eq_nil in E. tauto.
    + destruct (c a) eqn:Ca; [|discriminate].
      apply IH in H. destruct H as (ds & aft' & -> & F & Hk & First).
      exists (a :: ds), aft'. simpl. rewrite Ca, F, <- app_assoc.
      repeat split; auto.
      intros q q' E N. destruct q as [|b q].
      * simpl in E. subst q'. simpl. exact K.
      * simpl in E. injection E as <- ->. simpl. rewrite <- app_assoc. simpl.
        apply First; auto.
Qed.

Lemma m_Cat r1 r2 x k z :
  m (Cat r1 r2) x k = Some z ->
  exists y s, after x = s ++ after y /\ m r2 y k = Some z.
Proof.
  intros H. change (m r1 x (fun y => m r2 y k) = Some z) in H.
  apply m_Some in H. destruct H as (y & M & H).
  apply Matches_consumes in M. destruct M as (s & E & _).
  exists y, s. auto.
Qed.

(** The data block and the brace after it. *)
Lemma data_block x z :
  m (Group (Chr (only (ch "[")) ;; LazyStar any ;; Chr (only (ch "]")))
     ;; Chr (only (ch "}"))) x Some = Some z ->
  exists body,
    after x = ch "[" :: body ++ js "]}" ++ after z
    /\ capture1 z = ch "[" :: body ++ [ch "]"]
    /\ forall q q' w, body = q ++ q' -> q' <> [] ->
                      q' ++ js "]}" ++ after z <> js "]}" ++ w.
Proof.
  destruct x as [bef aft g]. intros H. cbn [m before after group1] in H.
  destruct aft as [|a aft]; [discriminate|].
  destruct (only (ch "[") a) eqn:A; [|discriminate].
  apply lazyStar_first in H. destruct H as (ds & aft' & -> & _ & K & First).
  destruct aft' as [|b aft']; [discriminate|].
  destruct (only (ch "]") b) eqn:B; [|discriminate].
  destruct aft' as [|e aft']; [discriminate|].
  destruct (only (ch "}") e) eqn:C; [|discriminate].
  injection K as <-.
  unfold only in A, B, C. apply N.eqb_eq in A, B, C. subst a b e.
  exists ds. cbn [after group1 capture1]. split; [reflexivity|]. split.
  - rewrite (between_consumed _ (ch "[" :: ds ++ [ch "]"]) _); [reflexivity|].
    split; cbn [before after].
    + repeat (rewrite <- ?app_assoc; simpl). reflexivity.
    + simpl. rewrite rev_app_distr. simpl. rewrite <- app_assoc. reflexivity.
  - intros q q' w E N E2. specialize (First q q' E N).
    change (js "]}" ++ aft') with (ch "]" :: ch "}" :: aft') in E2.
    rewrite E2 in First. simpl in First. discriminate.
Qed.

Lemma listview_match x z :
  m listviewPattern x Some = Some z ->
  exists lead body,
    after x = lead ++ ch "[" :: body ++ js "]}" ++ after z
    /\ capture1 z = ch "[" :: body ++ [ch "]"]
    /\ forall q q' w, body = q ++ q' -> q' <> [] ->
                      q' ++ js "]}" ++ after z <> js "]}" ++ w.
Proof.
  unfold listviewPattern. intros H.
  do 8 (apply m_Cat in H;
        let y := fresh "y" in let s := fresh "s" in let E := fresh "E" in
        destruct H as (y & s & E & H)).
  apply data_block in H. destruct H as (body & Eb & Cp & Min).
  exists (s ++ s0 ++ s1 ++ s2 ++ s3 ++ s4 ++ s5 ++ s6), body.
  split; [|split; assumption].
  rewrite E, E0, E1, E2, E3, E4, E5, E6, Eb. repeat rewrite <- app_assoc. reflexivity.
Qed.

End ListviewFacts.
Import ListviewFacts.

(** X27. The data block of a search page: when the listing pattern matches,
    the text handed to [JSON.parse] is a block in square brackets that
    stands in the page before a closing brace, and the shortest one from its
    opening bracket: no closing bracket inside it is followed by a brace.
    So the block is never empty, and nothing of [JSON.parse] matters but
    what it does on bracketed blocks. *)
Theorem listview_data_block (html : jsstring) (listviewMatch : state) :
  exec listviewPattern html = Some listviewMatch ->
  (exists pre body post,
      html = pre ++ ch "[" :: body ++ js "]}" ++ post
      /\ capture1 listviewMatch = ch "[" :: body ++ [ch "]"]
      /\ forall q q' w, body = q ++ q' -> q' <> [] ->
                        q' ++ js "]}" ++ post <> js "]}" ++ w)
  /\ forall (JSON_parse JSON_parse' : jsstring -> completion (list value))
            (ToString_other : value -> completion jsstring) (itemName : jsstring),
       (forall s, JSON_parse (ch "[" :: s ++ [ch "]"])
                  = JSON_parse' (ch "[" :: s ++ [ch "]"])) ->
       fromListview JSON_parse ToString_other html itemName
       = fromListview JSON_parse' ToString_other html itemName.
Proof.
  intros H.
  assert (exists pre body post,
             html = pre ++ ch "[" :: body ++ js "]}" ++ post
             /\ capture1 listviewMatch = ch "[" :: body ++ [ch "]"]
             /\ forall q q' w, body = q ++ q' -> q' <> [] ->
                               q' ++ js "]}" ++ post <> js "]}" ++ w) as D.
  { unfold exec in H. apply search_first in H.
    destruct H as (p & aft' & -> & M & _). unfold matchAt in M.
    apply listview_match in M. destruct M as (lead & body & E & C & Min).
    cbn [after] in E. exists (p ++ lead), body, (after listviewMatch).
    split; [|split; assumption]. rewrite E, <- app_assoc. reflexivity. }
  split; [exact D|].
  intros J J' T itemName Agree. unfold fromListview. rewrite H.
  destruct D as (_ & body & _ & _ & C & _). rewrite C, Agree. reflexivity.
Qed.

Lemma listview_data_block_witness :
  exists listviewMatch pre body post,
    exec listviewPattern oddPage = Some listviewMatch
    /\ oddPage = pre ++ ch "[" :: body ++ js "]}" ++ post
    /\ capture1 listviewMatch = ch "[" :: body ++ [ch "]"].
Proof.
  destruct (exec listviewPattern oddPage) as [y|] eqn:E; [|vm_compute in E; discriminate].
  destruct (listview_data_block oddPage y E) as [(pre & body & post & H & C & _) _].
  exists y, pre, body, post. auto.
Defined.

Module FallbackFacts.

Lemma searchWowheadForItemName_at_relay J T fetch itemName enc twice resp html :
  encodeURIComponent itemName = Normal enc ->
  encodeURIComponent enc = Normal twice ->
  fetch (relayUrl (encodedLookupPrefix ++ twice)) = Normal resp ->
  ok resp = true -> text resp = Normal html ->
  searchWowheadForItemName J T fetch itemName
  = match fromListview J T html itemName with
    | Some r => Normal r
    | None =>
        match exec itemIdPattern html with
        | Some itemIdMatch =>
            Normal (Found (capture1 itemIdMatch) itemName (VString itemName))
        | None => Normal (NotFound itemName (js "No item found") (lookupUrl enc))
        end
    end.
Proof.
  intros Enc Tw F O Tx.
  unfold searchWowheadForItemName. rewrite Enc. unfold andThen at 1.
  fold (lookupUrl enc). unfold trySearch.
  rewrite (lookupUrl_encodes enc twice Tw). unfold andThen.
  unfold relayUrl in F. cbv zeta. rewrite F, O, Tx. cbn [negb].
  destruct (fromListview J T html itemName) as [r|]; [reflexivity|].
  destruct (exec itemIdPattern html); reflexivity.
Qed.

Lemma Lit_only_Matches s : forall bef aft g,
  Matches (Lit only s) (State bef (s ++ aft) g) (State (rev s ++ bef) aft g).
Proof.
  induction s as [|c s IH]; intros bef aft g; simpl.
  - constructor.
  - eapply MCat.
    + apply MChr. unfold only. apply N.eqb_refl.
    + rewrite <- app_assoc. simpl. apply IH.
Qed.

Lemma itemId_Matches pre sep d post :
  (sep = ch "=" \/ sep = ch "/") -> digit d = true ->
  exists y, Matches itemIdPattern (State (rev pre) (js "/item" ++ sep :: d :: post) None) y.
Proof.
  intros Hs Hd. eexists. unfold itemIdPattern.
  eapply MCat; [apply Lit_only_Matches|].
  eapply MCat.
  - apply MChr. unfold only. destruct Hs as [-> | ->]; reflexivity.
  - apply MGroup. unfold Plus. eapply MCat; [apply MChr; exact Hd|].
    apply (MStar digit []). reflexivity.
Qed.

Lemma itemId_matchAt bef aft y :
  matchAt itemIdPattern bef aft = Some y ->
  exists sep id,
    aft = js "/item" ++ sep :: id ++ after y /\ capture1 y = id
    /\ (sep = ch "=" \/ sep = ch "/") /\ isItemId id /\ runEnds digit (after y).
Proof.
  intros H. unfold matchAt in H.
  destruct (m_run digit itemIdPattern itemId_ends _ _ H) as (_ & _ & _ & _ & _ & _ & _ & Stop).
  apply m_Some in H. destruct H as (y' & M & E). injection E as ->.
  apply itemId_match in M. destruct M as (sep & id & C & D & E & S).
  exists sep, id. simpl in E. auto.
Qed.

Lemma exec_itemId html y :
  exec itemIdPattern html = Some y -> firstItemLinkOf html (capture1 y).
Proof.
  unfold exec. intros H. apply search_first in H.
  destruct H as (p & aft' & -> & M & First).
  rewrite app_nil_r in M.
  destruct (itemId_matchAt _ _ _ M) as (sep & id & -> & <- & Hs & Hid & Stop).
  exists p, sep, (after y). repeat split; auto.
  intros pre' sep' d post' E Hs' Hd.
  destruct (Nat.le_gt_cases (length p) (length pre')) as [L | L]; [exact L|].
  exfalso. destruct (prefix_split _ p pre' _ _ E L) as (q' & -> & N).
  specialize (First pre' q' eq_refl N). rewrite app_nil_r in First.
  rewrite <- app_assoc in E. apply app_inv_head in E.
  destruct (itemId_Matches pre' sep' d post' Hs' Hd) as [z Mz].
  rewrite E in First. unfold matchAt in First.
  pose proof (m_None _ _ _ First _ Mz). discriminate.
Qed.

Lemma exec_itemId_None html id :
  exec itemIdPattern html = None -> ~ firstItemLinkOf html id.
Proof.
  unfold exec. intros H (pre & sep & post & -> & Hs & Hid & _).
  destruct id as [|d id]; [discriminate|].
  assert (digit d = true) as Hd.
  { unfold isItemId, isDigits in Hid. simpl in Hid. apply andb_true_iff in Hid. tauto. }
  destruct (itemId_Matches pre sep d (id ++ post) Hs Hd) as [z Mz].
  revert H. rewrite <- (app_nil_r (rev pre)) in Mz.
  exact (search_complete _ _ _ _ _ Mz).
Qed.

Lemma firstItemLinkOf_unique html id id' :
  firstItemLinkOf html id -> firstItemLinkOf html id' -> id = id'.
Proof.
  intros (pre & sep & post & E & Hs & Hid & Stop & First)
         (pre' & sep' & post' & E' & Hs' & Hid' & Stop' & First').
  assert (forall i : jsstring, isItemId i ->
            exists d rest, i = d :: rest /\ digit d = true /\ forallb digit i = true) as Dg.
  { intros i Hi. unfold isItemId, isDigits in Hi. destruct i as [|d rest]; [discriminate|].
    exists d, rest. split; [reflexivity|]. split; [|exact Hi].
    simpl in Hi. apply andb_true_iff in Hi. tauto. }
  destruct (Dg id Hid) as (d & rest & Ei & Hd & F).
  destruct (Dg id' Hid') as (d' & rest' & Ei' & Hd' & F').
  assert (length pre = length pre') as L.
  { apply Nat.le_antisymm.
    - apply (First pre' sep' d' (rest' ++ post')); auto.
      rewrite E'. rewrite Ei'. reflexivity.
    - apply (First' pre sep d (rest ++ post)); auto.
      rewrite E. rewrite Ei. reflexivity. }
  rewrite E in E'. destruct (app_same_length _ _ _ _ _ E' L) as [_ E1].
  apply app_inv_head in E1. injection E1 as _ E2.
  exact (whole_run_unique digit id id' post post' F Stop F' Stop' E2).
Qed.


Lemma fromListview_block_unparsed J T html itemName :
  (forall lm, exec listviewPattern html = Some lm -> exists e, J (capture1 lm) = Throw e) ->
  fromListview J T html itemName = None.
Proof.
  intros HJ. unfold fromListview.
  destruct (exec listviewPattern html) as [lm|]; [|reflexivity].
  destruct (capture1 lm) as [|c s] eqn:C; [reflexivity|].
  destruct (HJ lm eq_refl) as [e E]. rewrite C in E. rewrite E. reflexivity.
Qed.

End FallbackFacts.
Import FallbackFacts.

(** X8. When the data block of the page fetched is missing or is one that
    [JSON.parse] throws on, the lookup is settled by the first item link of
    the page: with one, the item found has as ID the whole run of digits
    after the first /item= or /item/ that a digit follows, and the name
    searched for as display name; without one, the outcome is NotFound with
    the reason No item found and the search URL. *)
Theorem searchWowheadForItemName_fallback_id
    (JSON_parse : jsstring -> completion (list value))
    (ToString_other : value -> completion jsstring)
    (fetch : jsstring -> completion response)
    (itemName encodedName twice : jsstring) (resp : response) (html : jsstring) :
  encodeURIComponent itemName = Normal encodedName ->
  encodeURIComponent encodedName = Normal twice ->
  fetch (relayUrl (encodedLookupPrefix ++ twice)) = Normal resp ->
  ok resp = true ->
  text resp = Normal html ->
  (forall listviewMatch,
      exec listviewPattern html = Some listviewMatch ->
      exists e, JSON_parse (capture1 listviewMatch) = Throw e) ->
  ((exists id,
       firstItemLinkOf html id
       /\ searchWowheadForItemName JSON_parse ToString_other fetch itemName
          = Normal (Found id itemName (VString itemName)))
   \/ ((forall id, ~ firstItemLinkOf html id)
       /\ searchWowheadForItemName JSON_parse ToString_other fetch itemName
          = Normal (NotFound itemName (js "No item found") (lookupUrl encodedName))))
  /\ forall id id', firstItemLinkOf html id -> firstItemLinkOf html id' -> id = id'.
Proof.
  intros Enc Tw F O Tx HJ. split; [|apply firstItemLinkOf_unique].
  rewrite (searchWowheadForItemName_at_relay _ _ _ _ _ _ _ _ Enc Tw F O Tx).
  rewrite (fromListview_block_unparsed _ _ _ _ HJ).
  destruct (exec itemIdPattern html) as [y|] eqn:E.
  - left. exists (capture1 y). split; [apply exec_itemId, E | reflexivity].
  - right. split; [|reflexivity]. intros id. apply exec_itemId_None, E.
Qed.

Lemma searchWowheadForItemName_fallback_id_witness :
  searchWowheadForItemName (knownJSON [(js "[]", [])]) plainToString
    (pageAt thunderfuryUrl nestedPage) (js "Thunderfury")
  = Normal (Found (js "19019") (js "Thunderfury") (VString (js "Thunderfury"))).
Proof.
  destruct (searchWowheadForItemName_fallback_id (knownJSON [(js "[]", [])]) plainToString
              (pageAt thunderfuryUrl nestedPage) (js "Thunderfury") (js "Thunderfury")
              (js "Thunderfury") (Response true (Normal nestedPage)) nestedPage)
    as [[(id & L & R) | (N & R)] U].
  - vm_compute. reflexivity.
  - vm_compute. reflexivity.
  - vm_compute. reflexivity.
  - reflexivity.
  - reflexivity.
  - intros lm H. vm_compute in H. injection H as <-. eexists. vm_compute. reflexivity.
  - rewrite R. pose proof R as R'. vm_compute in R'. injection R' as <-. reflexivity.
  - vm_compute in R. discriminate.
Defined.



Module TimerFacts.






End TimerFacts.
Import TimerFacts.


